(** * Retro music tracker: data model, playback engine and WAV encoder

    A shallow embedding of the TypeScript sources
    (domain/Note.ts, Step.ts, Pattern.ts, Song.ts, usecases/PatternEditor.ts,
    infrastructure/audio/PlaybackEngine.ts, infrastructure/export/AudioExporter.ts)
    together with the properties established about them.

    Conventions of the embedding:
    - a JavaScript [number] that the code uses as an index or a counter is a
      [Z]; one that it uses as a time, a tempo or a sample is an exact rational
      [Q] (IEEE rounding is not modelled); the song repeat count, which the
      code tests with [Number.isFinite], ranges over [Js.number];
    - a method that can throw returns a [Js.result]; the engine, whose methods
      mutate [this] before they throw, returns an [outcome] that carries the
      engine reached;
    - the [while] loop of the scheduler takes a fuel: the number of iterations
      it is allowed; [Running] says that the loop condition still holds when
      the fuel is spent. *)

From Stdlib Require Import ZArith QArith Qround List String Ascii Bool Lia Lqa.
From Stdlib Require Import DecimalString Permutation.
Import ListNotations.

Local Open Scope string_scope.
Local Open Scope list_scope.
Local Open Scope Z_scope.

(* ================================================================== *)
(** ** JavaScript values *)

Module Js.

(** Thrown values: [new Error(msg)], the engine-raised [TypeError]
    (member access on [null] or [undefined]) and the [RangeError] of a
    [DataView] access outside its buffer. *)
Inductive exn : Type :=
| Error (msg : string)
| TypeError (what : string)
| RangeError (what : string).

Inductive result (A : Type) : Type :=
| Ok (a : A)
| Throw (e : exn).
Arguments Ok {A} a.
Arguments Throw {A} e.

Definition bind {A B : Type} (r : result A) (k : A -> result B) : result B :=
  match r with
  | Ok a => k a
  | Throw e => Throw e
  end.

(** The [number] type where its non-finite members matter. *)
Inductive number : Type :=
| Fin (q : Q)
| PosInf
| NegInf
| NaN.

(** [x <= 0] *)
Definition le_zero (x : number) : bool :=
  match x with
  | Fin q => Qle_bool q 0
  | NegInf => true
  | PosInf | NaN => false
  end.

(** [x > 0] *)
Definition gt_zero (x : number) : bool :=
  match x with
  | Fin q => negb (Qle_bool q 0)
  | PosInf => true
  | NegInf | NaN => false
  end.

(** [Number.isFinite(x)], which is also the global [isFinite] on numbers. *)
Definition isFinite (x : number) : bool :=
  match x with
  | Fin _ => true
  | _ => false
  end.

(** [n >= x] for an integer [n]. *)
Definition int_ge (n : Z) (x : number) : bool :=
  match x with
  | Fin q => Qle_bool q (inject_Z n)
  | NegInf => true
  | PosInf | NaN => false
  end.

(** [Number.isInteger(x)] *)
Definition isInteger (x : number) : bool :=
  match x with
  | Fin q => Qeq_bool q (inject_Z (Qfloor q))
  | _ => false
  end.

(** White space removed by [String.prototype.trim] (the ASCII part). *)
Definition is_space (c : ascii) : bool :=
  let n := nat_of_ascii c in
  (Nat.eqb n 9 || Nat.eqb n 10 || Nat.eqb n 11 || Nat.eqb n 12
   || Nat.eqb n 13 || Nat.eqb n 32)%bool.

Fixpoint trimStart (s : string) : string :=
  match s with
  | EmptyString => EmptyString
  | String c s' => if is_space c then trimStart s' else s
  end.

Fixpoint trimEnd (s : string) : string :=
  match s with
  | EmptyString => EmptyString
  | String c s' =>
      match trimEnd s' with
      | EmptyString => if is_space c then EmptyString else String c EmptyString
      | t => String c t
      end
  end.

Definition trim (s : string) : string := trimEnd (trimStart s).

(** [!s || s.trim() === ''] *)
Definition blank (s : string) : bool :=
  (String.eqb s "" || String.eqb (trim s) "")%bool.

(** [arr[i]] on a dense array: [undefined] outside it. *)
Definition index {A : Type} (l : list A) (i : Z) : option A :=
  if i <? 0 then None else nth_error l (Z.to_nat i).

(** [arr[i] = v] for [i] inside the array. *)
Fixpoint update {A : Type} (l : list A) (i : nat) (v : A) : list A :=
  match l, i with
  | [], _ => []
  | _ :: t, O => v :: t
  | h :: t, S i' => h :: update t i' v
  end.

(** [arr.splice(start, deleteCount, ...items)]: a negative [start] counts
    from the end, and [start] is clamped to the array.  The result is the
    array after the call and the removed elements. *)
Definition splice_start {A : Type} (l : list A) (start : Z) : nat :=
  let len := Z.of_nat (List.length l) in
  if start <? 0 then Z.to_nat (Z.max (len + start) 0)
  else Z.to_nat (Z.min start len).

Definition splice {A : Type} (l : list A) (start : Z) (deleteCount : nat)
           (items : list A) : list A * list A :=
  let s := splice_start l start in
  (firstn s l ++ items ++ skipn deleteCount (skipn s l),
   firstn deleteCount (skipn s l)).

(** An integer inside a template literal: its decimal digits. *)
Definition decimal (n : Z) : string := NilZero.string_of_int (Z.to_int n).

End Js.

Import Js.

Notation "x <- e ;; k" := (Js.bind e (fun x => k))
  (at level 61, e at next level, right associativity).

(* ================================================================== *)
(** ** Domain entities *)

Module Domain.

(** *** Note.ts *)
Record Note : Type := mkNote {
  pitch : string;
  duration : Q;
  channel : Z
}.

Definition newNote (pitch : string) (duration : Q) (channel : Z) : result Note :=
  if blank pitch then Throw (Error "Pitch cannot be empty")
  else if Qle_bool duration 0 then Throw (Error "Duration must be positive")
  else if channel <? 0 then Throw (Error "Channel must be non-negative")
  else Ok (mkNote pitch duration channel).

(** *** Step.ts *)
Record Step : Type := mkStep {
  position : Z;
  notes : list Note
}.

Definition newStep (position : Z) (notes : list Note) : result Step :=
  if position <? 0 then Throw (Error "Position must be non-negative")
  else Ok (mkStep position notes).

Definition Step_addNote (s : Step) (note : Note) : result Step :=
  newStep (position s) (notes s ++ [note]).

Definition Step_hasNoteForChannel (s : Step) (ch : Z) : bool :=
  existsb (fun n => channel n =? ch) (notes s).

Definition Step_getNoteForChannel (s : Step) (ch : Z) : option Note :=
  find (fun n => channel n =? ch) (notes s).

Definition Step_isEmpty (s : Step) : bool :=
  (Z.of_nat (List.length (notes s)) =? 0).

Definition Step_removeNoteAtChannel (s : Step) (ch : Z) : result Step :=
  newStep (position s) (filter (fun n => negb (channel n =? ch)) (notes s)).

(** *** Pattern.ts *)
Record Pattern : Type := mkPattern {
  id : string;
  name : string;
  stepCount : Z;
  steps : list Step
}.

(** [for (let i = 0; i < stepCount; i++) emptySteps.push(new Step(i))] *)
Definition emptySteps (stepCount : Z) : list Step :=
  map (fun i => mkStep (Z.of_nat i) []) (seq 0 (Z.to_nat stepCount)).

(** The constructor; [steps] is the optional fourth argument.  An array,
    even an empty one, is truthy and is copied as it is. *)
Definition newPattern (id name : string) (stepCount : Z)
           (steps : option (list Step)) : result Pattern :=
  if blank id then Throw (Error "Pattern id cannot be empty")
  else if blank name then Throw (Error "Pattern name cannot be empty")
  else if stepCount <=? 0 then Throw (Error "Step count must be positive")
  else Ok (mkPattern id name stepCount
             match steps with
             | Some l => l
             | None => emptySteps stepCount
             end).

(** [getStep]: the result is [None] when [this.steps[position]] is
    [undefined]. *)
Definition getStep (p : Pattern) (pos : Z) : result (option Step) :=
  if (pos <? 0) || (pos >=? stepCount p)
  then Throw (Error "Step position out of bounds")
  else Ok (index (steps p) pos).

Definition getAllSteps (p : Pattern) : list Step := steps p.

Definition addNoteAtStep (p : Pattern) (stepPosition : Z) (note : Note)
  : result Pattern :=
  if (stepPosition <? 0) || (stepPosition >=? stepCount p)
  then Throw (Error "Step position out of bounds")
  else
    match index (steps p) stepPosition with
    | None => Throw (TypeError "addNote of undefined")
    | Some st =>
        st' <- Step_addNote st note ;;
        newPattern (id p) (name p) (stepCount p)
          (Some (update (steps p) (Z.to_nat stepPosition) st'))
    end.

Definition removeNoteAtStep (p : Pattern) (stepPosition : Z) (ch : Z)
  : result Pattern :=
  if (stepPosition <? 0) || (stepPosition >=? stepCount p)
  then Throw (Error "Step position out of bounds")
  else
    match index (steps p) stepPosition with
    | None => Throw (TypeError "removeNoteAtChannel of undefined")
    | Some st =>
        st' <- Step_removeNoteAtChannel st ch ;;
        newPattern (id p) (name p) (stepCount p)
          (Some (update (steps p) (Z.to_nat stepPosition) st'))
    end.

Definition Pattern_isEmpty (p : Pattern) : bool :=
  forallb Step_isEmpty (steps p).

Definition withName (p : Pattern) (newName : string) : result Pattern :=
  newPattern (id p) newName (stepCount p) (Some (steps p)).

(** *** Song.ts *)
Record PatternEntry : Type := mkPatternEntry {
  patternId : string;
  repeat : Z
}.

Definition newPatternEntry (patternId : string) (repeat : Z)
  : result PatternEntry :=
  if blank patternId then Throw (Error "Pattern id cannot be empty")
  else if repeat <=? 0 then Throw (Error "Repeat must be positive")
  else Ok (mkPatternEntry patternId repeat).

Record Song : Type := mkSong {
  song_id : string;
  song_name : string;
  bpm : Q;
  repeatCount : number;
  patternSequence : list PatternEntry
}.

Definition newSong (id name : string) (bpm : Q) (repeatCount : number)
           (patternSequence : list PatternEntry) : result Song :=
  if blank id then Throw (Error "Song id cannot be empty")
  else if blank name then Throw (Error "Song name cannot be empty")
  else if Qle_bool bpm 0 then Throw (Error "BPM must be positive")
  else if le_zero repeatCount || negb (isFinite repeatCount)
  then Throw (Error "Repeat count must be positive and finite")
  else Ok (mkSong id name bpm repeatCount patternSequence).

Definition Song_isEmpty (s : Song) : bool :=
  (Z.of_nat (List.length (patternSequence s)) =? 0).

Definition hasDefinedEnd (s : Song) : bool :=
  isFinite (repeatCount s) && gt_zero (repeatCount s).

(** *** The other methods of Note.ts, Step.ts and Song.ts *)

(** [equals]: [===] on the pitch, the duration and the channel. *)
Definition Note_equals (a b : Note) : bool :=
  String.eqb (pitch a) (pitch b) && Qeq_bool (duration a) (duration b)
  && (channel a =? channel b).

Definition withPitch (n : Note) (newPitch : string) : result Note :=
  newNote newPitch (duration n) (channel n).

Definition withDuration (n : Note) (newDuration : Q) : result Note :=
  newNote (pitch n) newDuration (channel n).

Definition withChannel (n : Note) (newChannel : Z) : result Note :=
  newNote (pitch n) (duration n) newChannel.

Definition Step_removeNote (s : Step) (noteToRemove : Note) : result Step :=
  newStep (position s)
          (filter (fun note => negb (Note_equals note noteToRemove)) (notes s)).

Definition Song_addPattern (s : Song) (pattern : Pattern) : result Song :=
  entry <- newPatternEntry (id pattern) 1 ;;
  newSong (song_id s) (song_name s) (bpm s) (repeatCount s)
          (patternSequence s ++ [entry]).

Definition removePatternAt (s : Song) (index : Z) : result Song :=
  if (index <? 0) || (index >=? Z.of_nat (List.length (patternSequence s)))
  then Throw (Error "Index out of bounds")
  else newSong (song_id s) (song_name s) (bpm s) (repeatCount s)
               (fst (splice (patternSequence s) index 1 [])).

(** [insertPatternAt] checks no bound: [splice] takes any index. *)
Definition insertPatternAt (s : Song) (index : Z) (pattern : Pattern)
  : result Song :=
  entry <- newPatternEntry (id pattern) 1 ;;
  newSong (song_id s) (song_name s) (bpm s) (repeatCount s)
          (fst (splice (patternSequence s) index 0 [entry])).

(** [const [moved] = newSequence.splice(fromIndex, 1)] and then
    [newSequence.splice(toIndex, 0, moved)].  After the bounds test the
    first [splice] removes one entry; the other branch is never taken. *)
Definition movePattern (s : Song) (fromIndex toIndex : Z) : result Song :=
  let len := Z.of_nat (List.length (patternSequence s)) in
  if (fromIndex <? 0) || (fromIndex >=? len)
     || (toIndex <? 0) || (toIndex >=? len)
  then Throw (Error "Index out of bounds")
  else
    let (rest, removed) := splice (patternSequence s) fromIndex 1 [] in
    match removed with
    | moved :: _ =>
        newSong (song_id s) (song_name s) (bpm s) (repeatCount s)
                (fst (splice rest toIndex 0 [moved]))
    | [] => newSong (song_id s) (song_name s) (bpm s) (repeatCount s) rest
    end.

Definition totalPatterns (s : Song) : Z :=
  Z.of_nat (List.length (patternSequence s)).

(** [this.patternSequence.length * this.repeatCount] *)
Definition totalPatternsWithRepeats (s : Song) : number :=
  let len := totalPatterns s in
  match repeatCount s with
  | Fin q => Fin (inject_Z len * q)
  | PosInf => if len =? 0 then NaN else PosInf
  | NegInf => if len =? 0 then NaN else NegInf
  | NaN => NaN
  end.

Definition withBpm (s : Song) (newBpm : Q) : result Song :=
  newSong (song_id s) (song_name s) newBpm (repeatCount s) (patternSequence s).

Definition withRepeatCount (s : Song) (newRepeatCount : number) : result Song :=
  newSong (song_id s) (song_name s) (bpm s) newRepeatCount (patternSequence s).

Definition Song_withName (s : Song) (newName : string) : result Song :=
  newSong (song_id s) newName (bpm s) (repeatCount s) (patternSequence s).

End Domain.

(* ================================================================== *)
(** ** PatternEditor.ts *)

Module Editor.
Import Domain.

Record PatternEditor : Type := mkEditor {
  currentPattern : Pattern;
  maxChannels : Z
}.

(** The two validators; their messages are kept without the index that
    the source interpolates into them. *)
Definition validateChannelIndex (ed : PatternEditor) (channelIndex : Z)
  : result unit :=
  if channelIndex >=? maxChannels ed
  then Throw (Error "Channel exceeds pattern channel limit")
  else if channelIndex <? 0 then Throw (Error "Channel is negative")
  else Ok tt.

Definition validateStepIndex (ed : PatternEditor) (stepIndex : Z)
  : result unit :=
  if stepIndex >=? stepCount (currentPattern ed)
  then Throw (Error "Step is out of bounds")
  else if stepIndex <? 0 then Throw (Error "Step is negative")
  else Ok tt.

(** [this.currentPattern] is assigned last, so a throw leaves the editor
    as it was: the result is the editor after a normal return. *)
Definition addNote (ed : PatternEditor) (stepIndex channelIndex : Z)
           (note : Note) : result PatternEditor :=
  _ <- validateChannelIndex ed channelIndex ;;
  _ <- validateStepIndex ed stepIndex ;;
  noteWithChannel <- newNote (pitch note) (duration note) channelIndex ;;
  found <- getStep (currentPattern ed) stepIndex ;;
  match found with
  | None => Throw (TypeError "removeNoteAtChannel of undefined")
  | Some step =>
      updatedStep <- Step_removeNoteAtChannel step channelIndex ;;
      updatedStep <- Step_addNote updatedStep noteWithChannel ;;
      let newSteps :=
        update (getAllSteps (currentPattern ed)) (Z.to_nat stepIndex)
               updatedStep in
      p <- newPattern (id (currentPattern ed)) (name (currentPattern ed))
                      (stepCount (currentPattern ed)) (Some newSteps) ;;
      Ok (mkEditor p (maxChannels ed))
  end.

Definition removeNote (ed : PatternEditor) (stepIndex channelIndex : Z)
  : result PatternEditor :=
  _ <- validateChannelIndex ed channelIndex ;;
  _ <- validateStepIndex ed stepIndex ;;
  found <- getStep (currentPattern ed) stepIndex ;;
  match found with
  | None => Throw (TypeError "removeNoteAtChannel of undefined")
  | Some step =>
      updatedStep <- Step_removeNoteAtChannel step channelIndex ;;
      let newSteps :=
        update (getAllSteps (currentPattern ed)) (Z.to_nat stepIndex)
               updatedStep in
      p <- newPattern (id (currentPattern ed)) (name (currentPattern ed))
                      (stepCount (currentPattern ed)) (Some newSteps) ;;
      Ok (mkEditor p (maxChannels ed))
  end.

(** [moveNote] calls [removeNote] and then [addNote] on [this]: when the
    second throws, the removal stays.  The result is the editor the call
    leaves and what it threw, if anything. *)
Definition moveNote (ed : PatternEditor)
           (sourceStep sourceChannel targetStep targetChannel : Z)
  : PatternEditor * option exn :=
  match
    (_ <- validateChannelIndex ed sourceChannel ;;
     _ <- validateChannelIndex ed targetChannel ;;
     _ <- validateStepIndex ed sourceStep ;;
     _ <- validateStepIndex ed targetStep ;;
     found <- getStep (currentPattern ed) sourceStep ;;
     match found with
     | None => Throw (TypeError "getNoteForChannel of undefined")
     | Some sourceStepObj =>
         match Step_getNoteForChannel sourceStepObj sourceChannel with
         | None => Throw (Error "No note at source position")
         | Some note => Ok note
         end
     end)
  with
  | Throw x => (ed, Some x)
  | Ok note =>
      match removeNote ed sourceStep sourceChannel with
      | Throw x => (ed, Some x)
      | Ok ed1 =>
          match addNote ed1 targetStep targetChannel note with
          | Throw x => (ed1, Some x)
          | Ok ed2 => (ed2, None)
          end
      end
  end.

Definition clear (ed : PatternEditor) : result PatternEditor :=
  p <- newPattern (id (currentPattern ed)) (name (currentPattern ed))
                  (stepCount (currentPattern ed))
                  (Some (emptySteps (stepCount (currentPattern ed)))) ;;
  Ok (mkEditor p (maxChannels ed)).

Definition getPattern (ed : PatternEditor) : Pattern := currentPattern ed.

Definition isEmpty (ed : PatternEditor) : bool :=
  Pattern_isEmpty (currentPattern ed).

Definition getStepCount (ed : PatternEditor) : Z :=
  stepCount (currentPattern ed).

Definition getChannelCount (ed : PatternEditor) : Z := maxChannels ed.

End Editor.

(* ================================================================== *)
(** ** PlaybackEngine.ts *)

Module Playback.
Import Domain.

Inductive PlaybackState : Type := stopped | playing | paused.

Definition state_eqb (a b : PlaybackState) : bool :=
  match a, b with
  | stopped, stopped | playing, playing | paused, paused => true
  | _, _ => false
  end.

(** What [playNote] asks of the audio context: one oscillator through one
    gain node, started and stopped at the given context times. *)
Record OscillatorEvent : Type := mkOsc {
  frequency : Q;
  gain : Q;
  startAt : Q;
  stopAt : Q
}.

(** The consumed audio context: its clock, which only the host advances,
    and the oscillators scheduled on it so far, oldest first. *)
Record AudioContext : Type := mkContext {
  currentTime : Q;
  scheduled : list OscillatorEvent
}.

(** The handle kept in [scheduleInterval]: the armed [setInterval] timer
    and its period in milliseconds. *)
Inductive timer : Type := Interval (period : Z).

(** A registered completion callback is opaque; it is known by a number
    and its calls are recorded in [completions]. *)
Record Engine : Type := mkEngine {
  audioContext : AudioContext;
  state : PlaybackState;
  currentPattern : option Pattern;
  currentSong : option Song;
  patternMap : list (string * Pattern);
  bpm : Q;
  currentStep : Z;
  startTime : Q;
  pauseTime : Q;
  scheduleInterval : option timer;
  totalLoops : number;
  currentLoop : Z;
  onCompleteCallback : option nat;
  completions : list nat
}.

Definition SCHEDULE_AHEAD_TIME : Q := 1 # 10.
Definition SCHEDULE_INTERVAL : Z := 25.

(** The field initialisers and the constructor. *)
Definition newEngine (ctx : AudioContext) : Engine :=
  mkEngine ctx stopped None None [] (120 # 1)%Q 0 0%Q 0%Q None (Fin 1%Q) 0 None [].

(** Field assignments. *)
Definition set_audioContext (e : Engine) (v : AudioContext) : Engine :=
  mkEngine v (state e) (currentPattern e) (currentSong e) (patternMap e)
    (bpm e) (currentStep e) (startTime e) (pauseTime e) (scheduleInterval e)
    (totalLoops e) (currentLoop e) (onCompleteCallback e) (completions e).
Definition set_state (e : Engine) (v : PlaybackState) : Engine :=
  mkEngine (audioContext e) v (currentPattern e) (currentSong e) (patternMap e)
    (bpm e) (currentStep e) (startTime e) (pauseTime e) (scheduleInterval e)
    (totalLoops e) (currentLoop e) (onCompleteCallback e) (completions e).
Definition set_currentPattern (e : Engine) (v : option Pattern) : Engine :=
  mkEngine (audioContext e) (state e) v (currentSong e) (patternMap e)
    (bpm e) (currentStep e) (startTime e) (pauseTime e) (scheduleInterval e)
    (totalLoops e) (currentLoop e) (onCompleteCallback e) (completions e).
Definition set_currentSong (e : Engine) (v : option Song) : Engine :=
  mkEngine (audioContext e) (state e) (currentPattern e) v (patternMap e)
    (bpm e) (currentStep e) (startTime e) (pauseTime e) (scheduleInterval e)
    (totalLoops e) (currentLoop e) (onCompleteCallback e) (completions e).
Definition set_patternMap (e : Engine) (v : list (string * Pattern)) : Engine :=
  mkEngine (audioContext e) (state e) (currentPattern e) (currentSong e) v
    (bpm e) (currentStep e) (startTime e) (pauseTime e) (scheduleInterval e)
    (totalLoops e) (currentLoop e) (onCompleteCallback e) (completions e).
Definition set_bpm (e : Engine) (v : Q) : Engine :=
  mkEngine (audioContext e) (state e) (currentPattern e) (currentSong e)
    (patternMap e) v (currentStep e) (startTime e) (pauseTime e)
    (scheduleInterval e) (totalLoops e) (currentLoop e)
    (onCompleteCallback e) (completions e).
Definition set_currentStep (e : Engine) (v : Z) : Engine :=
  mkEngine (audioContext e) (state e) (currentPattern e) (currentSong e)
    (patternMap e) (bpm e) v (startTime e) (pauseTime e)
    (scheduleInterval e) (totalLoops e) (currentLoop e)
    (onCompleteCallback e) (completions e).
Definition set_startTime (e : Engine) (v : Q) : Engine :=
  mkEngine (audioContext e) (state e) (currentPattern e) (currentSong e)
    (patternMap e) (bpm e) (currentStep e) v (pauseTime e)
    (scheduleInterval e) (totalLoops e) (currentLoop e)
    (onCompleteCallback e) (completions e).
Definition set_pauseTime (e : Engine) (v : Q) : Engine :=
  mkEngine (audioContext e) (state e) (currentPattern e) (currentSong e)
    (patternMap e) (bpm e) (currentStep e) (startTime e) v
    (scheduleInterval e) (totalLoops e) (currentLoop e)
    (onCompleteCallback e) (completions e).
Definition set_scheduleInterval (e : Engine) (v : option timer) : Engine :=
  mkEngine (audioContext e) (state e) (currentPattern e) (currentSong e)
    (patternMap e) (bpm e) (currentStep e) (startTime e) (pauseTime e)
    v (totalLoops e) (currentLoop e) (onCompleteCallback e) (completions e).
Definition set_totalLoops (e : Engine) (v : number) : Engine :=
  mkEngine (audioContext e) (state e) (currentPattern e) (currentSong e)
    (patternMap e) (bpm e) (currentStep e) (startTime e) (pauseTime e)
    (scheduleInterval e) v (currentLoop e) (onCompleteCallback e)
    (completions e).
Definition set_currentLoop (e : Engine) (v : Z) : Engine :=
  mkEngine (audioContext e) (state e) (currentPattern e) (currentSong e)
    (patternMap e) (bpm e) (currentStep e) (startTime e) (pauseTime e)
    (scheduleInterval e) (totalLoops e) v (onCompleteCallback e)
    (completions e).
Definition set_onCompleteCallback (e : Engine) (v : option nat) : Engine :=
  mkEngine (audioContext e) (state e) (currentPattern e) (currentSong e)
    (patternMap e) (bpm e) (currentStep e) (startTime e) (pauseTime e)
    (scheduleInterval e) (totalLoops e) (currentLoop e) v (completions e).
Definition set_completions (e : Engine) (v : list nat) : Engine :=
  mkEngine (audioContext e) (state e) (currentPattern e) (currentSong e)
    (patternMap e) (bpm e) (currentStep e) (startTime e) (pauseTime e)
    (scheduleInterval e) (totalLoops e) (currentLoop e)
    (onCompleteCallback e) v.

(** The host moves the context clock between calls. *)
Definition advanceClock (t : Q) (e : Engine) : Engine :=
  set_audioContext e (mkContext t (scheduled (audioContext e))).

(** How a call on the engine ends: it returns, it throws, or its loop is
    still running when the fuel is spent.  Each carries the engine as the
    call has left it. *)
Inductive outcome : Type :=
| Returned (e : Engine)
| Thrown (x : exn) (e : Engine)
| Running (e : Engine).

Definition engineOf (o : outcome) : Engine :=
  match o with
  | Returned e | Thrown _ e | Running e => e
  end.

(** [Map.prototype.get] and [set] on the insertion-ordered table. *)
Fixpoint map_get (m : list (string * Pattern)) (k : string) : option Pattern :=
  match m with
  | [] => None
  | (k', v) :: m' => if String.eqb k' k then Some v else map_get m' k
  end.

Fixpoint map_set (m : list (string * Pattern)) (k : string) (v : Pattern)
  : list (string * Pattern) :=
  match m with
  | [] => [(k, v)]
  | (k', v') :: m' =>
      if String.eqb k' k then (k', v) :: m' else (k', v') :: map_set m' k v
  end.

Definition map_has (m : list (string * Pattern)) (k : string) : bool :=
  match map_get m k with Some _ => true | None => false end.

(** [(60 / this.bpm) / 4] *)
Definition getStepDuration (e : Engine) : Q := ((60 # 1) / bpm e) / (4 # 1).

(** [this.startTime + (this.currentStep * stepDuration)] *)
Definition getNextNoteTime (e : Engine) : Q :=
  startTime e + inject_Z (currentStep e) * getStepDuration e.

Definition Qltb (a b : Q) : bool := negb (Qle_bool b a).

(** [noteMap[pitch] || 440] (own keys of the literal only). *)
Definition noteToFrequency (pitch : string) : Q :=
  if String.eqb pitch "C4" then 26163 # 100
  else if String.eqb pitch "D4" then 29366 # 100
  else if String.eqb pitch "E4" then 32963 # 100
  else if String.eqb pitch "F4" then 34923 # 100
  else if String.eqb pitch "G4" then 392 # 1
  else if String.eqb pitch "A4" then 440 # 1
  else if String.eqb pitch "B4" then 49388 # 100
  else 440 # 1.

Definition playNote (note : Note) (start : Q) (e : Engine) : Engine :=
  let dur := (duration note * getStepDuration e)%Q in
  let osc := mkOsc (noteToFrequency (pitch note)) (1 # 10)%Q start (start + dur)%Q in
  set_audioContext e
    (mkContext (currentTime (audioContext e))
               (scheduled (audioContext e) ++ [osc])).

Definition stop (e : Engine) : Engine :=
  let e := match scheduleInterval e with
           | Some _ => set_scheduleInterval e None
           | None => e
           end in
  let e := set_state e stopped in
  let e := set_currentStep e 0 in
  let e := set_currentLoop e 0 in
  let e := set_currentPattern e None in
  let e := set_currentSong e None in
  set_patternMap e [].

Definition pause (e : Engine) : Engine :=
  if negb (state_eqb (state e) playing) then e
  else
    let e := match scheduleInterval e with
             | Some _ => set_scheduleInterval e None
             | None => e
             end in
    let e := set_pauseTime e (currentTime (audioContext e)) in
    set_state e paused.

Definition handleSongAdvance (e : Engine) : Engine :=
  match currentSong e with
  | None => e
  | Some _ =>
      let e := set_currentLoop e (currentLoop e + 1) in
      if int_ge (currentLoop e) (totalLoops e) then
        let e := stop e in
        match onCompleteCallback e with
        | Some cb => set_completions e (completions e ++ [cb])
        | None => e
        end
      else e
  end.

(** One iteration of the body of the [while] loop of [scheduleNotes]. *)
Definition scheduleStep (e : Engine) : outcome :=
  let noteTime := getNextNoteTime e in
  match currentPattern e with
  | None => Thrown (TypeError "getStep of null") e
  | Some p =>
      match getStep p (currentStep e) with
      | Throw x => Thrown x e
      | Ok None => Thrown (TypeError "isEmpty of undefined") e
      | Ok (Some step) =>
          let e :=
            if negb (Step_isEmpty step)
            then fold_left (fun e note => playNote note noteTime e)
                           (notes step) e
            else e in
          let e := set_currentStep e (currentStep e + 1) in
          if currentStep e >=? stepCount p then
            let e := set_currentStep e 0 in
            match currentSong e with
            | Some _ => Returned (handleSongAdvance e)
            | None => Returned (set_currentLoop e (currentLoop e + 1))
            end
          else Returned e
      end
  end.

(** [while (this.getNextNoteTime() < scheduleUntil) { ... }] *)
Fixpoint scheduleLoop (fuel : nat) (scheduleUntil : Q) (e : Engine) : outcome :=
  if Qltb (getNextNoteTime e) scheduleUntil then
    match fuel with
    | O => Running e
    | S fuel' =>
        match scheduleStep e with
        | Returned e' => scheduleLoop fuel' scheduleUntil e'
        | o => o
        end
    end
  else Returned e.

Definition scheduleNotes (fuel : nat) (e : Engine) : outcome :=
  match currentPattern e with
  | None => Returned e
  | Some _ =>
      let scheduleUntil :=
        (currentTime (audioContext e) + SCHEDULE_AHEAD_TIME)%Q in
      scheduleLoop fuel scheduleUntil e
  end.

(** The callback given to [setInterval]; the host calls it every
    [SCHEDULE_INTERVAL] ms while the timer is armed. *)
Definition tick (fuel : nat) (e : Engine) : outcome :=
  if negb (state_eqb (state e) playing)
     || match currentPattern e with None => true | Some _ => false end
  then Returned e
  else scheduleNotes fuel e.

Definition schedulePlayback (fuel : nat) (e : Engine) : outcome :=
  match scheduleInterval e with
  | Some _ => Returned e
  | None =>
      scheduleNotes fuel
        (set_scheduleInterval e (Some (Interval SCHEDULE_INTERVAL)))
  end.

Definition start (fuel : nat) (pattern : Pattern) (bpm : Q) (e : Engine)
  : outcome :=
  if state_eqb (state e) playing then Returned e
  else
    let e := set_currentPattern e (Some pattern) in
    let e := set_bpm e bpm in
    let e := set_currentStep e 0 in
    let e := set_currentLoop e 0 in
    let e := set_totalLoops e (Fin 1%Q) in
    let e := set_startTime e (currentTime (audioContext e)) in
    let e := set_state e playing in
    schedulePlayback fuel e.

Definition startSong (fuel : nat) (song : Song) (patterns : list Pattern)
           (e : Engine) : outcome :=
  if state_eqb (state e) playing then Returned e
  else
    let e := set_currentSong e (Some song) in
    let e := set_bpm e (Domain.bpm song) in
    let e := set_totalLoops e (repeatCount song) in
    let e := set_currentLoop e 0 in
    let e := set_currentStep e 0 in
    let e := set_startTime e (currentTime (audioContext e)) in
    let e := set_state e playing in
    let e := set_patternMap e
               (fold_left (fun m p => map_set m (id p) p) patterns []) in
    let e := match patternSequence song with
             | first :: _ =>
                 set_currentPattern e (map_get (patternMap e) (patternId first))
             | [] => e
             end in
    schedulePlayback fuel e.

Definition resume (fuel : nat) (e : Engine) : outcome :=
  if negb (state_eqb (state e) paused) then Returned e
  else
    let pauseDuration := (currentTime (audioContext e) - pauseTime e)%Q in
    let e := set_startTime e (startTime e + pauseDuration)%Q in
    let e := set_state e playing in
    schedulePlayback fuel e.

Definition updatePattern (pattern : Pattern) (e : Engine) : Engine :=
  let e := set_currentPattern e (Some pattern) in
  match currentSong e with
  | Some _ =>
      if map_has (patternMap e) (id pattern)
      then set_patternMap e (map_set (patternMap e) (id pattern) pattern)
      else e
  | None => e
  end.

Definition onComplete (callback : nat) (e : Engine) : Engine :=
  set_onCompleteCallback e (Some callback).

Definition isPlaying (e : Engine) : bool := state_eqb (state e) playing.
Definition isPaused (e : Engine) : bool := state_eqb (state e) paused.
Definition getCurrentStep (e : Engine) : Z := currentStep e.
Definition getTotalLoops (e : Engine) : number := totalLoops e.

End Playback.

(* ================================================================== *)
(** ** AudioExporter.ts *)

Module AudioExporter.

(** Modelled from the spec: the declarations of [Song], [Pattern] and
    [AudioExportOptions] that the exporter imports ([domain/models/types])
    are not among the sources.  The fields are those of the song data
    schema and of the option objects the exporter reads; of a pattern only
    the fields read by the duration computation are kept. *)
Record Pattern : Type := mkPattern {
  id : string;
  name : string;
  stepsCount : Z
}.

Record Song : Type := mkSong {
  title : string;
  bpm : Q;
  channelCount : Z;
  stepsPerBeat : Q;
  patterns : list Pattern;
  patternOrder : list string
}.

Inductive BitDepth : Type := Bits8 | Bits16 | Bits24 | Bits32.

Definition bits (b : BitDepth) : Z :=
  match b with
  | Bits8 => 8
  | Bits16 => 16
  | Bits24 => 24
  | Bits32 => 32
  end.

Record AudioExportOptions : Type := mkOptions {
  sampleRate : Z;
  bitDepth : BitDepth;
  audioChannels : Z
}.

(** [song.patterns.find((p) => p.id === patternId)] *)
Definition findPattern (song : Song) (patternId : string) : option Pattern :=
  find (fun p => String.eqb (id p) patternId) (patterns song).

(** [song.patternOrder.reduce((total, patternId) => ..., 0)] *)
Definition getTotalSteps (song : Song) : Z :=
  fold_left
    (fun total patternId =>
       total + match findPattern song patternId with
               | Some pattern => stepsCount pattern
               | None => 0
               end)
    (patternOrder song) 0.

Definition calculateDuration (song : Song) : Q :=
  let totalSteps := getTotalSteps song in
  let beatsPerStep := (1 / stepsPerBeat song)%Q in
  let totalBeats := (inject_Z totalSteps * beatsPerStep)%Q in
  ((totalBeats / bpm song) * (60 # 1))%Q.

(** *** ArrayBuffer and DataView *)

(** A buffer is its bytes, each in [0, 256). *)
Definition buffer : Type := list Z.

Definition newArrayBuffer (size : Z) : buffer := repeat 0 (Z.to_nat size).

(** Store one byte; [None] outside the buffer. *)
Fixpoint poke (view : buffer) (i : nat) (v : Z) : option buffer :=
  match view, i with
  | [], _ => None
  | _ :: t, O => Some (v :: t)
  | h :: t, S i' =>
      match poke t i' v with
      | Some t' => Some (h :: t')
      | None => None
      end
  end.

Definition toUint8 (v : Z) : Z := v mod 256.

Definition setUint8 (view : buffer) (offset : Z) (v : Z) : result buffer :=
  if offset <? 0 then Throw (RangeError "Offset is outside the bounds of the DataView")
  else
    match poke view (Z.to_nat offset) (toUint8 v) with
    | Some view' => Ok view'
    | None => Throw (RangeError "Offset is outside the bounds of the DataView")
    end.

(** [setUint16(offset, v, true)]: the low 16 bits of [v], little-endian. *)
Definition setUint16 (view : buffer) (offset : Z) (v : Z) : result buffer :=
  view <- setUint8 view offset v ;;
  setUint8 view (offset + 1) (Z.shiftr v 8).

(** [setUint32(offset, v, true)]: the low 32 bits of [v], little-endian. *)
Definition setUint32 (view : buffer) (offset : Z) (v : Z) : result buffer :=
  view <- setUint8 view offset v ;;
  view <- setUint8 view (offset + 1) (Z.shiftr v 8) ;;
  view <- setUint8 view (offset + 2) (Z.shiftr v 16) ;;
  setUint8 view (offset + 3) (Z.shiftr v 24).

(** The signed stores write the same two's-complement bytes. *)
Definition setInt16 (view : buffer) (offset : Z) (v : Z) : result buffer :=
  setUint16 view offset v.

Definition setInt32 (view : buffer) (offset : Z) (v : Z) : result buffer :=
  setUint32 view offset v.

Definition getUint8 (view : buffer) (offset : Z) : option Z :=
  index view offset.

(** [getUint16(offset, true)] and [getUint32(offset, true)] *)
Definition getUint16 (view : buffer) (offset : Z) : option Z :=
  match getUint8 view offset, getUint8 view (offset + 1) with
  | Some b0, Some b1 => Some (b0 + 256 * b1)
  | _, _ => None
  end.

Definition getUint32 (view : buffer) (offset : Z) : option Z :=
  match getUint8 view offset, getUint8 view (offset + 1),
        getUint8 view (offset + 2), getUint8 view (offset + 3) with
  | Some b0, Some b1, Some b2, Some b3 =>
      Some (b0 + 256 * b1 + 65536 * b2 + 16777216 * b3)
  | _, _, _, _ => None
  end.

Definition charCode (c : ascii) : Z := Z.of_nat (nat_of_ascii c).

(** [writeString]: one [setUint8] per character. *)
Fixpoint writeString (view : buffer) (offset : Z) (str : string)
  : result buffer :=
  match str with
  | EmptyString => Ok view
  | String c rest =>
      view <- setUint8 view offset (charCode c) ;;
      writeString view (offset + 1) rest
  end.

Definition Math_min (a b : Q) : Q := if Qle_bool a b then a else b.
Definition Math_max (a b : Q) : Q := if Qle_bool a b then b else a.

(** [Math.max(-1, Math.min(1, samples[i]))] *)
Definition clamp (x : Q) : Q := Math_max (-1 # 1)%Q (Math_min (1 # 1)%Q x).

(** The body of the sample loop: clamp, then the [switch] on the depth. *)
Definition writeSample (bd : BitDepth) (view : buffer) (offset : Z) (raw : Q)
  : result buffer :=
  let sample := clamp raw in
  match bd with
  | Bits8 =>
      setUint8 view offset (Qfloor ((sample + 1) * (1275 # 10))%Q)
  | Bits16 =>
      setInt16 view offset (Qfloor (sample * (32767 # 1))%Q)
  | Bits24 =>
      let val24 := Qfloor (sample * (8388607 # 1))%Q in
      view <- setUint8 view offset (Z.land val24 255) ;;
      view <- setUint8 view (offset + 1) (Z.land (Z.shiftr val24 8) 255) ;;
      setUint8 view (offset + 2) (Z.land (Z.shiftr val24 16) 255)
  | Bits32 =>
      setInt32 view offset (Qfloor (sample * (2147483647 # 1))%Q)
  end.

Fixpoint writeSamples (bd : BitDepth) (bytesPerSample : Z) (view : buffer)
         (offset : Z) (samples : list Q) : result buffer :=
  match samples with
  | [] => Ok view
  | raw :: rest =>
      view <- writeSample bd view offset raw ;;
      writeSamples bd bytesPerSample view (offset + bytesPerSample) rest
  end.

Definition createWavFile (samples : list Q) (options : AudioExportOptions)
  : result buffer :=
  let sampleRate := sampleRate options in
  let bitDepth := bitDepth options in
  let audioChannels := audioChannels options in
  let bytesPerSample := bits bitDepth / 8 in
  let dataSize := Z.of_nat (List.length samples) * bytesPerSample in
  let fileSize := 44 + dataSize in
  let view := newArrayBuffer fileSize in
  view <- writeString view 0 "RIFF" ;;
  view <- setUint32 view 4 (fileSize - 8) ;;
  view <- writeString view 8 "WAVE" ;;
  view <- writeString view 12 "fmt " ;;
  view <- setUint32 view 16 16 ;;
  view <- setUint16 view 20 1 ;;
  view <- setUint16 view 22 audioChannels ;;
  view <- setUint32 view 24 sampleRate ;;
  view <- setUint32 view 28 (sampleRate * audioChannels * bytesPerSample) ;;
  view <- setUint16 view 32 (audioChannels * bytesPerSample) ;;
  view <- setUint16 view 34 (bits bitDepth) ;;
  view <- writeString view 36 "data" ;;
  view <- setUint32 view 40 dataSize ;;
  writeSamples bitDepth bytesPerSample view 44 samples.

End AudioExporter.

(* ================================================================== *)
(** ** Channel.ts *)

Module Channels.

Record Channel : Type := mkChannel {
  id : Z;
  name : string;
  volume : Q
}.

Definition newChannel (id : Z) (name : string) (volume : Q) : result Channel :=
  if id <? 0 then Throw (Error "Channel id must be non-negative")
  else if blank name then Throw (Error "Channel name cannot be empty")
  else if negb (Qle_bool 0 volume) || negb (Qle_bool volume 1)
  then Throw (Error "Volume must be between 0 and 1")
  else Ok (mkChannel id name volume).

Definition withVolume (c : Channel) (newVolume : Q) : result Channel :=
  newChannel (id c) (name c) newVolume.

Definition withName (c : Channel) (newName : string) : result Channel :=
  newChannel (id c) newName (volume c).

Record ChannelConfig : Type := mkConfig {
  maxChannels : Z
}.

Definition newChannelConfig (maxChannels : Z) : result ChannelConfig :=
  if maxChannels <=? 0 then Throw (Error "Max channels must be positive")
  else Ok (mkConfig maxChannels).

Definition isValidChannel (cfg : ChannelConfig) (channelId : Z) : bool :=
  (channelId >=? 0) && (channelId <? maxChannels cfg).

(** The loop of [createDefaultChannels] from index [i], [n] rounds:
    [channels.push(new Channel(i, `Channel ${i + 1}`))], volume defaulted
    to 1. *)
Fixpoint defaultChannelsFrom (i : Z) (n : nat) (channels : list Channel)
  : result (list Channel) :=
  match n with
  | O => Ok channels
  | S n' =>
      c <- newChannel i ("Channel " ++ decimal (i + 1))%string (1 # 1)%Q ;;
      defaultChannelsFrom (i + 1) n' (channels ++ [c])
  end.

Definition createDefaultChannels (cfg : ChannelConfig) : result (list Channel) :=
  defaultChannelsFrom 0 (Z.to_nat (maxChannels cfg)) [].

End Channels.

(* ================================================================== *)
(** ** SongComposer.ts *)

Module Composer.
Import Domain.

Record SongComposer : Type := mkComposer {
  currentSong : Song
}.

(** Each method assigns [this.currentSong] last: the result is the
    composer after a normal return, and a throw leaves it as it was.  The
    messages are kept without the position that the source interpolates. *)
Definition rebuilt (c : SongComposer) (bpm : Q) (repeatCount : number)
           (sequence : list PatternEntry) : result SongComposer :=
  s <- newSong (song_id (currentSong c)) (song_name (currentSong c))
               bpm repeatCount sequence ;;
  Ok (mkComposer s).

Definition addPattern (c : SongComposer) (entry : PatternEntry)
  : result SongComposer :=
  rebuilt c (bpm (currentSong c)) (repeatCount (currentSong c))
          (patternSequence (currentSong c) ++ [entry]).

Definition insertPattern (c : SongComposer) (position : Z)
           (entry : PatternEntry) : result SongComposer :=
  if (position <? 0)
     || (position >? Z.of_nat (List.length (patternSequence (currentSong c))))
  then Throw (Error "Position is out of bounds")
  else rebuilt c (bpm (currentSong c)) (repeatCount (currentSong c))
               (fst (splice (patternSequence (currentSong c)) position 0 [entry])).

Definition removePattern (c : SongComposer) (position : Z)
  : result SongComposer :=
  if (position <? 0)
     || (position >=? Z.of_nat (List.length (patternSequence (currentSong c))))
  then Throw (Error "Position is out of bounds")
  else rebuilt c (bpm (currentSong c)) (repeatCount (currentSong c))
               (fst (splice (patternSequence (currentSong c)) position 1 [])).

Definition movePattern (c : SongComposer) (fromPosition toPosition : Z)
  : result SongComposer :=
  let len := Z.of_nat (List.length (patternSequence (currentSong c))) in
  if (fromPosition <? 0) || (fromPosition >=? len)
  then Throw (Error "From position is out of bounds")
  else if (toPosition <? 0) || (toPosition >=? len)
  then Throw (Error "To position is out of bounds")
  else
    let (rest, removed) :=
      splice (patternSequence (currentSong c)) fromPosition 1 [] in
    match removed with
    | movedEntry :: _ =>
        rebuilt c (bpm (currentSong c)) (repeatCount (currentSong c))
                (fst (splice rest toPosition 0 [movedEntry]))
    | [] =>
        rebuilt c (bpm (currentSong c)) (repeatCount (currentSong c)) rest
    end.

Definition setRepeatCount (c : SongComposer) (repeatCount : number)
  : result SongComposer :=
  if le_zero repeatCount then Throw (Error "Repeat count must be positive")
  else rebuilt c (bpm (currentSong c)) repeatCount
               (patternSequence (currentSong c)).

Definition setBPM (c : SongComposer) (bpm : Q) : result SongComposer :=
  if Qle_bool bpm 0 then Throw (Error "BPM must be positive")
  else rebuilt c bpm (repeatCount (currentSong c))
               (patternSequence (currentSong c)).

Definition validateFiniteLoop (c : SongComposer) : bool :=
  (Z.of_nat (List.length (patternSequence (currentSong c))) >? 0)
  && gt_zero (repeatCount (currentSong c))
  && isFinite (repeatCount (currentSong c)).

Definition clear (c : SongComposer) : result SongComposer :=
  rebuilt c (bpm (currentSong c)) (repeatCount (currentSong c)) [].

Definition isEmpty (c : SongComposer) : bool :=
  (Z.of_nat (List.length (patternSequence (currentSong c))) =? 0).

Definition getSong (c : SongComposer) : Song := currentSong c.

End Composer.

(* ================================================================== *)
(** ** AudioExporter.ts: rendering *)

Module Renderer.

(** Modelled from the spec: the declarations of [Song], [Pattern],
    [Channel] and [Note] that the exporter imports ([domain/models/types])
    are not among the sources.  The fields are those the exporters read,
    which are those of the song data schema; here a pattern keeps its
    channels. *)
Inductive Waveform : Type := square | triangle | sawtooth | sine.

Record Note : Type := mkNote {
  pitch : option Z;
  duration : Q;
  volume : Q
}.

Record Step : Type := mkStep {
  note : option Note
}.

Record Channel : Type := mkChannel {
  waveform : Waveform;
  steps : list Step
}.

Record Pattern : Type := mkPattern {
  id : string;
  name : string;
  channels : list Channel;
  stepsCount : Z
}.

Record Song : Type := mkSong {
  title : string;
  bpm : Q;
  channelCount : Z;
  stepsPerBeat : Q;
  patterns : list Pattern;
  patternOrder : list string
}.

(** The song as the duration computation reads it. *)
Definition timing (song : Song) : AudioExporter.Song :=
  AudioExporter.mkSong (title song) (bpm song) (channelCount song)
    (stepsPerBeat song)
    (map (fun p => AudioExporter.mkPattern (id p) (name p) (stepsCount p))
         (patterns song))
    (patternOrder song).

(** [new Float32Array(length)] *)
Definition newFloat32Array (length : Z) : result (list Q) :=
  if length <? 0 then Throw (RangeError "Invalid typed array length")
  else Ok (List.repeat 0%Q (Z.to_nat length)).

(** [array[index] = v] on a typed array: nothing is stored outside it. *)
Definition store (array : list Q) (index : Z) (v : Q) : list Q :=
  if (index <? 0) || (index >=? Z.of_nat (List.length array)) then array
  else update array (Z.to_nat index) v.

(** [x % 1]: the remainder has the sign of [x]. *)
Definition rem1 (x : Q) : Q :=
  if Qle_bool 0 x then (x - inject_Z (Qfloor x))%Q
  else (x - inject_Z (Qceiling x))%Q.

Definition Math_abs (x : Q) : Q := if Qle_bool 0 x then x else (- x)%Q.

(** [applyEnvelope]: 1 %% attack, 5 %% release. *)
Definition applyEnvelope (sampleIndex totalSamples : Z) : Q :=
  let attackTime := (1 # 100)%Q in
  let releaseTime := (5 # 100)%Q in
  let position := (inject_Z sampleIndex / inject_Z totalSamples)%Q in
  if negb (Qle_bool attackTime position) then (position / attackTime)%Q
  else if negb (Qle_bool position (1 - releaseTime)) then
    ((1 - position) / releaseTime)%Q
  else 1%Q.

(** [beatsPerStep / bpm * 60] *)
Definition getStepDuration (song : Song) : Q :=
  let beatsPerStep := (1 / stepsPerBeat song)%Q in
  ((beatsPerStep / bpm song) * (60 # 1))%Q.

Section Math.

(** [Math.pow(2, x)] and [Math.sin(2 * Math.PI * phase)] have no rational
    values: the two functions are parameters of the renderer. *)
Variable pow2 : Q -> Q.
Variable sin_turn : Q -> Q.

Definition midiToFrequency (midi : Z) : Q :=
  ((440 # 1) * pow2 ((inject_Z midi - (69 # 1)) / (12 # 1)))%Q.

(** The body of the loop of [renderNote] at sample [i]. *)
Definition noteSample (frequency vol : Q) (wave : Waveform) (sampleRate : Z)
           (numSamples : Z) (i : Z) : Q :=
  let t := (inject_Z i / inject_Z sampleRate)%Q in
  let phase := rem1 (frequency * t)%Q in
  let sample :=
    match wave with
    | square => if negb (Qle_bool (1 # 2) phase) then 1%Q else (- (1 # 1))%Q
    | triangle => ((4 # 1) * Math_abs (phase - (1 # 2)) - 1)%Q
    | sawtooth => ((2 # 1) * phase - 1)%Q
    | sine => sin_turn phase
    end in
  let envelope := applyEnvelope i numSamples in
  (sample * vol * envelope)%Q.

Definition indices (n : Z) : list Z := map Z.of_nat (seq 0 (Z.to_nat n)).

Definition renderNote (n : Note) (wave : Waveform) (sampleRate : Z)
           (numSamples : Z) : result (list Q) :=
  samples <- newFloat32Array numSamples ;;
  match pitch n with
  | None => Ok samples
  | Some midi =>
      let frequency := midiToFrequency midi in
      Ok (map (noteSample frequency (volume n) wave sampleRate numSamples)
              (indices numSamples))
  end.

(** [stepSamples[i] += channelSamples[i]] for every [i]. *)
Fixpoint addInto (stepSamples channelSamples : list Q) : list Q :=
  match stepSamples, channelSamples with
  | s :: ss, c :: cs => (s + c)%Q :: addInto ss cs
  | _, _ => stepSamples
  end.

(** The loop of [renderStep] over the channels: the mix so far and the
    count of the channels whose step holds a note object. *)
Fixpoint mixChannels (chans : list Channel) (stepIndex : Z) (sampleRate : Z)
         (numSamples : Z) (stepSamples : list Q) (channelCount : Z)
  : result (list Q * Z) :=
  match chans with
  | [] => Ok (stepSamples, channelCount)
  | channel :: rest =>
      match index (steps channel) stepIndex with
      | Some (mkStep (Some n)) =>
          channelSamples <- renderNote n (waveform channel) sampleRate
                                       numSamples ;;
          mixChannels rest stepIndex sampleRate numSamples
                      (addInto stepSamples channelSamples) (channelCount + 1)
      | _ =>
          mixChannels rest stepIndex sampleRate numSamples stepSamples
                      channelCount
      end
  end.

Definition renderStep (pattern : Pattern) (stepIndex : Z)
           (options : AudioExporter.AudioExportOptions) (numSamples : Z)
  : result (list Q) :=
  stepSamples <- newFloat32Array numSamples ;;
  mixed <- mixChannels (channels pattern) stepIndex
                       (AudioExporter.sampleRate options) numSamples
                       stepSamples 0 ;;
  let (stepSamples, channelCount) := mixed in
  if channelCount >? 1
  then Ok (map (fun x => (x / inject_Z channelCount)%Q) stepSamples)
  else Ok stepSamples.

(** The inner loop of [renderPattern]: the frames of one step are copied
    from index [i] on, until the end of the output is reached. *)
Fixpoint writeFrames (samples : list Q) (audioChannels : Z)
         (currentSample : Z) (i : Z) (stepSamples : list Q) : list Q :=
  match stepSamples with
  | [] => samples
  | v :: rest =>
      let outIndex := (currentSample + i) * audioChannels in
      if outIndex >=? Z.of_nat (List.length samples) then samples
      else
        let samples :=
          if audioChannels =? 1 then store samples outIndex v
          else store (store samples outIndex v) (outIndex + 1) v in
        writeFrames samples audioChannels currentSample (i + 1) rest
  end.

(** The outer loop of [renderPattern] over the steps in [stepList]. *)
Fixpoint renderSteps (pattern : Pattern) (samples : list Q)
         (options : AudioExporter.AudioExportOptions) (samplesPerStep : Z)
         (currentSample : Z) (stepList : list Z) : result (list Q * Z) :=
  match stepList with
  | [] => Ok (samples, currentSample)
  | step :: rest =>
      stepSamples <- renderStep pattern step options samplesPerStep ;;
      let samples :=
        writeFrames samples (AudioExporter.audioChannels options)
                    currentSample 0 stepSamples in
      renderSteps pattern samples options samplesPerStep
                  (currentSample + samplesPerStep) rest
  end.

Definition renderPattern (pattern : Pattern) (samples : list Q)
           (options : AudioExporter.AudioExportOptions)
           (startSample : Z) (stepDuration : Q) : result (list Q * Z) :=
  let samplesPerStep :=
    Qfloor (stepDuration * inject_Z (AudioExporter.sampleRate options))%Q in
  renderSteps pattern samples options samplesPerStep startSample
              (indices (stepsCount pattern)).

(** The loop of [renderSamples] over the play order; an id without a
    pattern is skipped. *)
Fixpoint renderOrder (song : Song) (samples : list Q)
         (options : AudioExporter.AudioExportOptions) (stepDuration : Q)
         (currentSample : Z) (order : list string) : result (list Q) :=
  match order with
  | [] => Ok samples
  | patternId :: rest =>
      match find (fun p => String.eqb (id p) patternId) (patterns song) with
      | None =>
          renderOrder song samples options stepDuration currentSample rest
      | Some pattern =>
          rendered <- renderPattern pattern samples options currentSample
                                    stepDuration ;;
          renderOrder song (fst rendered) options stepDuration
                      (snd rendered) rest
      end
  end.

Definition renderSamples (song : Song)
           (options : AudioExporter.AudioExportOptions) (duration : Q)
  : result (list Q) :=
  let numSamples :=
    Qfloor (duration * inject_Z (AudioExporter.sampleRate options))%Q in
  samples <- newFloat32Array
               (numSamples * AudioExporter.audioChannels options) ;;
  renderOrder song samples options (getStepDuration song) 0
              (patternOrder song).

(** [export]: the bytes, the duration and the size; a throw is the
    rejection of the promise. *)
Definition export (song : Song) (options : AudioExporter.AudioExportOptions)
  : result (AudioExporter.buffer * Q * Z) :=
  let duration := AudioExporter.calculateDuration (timing song) in
  samples <- renderSamples song options duration ;;
  wavData <- AudioExporter.createWavFile samples options ;;
  Ok (wavData, duration, Z.of_nat (List.length wavData)).

End Math.

End Renderer.

(* ================================================================== *)
(** ** Synthesizer.ts *)

Module Synth.

Inductive WaveformType : Type := square | triangle | sawtooth.

Record Note : Type := mkNote {
  pitch : Z;
  duration : Q;
  volume : Q
}.

Record SynthesizerConfig : Type := mkConfig {
  waveform : WaveformType;
  attack : Q;
  release : Q
}.

(** Audio nodes are opaque and known by a number; the calls made on them
    and on the mixer callback are recorded in order. *)
Inductive audioCall : Type :=
| SetType (oscillator : nat) (w : WaveformType)
| SetFrequency (oscillator : nat) (value time : Q)
| ConnectNodes (oscillator gainNode : nat)
| ConnectToMixer (channelIndex : Z) (gainNode : nat)
| GainSetValue (gainNode : nat) (value time : Q)
| GainLinearRamp (gainNode : nat) (value time : Q)
| Start (oscillator : nat) (time : Q)
| Stop (oscillator : nat) (time : Q).

Record Voice : Type := mkVoice {
  channelIndex : Z;
  oscillator : nat;
  gain : nat;
  stopTime : Q
}.

(** The two maps in insertion order, the clock of the context, the number
    of the next node it creates and the calls made so far. *)
Record Synthesizer : Type := mkSynth {
  config : SynthesizerConfig;
  channelWaveforms : list (Z * WaveformType);
  activeVoices : list (Z * list Voice);
  currentTime : Q;
  nextNode : nat;
  calls : list audioCall
}.

Definition newSynthesizer (currentTime : Q) (config : SynthesizerConfig)
  : Synthesizer :=
  mkSynth config [] [] currentTime 0 [].

(** [Map.prototype.get] and [set]. *)
Fixpoint get {V : Type} (m : list (Z * V)) (k : Z) : option V :=
  match m with
  | [] => None
  | (k', v) :: m' => if k' =? k then Some v else get m' k
  end.

Fixpoint set {V : Type} (m : list (Z * V)) (k : Z) (v : V) : list (Z * V) :=
  match m with
  | [] => [(k, v)]
  | (k', v') :: m' => if k' =? k then (k', v) :: m' else (k', v') :: set m' k v
  end.

(** [this.activeVoices.get(channelIndex) ?? []] *)
Definition voicesOf (s : Synthesizer) (channel : Z) : list Voice :=
  match get (activeVoices s) channel with
  | Some voices => voices
  | None => []
  end.

Definition trackVoice (s : Synthesizer) (channel : Z) (voice : Voice)
  : Synthesizer :=
  mkSynth (config s) (channelWaveforms s)
          (set (activeVoices s) channel (voicesOf s channel ++ [voice]))
          (currentTime s) (nextNode s) (calls s).

(** The listener of the [ended] event of an oscillator. *)
Definition removeVoice (s : Synthesizer) (channel : Z) (osc : nat)
  : Synthesizer :=
  mkSynth (config s) (channelWaveforms s)
          (set (activeVoices s) channel
               (filter (fun v => negb (Nat.eqb (oscillator v) osc))
                       (voicesOf s channel)))
          (currentTime s) (nextNode s) (calls s).

Definition setWaveform (s : Synthesizer) (channel : Z) (w : WaveformType)
  : Synthesizer :=
  mkSynth (config s) (set (channelWaveforms s) channel w) (activeVoices s)
          (currentTime s) (nextNode s) (calls s).

(** A failing [oscillator.stop] is caught: every voice of the channel is
    asked to stop at the current time and the list is emptied. *)
Definition stopChannel (s : Synthesizer) (channel : Z) : Synthesizer :=
  mkSynth (config s) (channelWaveforms s)
          (set (activeVoices s) channel [])
          (currentTime s) (nextNode s)
          (calls s ++ map (fun v => Stop (oscillator v) (currentTime s))
                          (voicesOf s channel)).

(** [stopAll] walks the entries of the map; setting the value of a key
    that is present keeps the order of the entries. *)
Definition stopAll (s : Synthesizer) : Synthesizer :=
  mkSynth (config s) (channelWaveforms s)
          (map (fun entry => (fst entry, [])) (activeVoices s))
          (currentTime s) (nextNode s)
          (calls s ++ flat_map
                   (fun entry =>
                      map (fun v => Stop (oscillator v) (currentTime s))
                          (snd entry))
                   (activeVoices s)).

Section Math.

(** [Math.pow(2, x)] has no rational values; [connectToMixer] is the
    callback given to the constructor, which may throw.  Both are
    parameters. *)
Variable pow2 : Q -> Q.
Variable connectToMixer : Z -> nat -> option exn.

Definition midiToFrequency (midiNote : Z) : Q :=
  ((440 # 1) * pow2 ((inject_Z midiNote - (69 # 1)) / (12 # 1)))%Q.

(** [playNote]: the state it leaves and what it threw, if anything.  The
    two nodes are created first; when the callback throws nothing is
    started and no voice is tracked. *)
Definition playNote (s : Synthesizer) (channel : Z) (n : Note) (startTime : Q)
  : Synthesizer * option exn :=
  let osc := nextNode s in
  let gainNode := S (nextNode s) in
  let w := match get (channelWaveforms s) channel with
           | Some w => w
           | None => waveform (config s)
           end in
  let frequency := midiToFrequency (pitch n) in
  let calls1 :=
    calls s ++ [SetType osc w; SetFrequency osc frequency startTime;
                ConnectNodes osc gainNode] in
  match connectToMixer channel gainNode with
  | Some x =>
      (mkSynth (config s) (channelWaveforms s) (activeVoices s)
               (currentTime s) (S (S (nextNode s))) calls1, Some x)
  | None =>
      let endTime := (startTime + duration n)%Q in
      let stop := (startTime + duration n + release (config s))%Q in
      let calls2 :=
        calls1 ++ [ConnectToMixer channel gainNode;
                   GainSetValue gainNode 0 startTime;
                   GainLinearRamp gainNode (volume n)
                                  (startTime + attack (config s))%Q;
                   GainLinearRamp gainNode 0
                                  (endTime + release (config s))%Q;
                   Start osc startTime; Stop osc stop] in
      let s1 := mkSynth (config s) (channelWaveforms s) (activeVoices s)
                        (currentTime s) (S (S (nextNode s))) calls2 in
      (trackVoice s1 channel (mkVoice channel osc gainNode stop), None)
  end.

End Math.

End Synth.

(* ================================================================== *)
(** ** ChannelMixer.ts *)

Module Mixer.

Record MixerConfig : Type := mkConfig {
  maxChannels : Z;
  masterVolume : Q
}.

(** Audio nodes are opaque and known by a number.  What the mixer asks of
    them is recorded: [node.connect(channel.gainNode)] and
    [node.disconnect()]. *)
Inductive wiring : Type :=
| Connect (node : nat) (channelIndex : Z)
| Disconnect (node : nat).

(** [channels] is the [Map] from channel index to the [Set] of connected
    nodes, both in insertion order; [masterGain] is the value of the gain
    of the master node. *)
Record ChannelMixer : Type := mkMixer {
  config : MixerConfig;
  masterGain : Q;
  channels : list (Z * list nat);
  wired : list wiring
}.

(** [initializeChannels]: one empty set per index below [maxChannels]. *)
Definition initializeChannels (maxChannels : Z) : list (Z * list nat) :=
  map (fun i => (Z.of_nat i, [])) (seq 0 (Z.to_nat maxChannels)).

Definition newChannelMixer (config : MixerConfig) : ChannelMixer :=
  mkMixer config (masterVolume config)
          (initializeChannels (maxChannels config)) [].

Fixpoint get (m : list (Z * list nat)) (k : Z) : option (list nat) :=
  match m with
  | [] => None
  | (k', v) :: m' => if k' =? k then Some v else get m' k
  end.

(** Replace the value of a key that is present. *)
Fixpoint put (m : list (Z * list nat)) (k : Z) (v : list nat)
  : list (Z * list nat) :=
  match m with
  | [] => []
  | (k', v') :: m' => if k' =? k then (k', v) :: m' else (k', v') :: put m' k v
  end.

(** [Set.prototype.add] *)
Definition set_add (s : list nat) (x : nat) : list nat :=
  if existsb (Nat.eqb x) s then s else s ++ [x].

Definition isChannelAvailable (m : ChannelMixer) (channelIndex : Z) : bool :=
  (channelIndex >=? 0) && (channelIndex <? maxChannels (config m)).

(** The number of channels whose set is not empty. *)
Definition getActiveChannelCount (m : ChannelMixer) : Z :=
  fold_left
    (fun count entry =>
       if Z.of_nat (List.length (snd entry)) >? 0 then count + 1 else count)
    (channels m) 0.

Definition connectChannel (m : ChannelMixer) (channelIndex : Z) (node : nat)
  : result ChannelMixer :=
  if negb (isChannelAvailable m channelIndex)
  then Throw (Error "Channel index exceeds maximum channels")
  else
    match get (channels m) channelIndex with
    | Some nodes =>
        Ok (mkMixer (config m) (masterGain m)
                    (put (channels m) channelIndex (set_add nodes node))
                    (wired m ++ [Connect node channelIndex]))
    | None => Ok m
    end.

(** A failing [node.disconnect()] is caught: every node of the set is
    asked to disconnect and the set is cleared. *)
Definition disconnectChannel (m : ChannelMixer) (channelIndex : Z)
  : ChannelMixer :=
  match get (channels m) channelIndex with
  | Some nodes =>
      mkMixer (config m) (masterGain m)
              (put (channels m) channelIndex [])
              (wired m ++ map Disconnect nodes)
  | None => m
  end.

(** [Math.max(0, Math.min(1, volume))] *)
Definition setMasterVolume (m : ChannelMixer) (volume : Q) : ChannelMixer :=
  let clampedVolume :=
    AudioExporter.Math_max 0 (AudioExporter.Math_min 1 volume) in
  mkMixer (config m) clampedVolume (channels m) (wired m).

End Mixer.

(* ================================================================== *)
(** ** Predicates and inputs of the statements *)

Import Domain.

(** The steps of [p] are exactly [stepCount p] steps, the one at index [i]
    at position [i]. *)
Definition aligned (p : Pattern) : Prop :=
  map position (steps p) = map Z.of_nat (seq 0 (Z.to_nat (stepCount p))).

(** Patterns made by the constructor without a step array, and by the
    methods of [Pattern] from such patterns. *)
Inductive built : Pattern -> Prop :=
| built_new : forall id name n p,
    newPattern id name n None = Ok p -> built p
| built_addNoteAtStep : forall p i note p',
    built p -> addNoteAtStep p i note = Ok p' -> built p'
| built_removeNoteAtStep : forall p i ch p',
    built p -> removeNoteAtStep p i ch = Ok p' -> built p'
| built_withName : forall p newName p',
    built p -> withName p newName = Ok p' -> built p'.

(** No two notes of the step are on one channel. *)
Definition unique_channels (st : Step) : Prop :=
  NoDup (map channel (notes st)).

(** Editors opened on a pattern in which no step holds two notes of one
    channel, and what [addNote] and [removeNote] make of them. *)
Inductive edited : Editor.PatternEditor -> Prop :=
| edited_open : forall p maxChannels,
    Forall unique_channels (steps p) ->
    edited (Editor.mkEditor p maxChannels)
| edited_addNote : forall ed i ch note ed',
    edited ed -> Editor.addNote ed i ch note = Ok ed' -> edited ed'
| edited_removeNote : forall ed i ch ed',
    edited ed -> Editor.removeNote ed i ch = Ok ed' -> edited ed'.

(** The pattern of the playback tests: [stepCount] 16 over two steps. *)
Definition note_C4 : Note := mkNote "C4" 1 0.
Definition note_E4 : Note := mkNote "E4" 1 1.
Definition note_D4 : Note := mkNote "D4" 1 0.
Definition sparse_pattern : Pattern :=
  mkPattern "pattern-1" "Test Pattern" 16
            [mkStep 0 [note_C4]; mkStep 4 [note_E4]].

(** A 16-step pattern without notes, as [new Pattern('p1', 'Test', 16)]. *)
Definition empty16 : Pattern := mkPattern "p1" "Test" 16 (emptySteps 16).

(** [empty16] after [addNoteAtStep(0, C4)] and [addNoteAtStep(0, D4)], both
    notes on channel 0. *)
Definition doubled_pattern : Pattern :=
  mkPattern "p1" "Test" 16
            (mkStep 0 [note_C4; note_D4] :: tl (emptySteps 16)).

(** An editor on [empty16], then after [addNote(0, 0, C4)] and after a
    further [addNote(0, 0, D4)]. *)
Definition editor0 : Editor.PatternEditor := Editor.mkEditor empty16 4.
Definition editor1 : Editor.PatternEditor :=
  Editor.mkEditor
    (mkPattern "p1" "Test" 16 (mkStep 0 [note_C4] :: tl (emptySteps 16))) 4.
Definition editor2 : Editor.PatternEditor :=
  Editor.mkEditor
    (mkPattern "p1" "Test" 16 (mkStep 0 [note_D4] :: tl (emptySteps 16))) 4.

Import Playback.

(** The assignments of [start] before it schedules. *)
Definition restarted (pattern : Pattern) (tempo : Q) (e : Engine) : Engine :=
  let e := set_currentPattern e (Some pattern) in
  let e := set_bpm e tempo in
  let e := set_currentStep e 0 in
  let e := set_currentLoop e 0 in
  let e := set_totalLoops e (Fin 1%Q) in
  let e := set_startTime e (currentTime (audioContext e)) in
  set_state e playing.

(** The assignments of [resume] before it schedules. *)
Definition shifted (e : Engine) : Engine :=
  let pauseDuration := (currentTime (audioContext e) - pauseTime e)%Q in
  let e := set_startTime e (startTime e + pauseDuration)%Q in
  set_state e playing.

(** [e'] is [e] with [startTime] moved by [delta]: same state, patterns,
    tempo, step index, counters and callbacks.  The audio context, the
    pause mark and the timer handle are left free. *)
Definition same_playhead (delta : Q) (e e' : Engine) : Prop :=
  state e' = state e /\
  currentPattern e' = currentPattern e /\
  currentSong e' = currentSong e /\
  patternMap e' = patternMap e /\
  bpm e' = bpm e /\
  currentStep e' = currentStep e /\
  (startTime e' == startTime e + delta)%Q /\
  totalLoops e' = totalLoops e /\
  currentLoop e' = currentLoop e /\
  onCompleteCallback e' = onCompleteCallback e /\
  completions e' = completions e.

(** Two calls end the same way, on engines related by [same_playhead]. *)
Definition same_outcome (delta : Q) (o o' : outcome) : Prop :=
  match o, o' with
  | Returned e, Returned e' => same_playhead delta e e'
  | Thrown x e, Thrown x' e' => x = x' /\ same_playhead delta e e'
  | Running e, Running e' => same_playhead delta e e'
  | _, _ => False
  end.

(** A new engine on a context at time 0, and the engine after
    [start(empty16, 120)] there: step 0 is scheduled, step 1 is next. *)
Definition silence : AudioContext := mkContext 0 [].
Definition fresh_engine : Engine := newEngine silence.
Definition playing16 : Engine :=
  mkEngine silence playing (Some empty16) None [] (120 # 1) 1 0 0
           (Some (Interval 25)) (Fin 1%Q) 0 None [].

(** [playing16] when the clock reads 1.8 s: the last step of the pattern,
    due at 1.875 s, is inside the look-ahead window. *)
Definition frozen : Engine := advanceClock (18 # 10) playing16.

(** [playing16] paused at 1/16 s, with step 1 (due at 0.125 s) inside the
    window, and the clock at 1 + 1/16 s for the resume. *)
Definition paused16 : Engine :=
  advanceClock (17 # 16) (pause (advanceClock (1 # 16) playing16)).

(** [playing16] paused at once, at time 0; step 1 is outside the window. *)
Definition paused_early : Engine := pause playing16.

(** A song of two patterns played once each: pattern a plays C4 on its two
    steps, pattern b plays E4. *)
Definition pattern_a : Pattern :=
  mkPattern "a" "A" 2 [mkStep 0 [note_C4]; mkStep 1 [note_C4]].
Definition pattern_b : Pattern :=
  mkPattern "b" "B" 2 [mkStep 0 [note_E4]; mkStep 1 [note_E4]].
Definition two_pattern_song : Song :=
  mkSong "song-1" "Test Song" (120 # 1) (Fin 1%Q)
         [mkPatternEntry "a" 1; mkPatternEntry "b" 1].

(** A song without patterns. *)
Definition empty_song : Song :=
  mkSong "song-1" "Test Song" (120 # 1) (Fin 1%Q) [].

(** The steps that one entry of the play order contributes. *)
Definition stepsOf (song : AudioExporter.Song) (patternId : string) : Z :=
  match AudioExporter.findPattern song patternId with
  | Some pattern => AudioExporter.stepsCount pattern
  | None => 0
  end.

(** [song] with another play order. *)
Definition with_order (song : AudioExporter.Song) (order : list string)
  : AudioExporter.Song :=
  AudioExporter.mkSong (AudioExporter.title song) (AudioExporter.bpm song)
    (AudioExporter.channelCount song) (AudioExporter.stepsPerBeat song)
    (AudioExporter.patterns song) order.

(** The song of the exporter tests: 120 BPM, 4 steps per beat, two patterns
    of 16 steps played once each. *)
Definition export_song : AudioExporter.Song :=
  AudioExporter.mkSong "Test Song" (120 # 1) 2 (4 # 1)
    [AudioExporter.mkPattern "p1" "Pattern 1" 16;
     AudioExporter.mkPattern "p2" "Pattern 2" 16]
    ["p1"; "p2"].

(** Little-endian bytes of the low 16 and 32 bits of [v]. *)
Definition le16 (v : Z) : list Z :=
  [AudioExporter.toUint8 v; AudioExporter.toUint8 (Z.shiftr v 8)].
Definition le32 (v : Z) : list Z :=
  [AudioExporter.toUint8 v; AudioExporter.toUint8 (Z.shiftr v 8);
   AudioExporter.toUint8 (Z.shiftr v 16); AudioExporter.toUint8 (Z.shiftr v 24)].

(** The 44 bytes of the canonical PCM header, field by field. *)
Definition wav_header (riffSize channels rate byteRate blockAlign
                       bitsPerSample dataSize : Z) : list Z :=
  ([82; 73; 70; 70] ++ le32 riffSize ++ [87; 65; 86; 69]
   ++ [102; 109; 116; 32] ++ le32 16 ++ le16 1 ++ le16 channels
   ++ le32 rate ++ le32 byteRate ++ le16 blockAlign ++ le16 bitsPerSample
   ++ [100; 97; 116; 97] ++ le32 dataSize)%list.

(** The bytes stored for one sample already clamped to [-1, 1]. *)
Definition sampleBytes (bd : AudioExporter.BitDepth) (sample : Q) : list Z :=
  match bd with
  | AudioExporter.Bits8 =>
      [AudioExporter.toUint8 (Qfloor ((sample + 1) * (1275 # 10))%Q)]
  | AudioExporter.Bits16 => le16 (Qfloor (sample * (32767 # 1))%Q)
  | AudioExporter.Bits24 =>
      let val24 := Qfloor (sample * (8388607 # 1))%Q in
      [AudioExporter.toUint8 (Z.land val24 255);
       AudioExporter.toUint8 (Z.land (Z.shiftr val24 8) 255);
       AudioExporter.toUint8 (Z.land (Z.shiftr val24 16) 255)]
  | AudioExporter.Bits32 => le32 (Qfloor (sample * (2147483647 # 1))%Q)
  end.

(** The options of the exporter tests and four samples, two of them outside
    [-1, 1]. *)
Definition cd_stereo : AudioExporter.AudioExportOptions :=
  AudioExporter.mkOptions 44100 AudioExporter.Bits16 2.
Definition four_samples : list Q := [0; 1 # 2; - (2 # 1); 3 # 1]%Q.

(** A song as the constructor returns it: its own fields pass the
    constructor again. *)
Definition sound (s : Song) : Prop :=
  newSong (song_id s) (song_name s) (Domain.bpm s) (repeatCount s)
          (patternSequence s) = Ok s.

(** The index at which [splice] works. *)
Definition clamped {A : Type} (l : list A) (index : Z) : Z :=
  Z.of_nat (splice_start l index).

(** A song at 120 BPM played twice over two entries, a pattern to insert
    and a composer on the song. *)
Definition duet : Song :=
  mkSong "song-1" "Test Song" (120 # 1) (Fin (2 # 1))
         [mkPatternEntry "a" 1; mkPatternEntry "b" 1].
Definition composer0 : Composer.SongComposer := Composer.mkComposer duet.

(** The calls a client can make on a mixer, and the mixer after a list of
    them on a new one; a call that throws leaves the mixer as it was. *)
Inductive mixer_call : Type :=
| CallConnect (channelIndex : Z) (node : nat)
| CallDisconnect (channelIndex : Z)
| CallSetMasterVolume (volume : Q).

Definition mixer_step (m : Mixer.ChannelMixer) (c : mixer_call)
  : Mixer.ChannelMixer :=
  match c with
  | CallConnect i node =>
      match Mixer.connectChannel m i node with
      | Ok m' => m'
      | Throw _ => m
      end
  | CallDisconnect i => Mixer.disconnectChannel m i
  | CallSetMasterVolume v => Mixer.setMasterVolume m v
  end.

Definition mixer_after (cfg : Mixer.MixerConfig) (calls : list mixer_call)
  : Mixer.ChannelMixer :=
  fold_left mixer_step calls (Mixer.newChannelMixer cfg).

Definition quartet : Mixer.MixerConfig := Mixer.mkConfig 4 (8 # 10).

(** An entry of the table of a mixer whose set has a node. *)
Definition occupied (entry : Z * list nat) : bool :=
  negb (Nat.eqb (List.length (snd entry)) 0).

(** What every call keeps: the configuration and the keys of the table. *)
Definition mixer_inv (cfg : Mixer.MixerConfig) (m : Mixer.ChannelMixer) : Prop :=
  Mixer.config m = cfg /\
  map fst (Mixer.channels m)
  = map Z.of_nat (seq 0 (Z.to_nat (Mixer.maxChannels cfg))).

(** A sample inside full scale, and a silent one. *)
Definition full_scale (x : Q) : Prop := (- (1 # 1) <= x <= 1)%Q.
Definition silent (x : Q) : Prop := (x == 0)%Q.

(** What the renderer is given by a well-formed project: a positive tempo,
    step resolution and sample rate, and no negative count. *)
Definition renderable (song : Renderer.Song)
           (options : AudioExporter.AudioExportOptions) : Prop :=
  (0 < Renderer.bpm song)%Q /\ (0 < Renderer.stepsPerBeat song)%Q /\
  0 < AudioExporter.sampleRate options /\
  0 <= AudioExporter.audioChannels options /\
  Forall (fun p => 0 <= Renderer.stepsCount p) (Renderer.patterns song).

(** A property of every note of a song. *)
Definition every_note (ok : Renderer.Note -> Prop) (song : Renderer.Song)
  : Prop :=
  Forall
    (fun p =>
       Forall
         (fun c =>
            Forall (fun st => match Renderer.note st with
                              | Some n => ok n
                              | None => True
                              end)
                   (Renderer.steps c))
         (Renderer.channels p))
    (Renderer.patterns song).

Definition volumes_in_range (song : Renderer.Song) : Prop :=
  every_note (fun n => (0 <= Renderer.volume n <= 1)%Q) song.

Definition rests_only (song : Renderer.Song) : Prop :=
  every_note (fun n => Renderer.pitch n = None) song.

(** A two-channel pattern of two steps, a square note against a sine note
    and a rest, and the song that plays it twice. *)
Definition lead : Renderer.Channel :=
  Renderer.mkChannel Renderer.square
    [Renderer.mkStep (Some (Renderer.mkNote (Some 60) 1 (8 # 10)));
     Renderer.mkStep None].
Definition bass : Renderer.Channel :=
  Renderer.mkChannel Renderer.sine
    [Renderer.mkStep (Some (Renderer.mkNote (Some 48) 1 1));
     Renderer.mkStep (Some (Renderer.mkNote None 1 1))].
Definition riff : Renderer.Pattern :=
  Renderer.mkPattern "p1" "Riff" [lead; bass] 2.
Definition riff_song : Renderer.Song :=
  Renderer.mkSong "Riff" (120 # 1) 2 (4 # 1) [riff] ["p1"; "p1"].

(** The same with rests only. *)
Definition hush : Renderer.Pattern :=
  Renderer.mkPattern "p1" "Hush"
    [Renderer.mkChannel Renderer.square
       [Renderer.mkStep None;
        Renderer.mkStep (Some (Renderer.mkNote None 1 1))]] 2.
Definition hush_song : Renderer.Song :=
  Renderer.mkSong "Hush" (120 # 1) 1 (4 # 1) [hush] ["p1"; "missing"].

(** A low rate keeps the example small: 2 samples a step. *)
Definition lofi : AudioExporter.AudioExportOptions :=
  AudioExporter.mkOptions 16 AudioExporter.Bits16 2.

(** The number that little-endian bytes spell, and its reading as a
    two's-complement number of [width] bits. *)
Definition le_value (bytes : list Z) : Z :=
  fold_right (fun b acc => b + 256 * acc) 0 bytes.
Definition signed (width v : Z) : Z :=
  if v <? 2 ^ (width - 1) then v else v - 2 ^ width.

(** The oscillators a call has added to those of [e], each starting inside
    the look-ahead window of the clock of [e] with the fixed gain. *)
Definition in_window (e : Engine) (ev : OscillatorEvent) : Prop :=
  (startAt ev < currentTime (audioContext e) + SCHEDULE_AHEAD_TIME)%Q /\
  gain ev = (1 # 10)%Q.

Definition extends_schedule (e : Engine) (o : outcome) : Prop :=
  exists added,
    scheduled (audioContext (engineOf o))
    = scheduled (audioContext e) ++ added /\
    Forall (in_window e) added.

(** Every tracked voice of a synthesizer has an oscillator that the context
    has already created. *)
Definition known_nodes (s : Synth.Synthesizer) : Prop :=
  Forall
    (fun entry =>
       Forall (fun v => (Synth.oscillator v < Synth.nextNode s)%nat)
              (snd entry))
    (Synth.activeVoices s).

(** The first call that [playNote] on channel [k] adds to those of [s]. *)
Definition first_call (pow2 : Q -> Q) (connectToMixer : Z -> nat -> option exn)
           (s : Synth.Synthesizer) (k : Z) (n : Synth.Note) (startTime : Q)
  : option Synth.audioCall :=
  nth_error
    (Synth.calls (fst (Synth.playNote pow2 connectToMixer s k n startTime)))
    (List.length (Synth.calls s)).

(** A synthesizer of square waves with one voice on channel 0, and a mixer
    callback that refuses the channels from 4 on. *)
Definition chip : Synth.SynthesizerConfig :=
  Synth.mkConfig Synth.square (1 # 100) (5 # 100).
Definition one_voice : Synth.Synthesizer :=
  Synth.mkSynth chip [] [(0, [Synth.mkVoice 0 0 1 (1 # 1)])] 0 2 [].
Definition four_channels (channelIndex : Z) (node : nat) : option exn :=
  if channelIndex <? 4 then None
  else Some (Error "Channel index exceeds maximum channels").

(* ================================================================== *)
(** ** Arrays *)

Section Arrays.
Context {A : Type}.

Lemma index_in_range (l : list A) (i : Z) :
  0 <= i < Z.of_nat (List.length l) -> exists a, index l i = Some a.
Proof.
  intros [Hlo Hhi]. unfold index.
  destruct (i <? 0) eqn:E; [apply Z.ltb_lt in E; lia|].
  destruct (nth_error l (Z.to_nat i)) eqn:N; [eauto|].
  apply nth_error_None in N. lia.
Qed.

Lemma update_length (l : list A) (i : nat) (v : A) :
  List.length (update l i v) = List.length l.
Proof.
  revert i; induction l as [|h t IH]; intros [|i]; simpl; auto.
Qed.

Lemma nth_error_update_same (l : list A) (i : nat) (v : A) :
  (i < List.length l)%nat -> nth_error (update l i v) i = Some v.
Proof.
  revert i; induction l as [|h t IH]; intros [|i] H; simpl in *;
    try lia; auto.
  apply IH; lia.
Qed.

Lemma nth_error_update_other (l : list A) (i j : nat) (v : A) :
  i <> j -> nth_error (update l i v) j = nth_error l j.
Proof.
  revert i j; induction l as [|h t IH]; intros [|i] [|j] H; simpl;
    auto; try congruence.
Qed.

Lemma map_update {B : Type} (f : A -> B) (l : list A) (i : nat) (a v : A) :
  nth_error l i = Some a -> f v = f a -> map f (update l i v) = map f l.
Proof.
  revert i; induction l as [|h t IH]; intros [|i] H E; simpl in *;
    try discriminate.
  - injection H as ->. now rewrite E.
  - f_equal. now apply IH.
Qed.

Lemma Forall_update (P : A -> Prop) (l : list A) (i : nat) (v : A) :
  Forall P l -> P v -> Forall P (update l i v).
Proof.
  intros Hl Hv. revert i.
  induction Hl as [|h t Hh Ht IH]; intros [|i]; simpl; auto.
Qed.

End Arrays.

(* ================================================================== *)
(** ** Patterns and steps *)

Lemma index_Some_range {A : Type} (l : list A) (i : Z) (a : A) :
  index l i = Some a ->
  0 <= i /\ (Z.to_nat i < List.length l)%nat /\ nth_error l (Z.to_nat i) = Some a.
Proof.
  unfold index. destruct (i <? 0) eqn:E; [discriminate|].
  apply Z.ltb_ge in E. intros H. repeat split; auto.
  apply nth_error_Some. congruence.
Qed.

Lemma emptySteps_positions (n : Z) :
  map position (emptySteps n) = map Z.of_nat (seq 0 (Z.to_nat n)).
Proof.
  unfold emptySteps. rewrite map_map. reflexivity.
Qed.

Lemma newPattern_fields id name n l p :
  newPattern id name n l = Ok p ->
  stepCount p = n /\ 0 < n /\
  steps p = match l with Some s => s | None => emptySteps n end.
Proof.
  unfold newPattern.
  destruct (blank id); [discriminate|].
  destruct (blank name); [discriminate|].
  destruct (n <=? 0) eqn:E; [discriminate|].
  intros H; injection H as <-. simpl. apply Z.leb_gt in E. auto.
Qed.

Lemma aligned_length (p : Pattern) :
  aligned p -> List.length (steps p) = Z.to_nat (stepCount p).
Proof.
  unfold aligned. intros H.
  apply (f_equal (@List.length Z)) in H.
  now rewrite !length_map, length_seq in H.
Qed.

Lemma aligned_index (p : Pattern) (i : Z) :
  aligned p -> 0 <= i < stepCount p ->
  exists st, index (steps p) i = Some st /\ position st = i.
Proof.
  intros Ha Hi.
  destruct (index_in_range (steps p) i) as [st Hst].
  { rewrite (aligned_length p Ha). lia. }
  exists st; split; auto.
  apply index_Some_range in Hst. destruct Hst as (_ & _ & Hn).
  apply (map_nth_error position) in Hn.
  rewrite Ha in Hn.
  rewrite nth_error_map, nth_error_seq in Hn.
  destruct (Z.to_nat i <? Z.to_nat (stepCount p))%nat eqn:E.
  - simpl in Hn. injection Hn as <-. lia.
  - apply Nat.ltb_ge in E. lia.
Qed.

Lemma newStep_fields pos ns st :
  newStep pos ns = Ok st -> position st = pos /\ notes st = ns.
Proof.
  unfold newStep. destruct (pos <? 0); [discriminate|].
  intros H; injection H as <-. auto.
Qed.

Lemma aligned_update p i st st' p' :
  aligned p ->
  index (steps p) i = Some st ->
  position st' = position st ->
  newPattern (id p) (name p) (stepCount p)
             (Some (update (steps p) (Z.to_nat i) st')) = Ok p' ->
  aligned p'.
Proof.
  intros Ha Hi Hpos Hp'.
  apply newPattern_fields in Hp'. destruct Hp' as (Hc & _ & Hs).
  unfold aligned. rewrite Hc, Hs.
  apply index_Some_range in Hi. destruct Hi as (_ & _ & Hn).
  rewrite (map_update position _ _ st st' Hn Hpos). exact Ha.
Qed.

Lemma built_aligned (p : Pattern) : built p -> aligned p.
Proof.
  induction 1 as [id name n p H | p i note p' _ IH H | p i ch p' _ IH H
                 | p newName p' _ IH H].
  - apply newPattern_fields in H. destruct H as (Hc & _ & Hs).
    unfold aligned. rewrite Hc, Hs. apply emptySteps_positions.
  - unfold addNoteAtStep in H.
    destruct ((i <? 0) || (i >=? stepCount p)); [discriminate|].
    destruct (index (steps p) i) as [st|] eqn:Hi; [|discriminate].
    unfold Step_addNote in H.
    destruct (newStep (position st) (notes st ++ [note])) as [st'|] eqn:Hst;
      [|discriminate].
    simpl in H. apply newStep_fields in Hst. destruct Hst as [Hpos _].
    exact (aligned_update p i st st' p' IH Hi Hpos H).
  - unfold removeNoteAtStep in H.
    destruct ((i <? 0) || (i >=? stepCount p)); [discriminate|].
    destruct (index (steps p) i) as [st|] eqn:Hi; [|discriminate].
    unfold Step_removeNoteAtChannel in H.
    destruct (newStep (position st) _) as [st'|] eqn:Hst; [|discriminate].
    simpl in H. apply newStep_fields in Hst. destruct Hst as [Hpos _].
    exact (aligned_update p i st st' p' IH Hi Hpos H).
  - unfold withName in H. apply newPattern_fields in H.
    destruct H as (Hc & _ & Hs). unfold aligned. now rewrite Hc, Hs.
Qed.

Lemma getStep_throws_iff (p : Pattern) (pos : Z) :
  (exists x, getStep p pos = Throw x) <-> (pos < 0 \/ stepCount p <= pos).
Proof.
  unfold getStep.
  destruct (pos <? 0) eqn:E1; simpl.
  - apply Z.ltb_lt in E1. split; eauto.
  - apply Z.ltb_ge in E1.
    destruct (pos >=? stepCount p) eqn:E2.
    + apply Z.geb_le in E2. split; eauto.
    + rewrite Z.geb_leb in E2. apply Z.leb_gt in E2.
      split; [intros [x Hx]; discriminate | lia].
Qed.




(* ================================================================== *)
(** ** One note per channel *)

Lemma replaced_unique (ns : list Note) (n : Note) (ch : Z) :
  channel n = ch ->
  NoDup (map channel ns) ->
  NoDup (map channel (filter (fun m => negb (channel m =? ch)) ns ++ [n])).
Proof.
  intros Hn. induction ns as [|a ns IH]; simpl; intros Hnd.
  - constructor; [intros []|constructor].
  - inversion Hnd as [|x l Hnotin Hrest]; subst x l.
    destruct (channel a =? ch) eqn:E; simpl; [now apply IH|].
    constructor; [|now apply IH].
    rewrite map_app, in_app_iff. intros [Hin | Hin].
    + apply Hnotin. apply in_map_iff in Hin. destruct Hin as (m & Hm & Hf).
      apply filter_In in Hf. apply in_map_iff. exists m; tauto.
    + simpl in Hin. destruct Hin as [Hin | []].
      apply Z.eqb_neq in E. congruence.
Qed.

Lemma replaced_found (ns : list Note) (n : Note) (ch : Z) :
  channel n = ch ->
  find (fun m => channel m =? ch)
       (filter (fun m => negb (channel m =? ch)) ns ++ [n]) = Some n.
Proof.
  intros Hn. induction ns as [|a ns IH]; simpl.
  - now rewrite Hn, Z.eqb_refl.
  - destruct (channel a =? ch) eqn:E; simpl; [exact IH|].
    now rewrite E.
Qed.

Lemma emptySteps_unique (n : Z) : Forall unique_channels (emptySteps n).
Proof.
  unfold emptySteps. apply Forall_forall. intros st Hin.
  apply in_map_iff in Hin. destruct Hin as (i & <- & _).
  unfold unique_channels. simpl. constructor.
Qed.

Lemma filter_unique (ns : list Note) (ch : Z) :
  NoDup (map channel ns) ->
  NoDup (map channel (filter (fun m => negb (channel m =? ch)) ns)).
Proof.
  induction ns as [|a ns IH]; simpl; intros Hnd; [constructor|].
  inversion Hnd as [|x l Hnotin Hrest]; subst x l.
  destruct (channel a =? ch); simpl; [now apply IH|].
  constructor; [|now apply IH].
  intros Hin. apply Hnotin. apply in_map_iff in Hin.
  destruct Hin as (m & Hm & Hf). apply filter_In in Hf.
  apply in_map_iff. exists m; tauto.
Qed.

(** What a normal return of [PatternEditor.addNote] has done. *)
Lemma addNote_inv ed i ch note ed' :
  Editor.addNote ed i ch note = Ok ed' ->
  exists st,
    0 <= i < stepCount (Editor.currentPattern ed) /\
    index (steps (Editor.currentPattern ed)) i = Some st /\
    steps (Editor.currentPattern ed') =
      update (steps (Editor.currentPattern ed)) (Z.to_nat i)
        (mkStep (position st)
           (filter (fun m => negb (channel m =? ch)) (notes st)
            ++ [mkNote (pitch note) (duration note) ch])) /\
    stepCount (Editor.currentPattern ed') = stepCount (Editor.currentPattern ed).
Proof.
  unfold Editor.addNote, Editor.validateChannelIndex, Editor.validateStepIndex.
  destruct (ch >=? Editor.maxChannels ed); [discriminate|].
  destruct (ch <? 0) eqn:Ech; [discriminate|]. simpl.
  destruct (i >=? stepCount (Editor.currentPattern ed)) eqn:E1; [discriminate|].
  destruct (i <? 0) eqn:E2; [discriminate|]. simpl.
  unfold newNote.
  destruct (blank (pitch note)); [discriminate|].
  destruct (Qle_bool (duration note) 0); [discriminate|].
  rewrite Ech. simpl.
  unfold getStep. rewrite E2, E1. simpl.
  destruct (index (steps (Editor.currentPattern ed)) i) as [st|] eqn:Hi;
    [|discriminate].
  unfold Step_removeNoteAtChannel, Step_addNote, newStep.
  destruct (position st <? 0) eqn:E3; [discriminate|]. simpl.
  rewrite E3. simpl.
  destruct (newPattern _ _ _ _) as [p|] eqn:Hp; [|discriminate].
  simpl. intros H. injection H as <-. simpl.
  apply newPattern_fields in Hp. destruct Hp as (Hc & _ & Hs).
  exists st. rewrite Z.geb_leb in E1.
  apply Z.leb_gt in E1. apply Z.ltb_ge in E2.
  repeat split; auto.
Qed.

Lemma removeNote_inv ed i ch ed' :
  Editor.removeNote ed i ch = Ok ed' ->
  exists st,
    index (steps (Editor.currentPattern ed)) i = Some st /\
    steps (Editor.currentPattern ed') =
      update (steps (Editor.currentPattern ed)) (Z.to_nat i)
        (mkStep (position st)
           (filter (fun m => negb (channel m =? ch)) (notes st))).
Proof.
  unfold Editor.removeNote, Editor.validateChannelIndex,
    Editor.validateStepIndex.
  destruct (ch >=? Editor.maxChannels ed); [discriminate|].
  destruct (ch <? 0) eqn:Ech; [discriminate|]. simpl.
  destruct (i >=? stepCount (Editor.currentPattern ed)) eqn:E1; [discriminate|].
  destruct (i <? 0) eqn:E2; [discriminate|]. simpl.
  unfold getStep. rewrite E2, E1. simpl.
  destruct (index (steps (Editor.currentPattern ed)) i) as [st|] eqn:Hi;
    [|discriminate].
  unfold Step_removeNoteAtChannel, newStep.
  destruct (position st <? 0) eqn:E3; [discriminate|]. simpl.
  destruct (newPattern _ _ _ _) as [p|] eqn:Hp; [|discriminate].
  simpl. intros H. injection H as <-. simpl.
  apply newPattern_fields in Hp. destruct Hp as (_ & _ & Hs).
  exists st. auto.
Qed.

Lemma index_Forall {A : Type} (P : A -> Prop) (l : list A) (i : Z) (a : A) :
  Forall P l -> index l i = Some a -> P a.
Proof.
  intros HF Hi. apply index_Some_range in Hi. destruct Hi as (_ & _ & Hn).
  apply nth_error_In in Hn. rewrite Forall_forall in HF. auto.
Qed.

Lemma edited_unique (ed : Editor.PatternEditor) :
  edited ed -> Forall unique_channels (steps (Editor.currentPattern ed)).
Proof.
  induction 1 as [p maxc H | ed i ch note ed' _ IH H | ed i ch ed' _ IH H].
  - exact H.
  - apply addNote_inv in H. destruct H as (st & _ & Hi & -> & _).
    apply Forall_update; auto.
    unfold unique_channels. simpl.
    apply replaced_unique; auto.
    exact (index_Forall _ _ _ _ IH Hi).
  - apply removeNote_inv in H. destruct H as (st & Hi & ->).
    apply Forall_update; auto.
    unfold unique_channels. simpl.
    apply filter_unique.
    exact (index_Forall _ _ _ _ IH Hi).
Qed.

(** A pattern fresh from the constructor has no notes, so an editor opened
    on it qualifies. *)
Lemma fresh_edited id name n p maxChannels :
  newPattern id name n None = Ok p -> edited (Editor.mkEditor p maxChannels).
Proof.
  intros H. apply edited_open.
  apply newPattern_fields in H. destruct H as (_ & _ & ->).
  apply emptySteps_unique.
Qed.

(** [moveNote] and [clear] stay among these editors, whether [moveNote]
    returns or throws. *)
Lemma moveNote_edited ed ss sc ts tc :
  edited ed -> edited (fst (Editor.moveNote ed ss sc ts tc)).
Proof.
  intros He. unfold Editor.moveNote.
  match goal with
  | |- context [match ?r with Ok _ => _ | Throw _ => _ end] =>
      destruct r as [note|x]
  end; [|exact He].
  destruct (Editor.removeNote ed ss sc) as [ed1|x] eqn:Hr; [|exact He].
  assert (He1 : edited ed1) by (eapply edited_removeNote; eauto).
  destruct (Editor.addNote ed1 ts tc note) as [ed2|x] eqn:Ha; [|exact He1].
  simpl. eapply edited_addNote; eauto.
Qed.

Lemma clear_edited ed ed' :
  Editor.clear ed = Ok ed' -> edited ed'.
Proof.
  unfold Editor.clear.
  destruct (newPattern _ _ _ _) as [p|] eqn:Hp; [|discriminate].
  simpl. intros H. injection H as <-.
  apply edited_open.
  apply newPattern_fields in Hp. destruct Hp as (_ & _ & ->).
  apply emptySteps_unique.
Qed.




(* ================================================================== *)
(** ** The playback engine *)

(** The unit tests of the engine, replayed on the embedding. *)
Example step_duration_at_120 :
  (getStepDuration (restarted empty16 (120 # 1) fresh_engine) == 1 # 8)%Q.
Proof. reflexivity. Qed.

Example step_duration_at_140 :
  (getStepDuration (restarted empty16 (140 # 1) fresh_engine)
   == (60 # 1) / (140 # 1) / (4 # 1))%Q.
Proof. reflexivity. Qed.

Example start_then_stop :
  isPlaying playing16 = true /\
  isPlaying (stop playing16) = false /\
  getCurrentStep (stop playing16) = 0.
Proof. repeat split. Qed.

Example start_while_playing :
  start 1 empty16 (120 # 1) playing16 = Returned playing16.
Proof. reflexivity. Qed.

Example pause_then_isPaused :
  isPlaying (pause playing16) = false /\ isPaused (pause playing16) = true.
Proof. repeat split. Qed.

Example song_with_two_loops :
  getTotalLoops
    (engineOf (startSong 1 (mkSong "song-1" "Test" (120 # 1) (Fin (2 # 1)) 
                                   [mkPatternEntry "pattern-1" 1])
                         [sparse_pattern] fresh_engine))
  = Fin (2 # 1).
Proof. reflexivity. Qed.

(** Triggering the notes of a step touches the audio context only. *)
Lemma played_notes (b : bool) (t : Q) (ns : list Note) (e : Engine) :
  exists c,
    (if b then fold_left (fun e note => playNote note t e) ns e else e)
    = set_audioContext e c.
Proof.
  destruct b.
  - revert e. induction ns as [|n ns IH]; intros e; simpl.
    + exists (audioContext e). now destruct e.
    + destruct (IH (playNote n t e)) as [c Hc]. rewrite Hc.
      exists c. reflexivity.
  - exists (audioContext e). now destruct e.
Qed.

Lemma getStepDuration_pos (e : Engine) :
  (0 < bpm e)%Q -> (0 < getStepDuration e)%Q.
Proof.
  intros H. unfold getStepDuration.
  assert (0 < / bpm e)%Q by (apply Qinv_lt_0_compat; auto).
  assert (0 < / (4 # 1))%Q by reflexivity.
  unfold Qdiv. nra.
Qed.

Lemma Qltb_true (a b : Q) : (a < b)%Q -> Qltb a b = true.
Proof.
  intros H. unfold Qltb. destruct (Qle_bool b a) eqn:E; auto.
  apply Qle_bool_iff in E. lra.
Qed.

Lemma Qltb_false (a b : Q) : (b <= a)%Q -> Qltb a b = false.
Proof.
  intros H. unfold Qltb. apply Qle_bool_iff in H. now rewrite H.
Qed.

(** *** The state after the scheduling loop is never [paused] unless it
    was before. *)

Lemma stop_state (e : Engine) : state (stop e) = stopped.
Proof.
  unfold stop. destruct (scheduleInterval e); reflexivity.
Qed.

Lemma handleSongAdvance_state (e : Engine) :
  state (handleSongAdvance e) = state e \/ state (handleSongAdvance e) = stopped.
Proof.
  unfold handleSongAdvance.
  destruct (currentSong e); auto.
  destruct (int_ge _ _); auto.
  right.
  match goal with
  | |- context [onCompleteCallback ?x] => destruct (onCompleteCallback x)
  end; cbn [state set_completions]; apply stop_state.
Qed.

Lemma scheduleStep_state (e : Engine) :
  state (engineOf (scheduleStep e)) = state e \/
  state (engineOf (scheduleStep e)) = stopped.
Proof.
  unfold scheduleStep.
  destruct (currentPattern e) as [p|]; simpl; auto.
  destruct (getStep p (currentStep e)) as [[st|]|x]; simpl; auto.
  destruct (played_notes (negb (Step_isEmpty st)) (getNextNoteTime e)
                         (notes st) e) as [c ->].
  cbn [currentStep set_currentStep set_audioContext].
  destruct (currentStep e + 1 >=? stepCount p); simpl; auto.
  destruct (currentSong e) eqn:Hs; simpl; auto.
  match goal with
  | |- context [handleSongAdvance ?x] =>
      destruct (handleSongAdvance_state x) as [H | H]; rewrite H; auto
  end.
Qed.

Lemma scheduleLoop_state (fuel : nat) (u : Q) (e : Engine) :
  state (engineOf (scheduleLoop fuel u e)) = state e \/
  state (engineOf (scheduleLoop fuel u e)) = stopped.
Proof.
  revert e. induction fuel as [|fuel IH]; intros e; simpl.
  - destruct (Qltb _ _); simpl; auto.
  - destruct (Qltb _ _); simpl; auto.
    pose proof (scheduleStep_state e) as Hs.
    destruct (scheduleStep e) as [e' | x e' | e']; simpl in *; auto.
    destruct (IH e') as [H | H]; rewrite H; auto.
Qed.

Lemma schedulePlayback_state (fuel : nat) (e : Engine) :
  state (engineOf (schedulePlayback fuel e)) = state e \/
  state (engineOf (schedulePlayback fuel e)) = stopped.
Proof.
  unfold schedulePlayback, scheduleNotes.
  destruct (scheduleInterval e); simpl; auto.
  destruct (currentPattern e); simpl; auto.
  match goal with
  | |- context [scheduleLoop ?f ?u ?x] =>
      destruct (scheduleLoop_state f u x) as [H | H]; rewrite H; auto
  end.
Qed.

(** C7.  [stop] has no statement that can throw; in any state it leaves the
    engine [stopped], the playhead at 0, the loop counter at 0, the timer
    cancelled and the pattern table empty, and a second [stop] changes
    nothing more. *)
Theorem stop_idempotent (e : Engine) :
  state (stop e) = stopped /\
  currentStep (stop e) = 0 /\
  currentLoop (stop e) = 0 /\
  patternMap (stop e) = [] /\
  scheduleInterval (stop e) = None /\
  currentPattern (stop e) = None /\
  stop (stop e) = stop e.
Proof.
  destruct e as [ctx st cp cs pm b step t0 tp [tm|] tl cl cb done];
    repeat split.
Qed.



(** *** Pause and resume *)

Lemma pause_not_playing (e : Engine) : state e <> playing -> pause e = e.
Proof.
  intros H. unfold pause. destruct (state e); simpl; congruence.
Qed.

Lemma resume_not_paused (fuel : nat) (e : Engine) :
  state e <> paused -> resume fuel e = Returned e.
Proof.
  intros H. unfold resume. destruct (state e); simpl; congruence.
Qed.

Lemma scheduleLoop_idle (fuel : nat) (u : Q) (e : Engine) :
  Qltb (getNextNoteTime e) u = false -> scheduleLoop fuel u e = Returned e.
Proof.
  intros H. destruct fuel; simpl; now rewrite H.
Qed.

(** The scheduler does not see a shift of the clock and of [startTime] by
    the same amount. *)
Ltac engine_fields :=
  cbn [audioContext state currentPattern currentSong patternMap bpm
       currentStep startTime pauseTime scheduleInterval totalLoops
       currentLoop onCompleteCallback completions
       set_audioContext set_state set_currentPattern set_currentSong
       set_patternMap set_bpm set_currentStep set_startTime set_pauseTime
       set_scheduleInterval set_totalLoops set_currentLoop
       set_onCompleteCallback set_completions].

Ltac same_fields :=
  unfold same_outcome, same_playhead; engine_fields;
  repeat split; auto; congruence.

Lemma scheduleStep_shift (delta : Q) (e e' : Engine) :
  same_playhead delta e e' ->
  same_outcome delta (scheduleStep e) (scheduleStep e').
Proof.
  intros He.
  destruct He as (Hst & Hcp & Hcs & Hpm & Hb & Hstep & Ht & Htl & Hcl & Hcb
                  & Hdone).
  unfold scheduleStep. rewrite Hcp, Hstep.
  destruct (currentPattern e) as [p|] eqn:Hp; [|same_fields].
  destruct (getStep p (currentStep e)) as [[stp|]|x]; [|same_fields..].
  destruct (played_notes (negb (Step_isEmpty stp)) (getNextNoteTime e)
                         (notes stp) e) as [c ->].
  destruct (played_notes (negb (Step_isEmpty stp)) (getNextNoteTime e')
                         (notes stp) e') as [c' ->].
  cbn [currentStep set_currentStep set_audioContext currentSong].
  rewrite Hstep, Hcs.
  destruct (currentStep e + 1 >=? stepCount p); [|same_fields].
  destruct (currentSong e) as [sg|] eqn:Hsong; [|same_fields].
  unfold handleSongAdvance.
  cbn [set_currentLoop set_currentStep set_audioContext currentSong
       currentLoop totalLoops].
  rewrite Hcs, Hsong, Hcl, Htl.
  destruct (int_ge (currentLoop e + 1) (totalLoops e)); [|same_fields].
  unfold stop.
  cbn [scheduleInterval set_currentLoop set_currentStep set_audioContext].
  destruct (scheduleInterval e), (scheduleInterval e');
    cbn [onCompleteCallback set_patternMap set_currentSong set_currentPattern
         set_currentLoop set_currentStep set_state set_scheduleInterval
         set_audioContext];
    rewrite Hcb; destruct (onCompleteCallback e) eqn:Hcbe; same_fields.
Qed.

Lemma Qltb_shift (a a' u u' delta : Q) :
  (a' == a + delta)%Q -> (u' == u + delta)%Q -> Qltb a' u' = Qltb a u.
Proof.
  intros Ha Hu. destruct (Qlt_le_dec a u) as [H | H].
  - rewrite !Qltb_true; auto. lra.
  - rewrite !Qltb_false; auto. lra.
Qed.

Lemma getNextNoteTime_shift (delta : Q) (e e' : Engine) :
  same_playhead delta e e' ->
  (getNextNoteTime e' == getNextNoteTime e + delta)%Q.
Proof.
  intros (_ & _ & _ & _ & Hb & Hs & Ht & _).
  unfold getNextNoteTime, getStepDuration. rewrite Hb, Hs, Ht. ring.
Qed.

Lemma scheduleLoop_shift (delta : Q) (fuel : nat) :
  forall (u u' : Q) (e e' : Engine),
    same_playhead delta e e' -> (u' == u + delta)%Q ->
    same_outcome delta (scheduleLoop fuel u e) (scheduleLoop fuel u' e').
Proof.
  induction fuel as [|fuel IH]; intros u u' e e' He Hu; simpl;
    rewrite (Qltb_shift _ _ _ _ delta (getNextNoteTime_shift delta e e' He) Hu);
    destruct (Qltb (getNextNoteTime e) u); simpl; auto.
  pose proof (scheduleStep_shift delta e e' He) as Hs.
  destruct (scheduleStep e) as [e1 | x e1 | e1],
           (scheduleStep e') as [e1' | x' e1' | e1'];
    simpl in Hs; try contradiction; auto.
Qed.




(** *** Starting a song *)

(** C3, as the code has it.  [startSong] checks nothing: on an engine that
    is not playing and holds no pattern, a song with an empty sequence makes
    it return normally, in the state [playing], with nothing scheduled.  A
    repeat count that is zero, negative, infinite or not a number never
    reaches it, because the [Song] constructor throws on it; a positive
    count that is not an integer is accepted there. *)
Theorem startSong_unvalidated (fuel : nat) (song : Song)
        (patterns : list Pattern) (e : Engine)
        (Hs : state e <> playing) (Hn : currentPattern e = None)
        (Hseq : patternSequence song = []) :
  (exists e', startSong fuel song patterns e = Returned e' /\
              state e' = playing /\ currentSong e' = Some song /\
              audioContext e' = audioContext e) /\
  (forall id name tempo rc seq,
      le_zero rc || negb (isFinite rc) = true ->
      exists x, newSong id name tempo rc seq = Throw x) /\
  (forall id name tempo rc seq s,
      newSong id name tempo rc seq = Ok s ->
      exists q, rc = Fin q /\ (0 < q)%Q) /\
  (isInteger (Fin (3 # 2)) = false /\
   exists s, newSong "song-1" "Test Song" (120 # 1) (Fin (3 # 2)) [] = Ok s).
Proof.
  split; [|split; [|split]].
  - unfold startSong. rewrite Hseq.
    destruct (state_eqb (state e) playing) eqn:E.
    { destruct (state e); simpl in E; try discriminate. congruence. }
    unfold schedulePlayback, scheduleNotes.
    destruct e as [ctx st cp cs pm b step t0 tp tm tl cl cb done].
    simpl in Hn. subst cp.
    destruct tm; cbn; eexists; repeat split.
  - intros id name tempo rc seq Hrc. unfold newSong.
    destruct (blank id); [eauto|]. destruct (blank name); [eauto|].
    destruct (Qle_bool tempo 0); [eauto|]. rewrite Hrc. eauto.
  - intros id name tempo rc seq s. unfold newSong.
    destruct (blank id); [discriminate|]. destruct (blank name); [discriminate|].
    destruct (Qle_bool tempo 0); [discriminate|].
    destruct rc as [q| | |]; simpl; try discriminate.
    destruct (Qle_bool q 0) eqn:E; simpl; [discriminate|].
    intros _. exists q. split; auto.
    destruct (Qlt_le_dec 0 q) as [H | H]; auto.
    apply Qle_bool_iff in H. congruence.
  - split; [reflexivity|]. eexists. reflexivity.
Qed.

Lemma startSong_unvalidated_witness :
  patternSequence empty_song = [] /\
  exists e', startSong 0 empty_song [] fresh_engine = Returned e' /\
             state e' = playing /\ currentSong e' = Some empty_song /\
             audioContext e' = audioContext fresh_engine.
Proof.
  split; [reflexivity|].
  apply (startSong_unvalidated 0 empty_song [] fresh_engine);
    [discriminate | reflexivity | reflexivity].
Defined.

(** C3 as stated fails: the empty song of the constructor is accepted by
    [startSong], which returns with the engine playing. *)
Lemma startSong_empty_counterexample :
  newSong "song-1" "Test Song" (120 # 1) (Fin 1%Q) [] = Ok empty_song /\
  Song_isEmpty empty_song = true /\
  startSong 0 empty_song [] fresh_engine
  = Returned (mkEngine silence playing None (Some empty_song) [] (120 # 1)
                       0 0 0 (Some (Interval 25)) (Fin 1%Q) 0 None []) /\
  isPlaying (engineOf (startSong 0 empty_song [] fresh_engine)) = true.
Proof.
  repeat split.
Qed.

(** *** The scheduling loop of a standalone pattern *)

Lemma scheduleStep_standalone (p : Pattern) (e : Engine) :
  aligned p ->
  currentPattern e = Some p ->
  currentSong e = None ->
  0 <= currentStep e < stepCount p ->
  exists e',
    scheduleStep e = Returned e' /\
    currentPattern e' = Some p /\ currentSong e' = None /\
    0 <= currentStep e' < stepCount p /\
    bpm e' = bpm e /\ startTime e' = startTime e.
Proof.
  intros Ha Hcp Hsong Hcs.
  destruct (aligned_index p (currentStep e) Ha Hcs) as (st & Hst & _).
  unfold scheduleStep. rewrite Hcp.
  unfold getStep.
  destruct (currentStep e <? 0) eqn:E1; [apply Z.ltb_lt in E1; lia|].
  destruct (currentStep e >=? stepCount p) eqn:E2; [apply Z.geb_le in E2; lia|].
  cbn [orb]. rewrite Hst.
  destruct (played_notes (negb (Step_isEmpty st)) (getNextNoteTime e)
                         (notes st) e) as [c ->].
  cbn [currentStep set_currentStep set_audioContext currentSong].
  rewrite Hsong.
  destruct (currentStep e + 1 >=? stepCount p) eqn:E3.
  - eexists. split; [reflexivity|].
    simpl. repeat split; auto; lia.
  - rewrite Z.geb_leb in E3. apply Z.leb_gt in E3.
    eexists. split; [reflexivity|].
    simpl. repeat split; auto; lia.
Qed.

(** Once the last step of a standalone pattern is inside the window, the
    loop condition holds at every step of the pattern, before and after the
    wrap to step 0: no amount of fuel ends the loop. *)
Lemma scheduleLoop_no_exit (p : Pattern) (u : Q) (fuel : nat) :
  aligned p ->
  forall e,
    currentPattern e = Some p ->
    currentSong e = None ->
    0 <= currentStep e < stepCount p ->
    (0 < bpm e)%Q ->
    (startTime e + inject_Z (stepCount p - 1) * getStepDuration e < u)%Q ->
    exists e', scheduleLoop fuel u e = Running e'.
Proof.
  intros Ha. induction fuel as [|fuel IH]; intros e Hcp Hsong Hcs Hb Hu.
  - assert (Hc : Qltb (getNextNoteTime e) u = true).
    { apply Qltb_true. unfold getNextNoteTime.
      pose proof (getStepDuration_pos e Hb) as Hd.
      assert (inject_Z (currentStep e) <= inject_Z (stepCount p - 1))%Q
        by (rewrite <- Zle_Qle; lia).
      nra. }
    simpl. rewrite Hc. eauto.
  - assert (Hc : Qltb (getNextNoteTime e) u = true).
    { apply Qltb_true. unfold getNextNoteTime.
      pose proof (getStepDuration_pos e Hb) as Hd.
      assert (inject_Z (currentStep e) <= inject_Z (stepCount p - 1))%Q
        by (rewrite <- Zle_Qle; lia).
      nra. }
    simpl. rewrite Hc.
    destruct (scheduleStep_standalone p e Ha Hcp Hsong Hcs)
      as (e' & -> & Hcp' & Hsong' & Hcs' & Hb' & Ht').
    apply IH; auto.
    + now rewrite Hb'.
    + unfold getStepDuration in *. now rewrite Hb', Ht'.
Qed.

(** C1 on the code.  [empty16] is started at 120 BPM at time 0; when the
    clock reads 1.8 s the timer callback runs the scheduler.  Whatever the
    number of iterations allowed, the [while] loop is still running when
    they are spent: nothing bounds it, and after the wrap to step 0 the
    next note time is [startTime] again. *)
Theorem scheduler_freezes (fuel : nat) :
  start 1 empty16 (120 # 1) fresh_engine = Returned playing16 /\
  frozen = advanceClock (18 # 10) playing16 /\
  exists e', tick fuel frozen = Running e'.
Proof.
  split; [reflexivity|]. split; [reflexivity|].
  unfold tick, scheduleNotes. cbn [frozen].
  change (state frozen) with playing.
  change (currentPattern frozen) with (Some empty16).
  cbn [state_eqb negb orb].
  apply (scheduleLoop_no_exit empty16); try reflexivity.
  simpl. lia.
Qed.

(** *** Song playback *)

Lemma stop_currentPattern (e : Engine) : currentPattern (stop e) = None.
Proof.
  unfold stop. destruct (scheduleInterval e); reflexivity.
Qed.

Lemma handleSongAdvance_pattern (e : Engine) :
  currentPattern (handleSongAdvance e) = currentPattern e \/
  currentPattern (handleSongAdvance e) = None.
Proof.
  unfold handleSongAdvance.
  destruct (currentSong e); auto.
  destruct (int_ge _ _); auto.
  right.
  match goal with
  | |- context [onCompleteCallback ?x] => destruct (onCompleteCallback x)
  end; cbn [currentPattern set_completions]; apply stop_currentPattern.
Qed.

Lemma scheduleStep_pattern (e : Engine) :
  currentPattern (engineOf (scheduleStep e)) = currentPattern e \/
  currentPattern (engineOf (scheduleStep e)) = None.
Proof.
  unfold scheduleStep.
  destruct (currentPattern e) as [p|] eqn:Hcp; simpl; auto.
  destruct (getStep p (currentStep e)) as [[st|]|x]; simpl; auto.
  destruct (played_notes (negb (Step_isEmpty st)) (getNextNoteTime e)
                         (notes st) e) as [c ->].
  cbn [currentStep set_currentStep set_audioContext].
  destruct (currentStep e + 1 >=? stepCount p); simpl; auto.
  destruct (currentSong e) eqn:Hs; simpl; auto.
  match goal with
  | |- context [handleSongAdvance ?x] =>
      destruct (handleSongAdvance_pattern x) as [H | H]; rewrite H; auto
  end.
Qed.

(** The scheduler never installs another pattern: after any number of
    iterations the current pattern is the one it started with, or none. *)
Lemma scheduleLoop_pattern (fuel : nat) (u : Q) (e : Engine) :
  currentPattern (engineOf (scheduleLoop fuel u e)) = currentPattern e \/
  currentPattern (engineOf (scheduleLoop fuel u e)) = None.
Proof.
  revert e. induction fuel as [|fuel IH]; intros e; simpl.
  - destruct (Qltb _ _); simpl; auto.
  - destruct (Qltb _ _); simpl; auto.
    pose proof (scheduleStep_pattern e) as Hs.
    destruct (scheduleStep e) as [e' | x e' | e']; simpl in *; auto.
    destruct (IH e') as [H | H]; rewrite H; auto.
Qed.

(** C2 on the code.  The song plays pattern a then pattern b, once each,
    one time through; callback 7 is registered.  [startSong] at time 0
    schedules step 0 of pattern a.  At the tick at 0.05 s step 1 of
    pattern a is scheduled, the step counter wraps, [handleSongAdvance]
    counts one song loop, finds the song complete, stops the engine and
    calls the callback; the loop then goes on against the cleared pattern
    and throws.  Pattern b (E4, 329.63 Hz) is never scheduled: the two
    oscillators are those of pattern a (C4, 261.63 Hz). *)
Theorem song_plays_first_pattern_only :
  let e0 := onComplete 7%nat fresh_engine in
  let o1 := startSong 1 two_pattern_song [pattern_a; pattern_b] e0 in
  let o2 := tick 2 (advanceClock (1 # 20) (engineOf o1)) in
  (exists e1, o1 = Returned e1 /\
              currentPattern e1 = Some pattern_a /\
              currentStep e1 = 1 /\ currentLoop e1 = 0 /\
              map frequency (scheduled (audioContext e1)) = [(26163 # 100)%Q]) /\
  (exists e2, o2 = Thrown (TypeError "getStep of null") e2 /\
              state e2 = stopped /\
              completions e2 = [7%nat] /\
              scheduleInterval e2 = None /\
              map frequency (scheduled (audioContext e2))
              = [(26163 # 100)%Q; (26163 # 100)%Q]) /\
  (forall fuel u e,
      currentPattern (engineOf (scheduleLoop fuel u e)) = currentPattern e \/
      currentPattern (engineOf (scheduleLoop fuel u e)) = None).
Proof.
  cbv zeta. split; [|split].
  - eexists. split; [vm_compute; reflexivity|]. repeat split.
  - eexists. split; [vm_compute; reflexivity|]. repeat split.
  - apply scheduleLoop_pattern.
Qed.

(* ================================================================== *)
(** ** The exporter: duration *)

Lemma fold_total (f : string -> Z) (order : list string) (a : Z) :
  fold_left (fun total patternId => total + f patternId) order a
  = a + fold_right Z.add 0 (map f order).
Proof.
  revert a. induction order as [|x order IH]; intros a; simpl.
  - lia.
  - rewrite IH. lia.
Qed.

Lemma getTotalSteps_sum (song : AudioExporter.Song) :
  AudioExporter.getTotalSteps song
  = fold_right Z.add 0 (map (stepsOf song) (AudioExporter.patternOrder song)).
Proof.
  unfold AudioExporter.getTotalSteps.
  change (fun total patternId =>
            total + match AudioExporter.findPattern song patternId with
                    | Some pattern => AudioExporter.stepsCount pattern
                    | None => 0
                    end)
    with (fun total patternId => total + stepsOf song patternId).
  now rewrite fold_total.
Qed.

Lemma stepsOf_with_order (song : AudioExporter.Song) (order : list string) :
  stepsOf (with_order song order) = stepsOf song.
Proof. reflexivity. Qed.

Lemma getTotalSteps_repeated (song : AudioExporter.Song)
      (order : list string) (k : nat) :
  AudioExporter.getTotalSteps (with_order song (List.concat (List.repeat order k)))
  = Z.of_nat k * AudioExporter.getTotalSteps (with_order song order).
Proof.
  rewrite !getTotalSteps_sum, !stepsOf_with_order.
  cbn [AudioExporter.patternOrder with_order].
  induction k as [|k IH].
  - reflexivity.
  - cbn [List.repeat List.concat]. rewrite map_app, fold_right_app.
    rewrite <- (Z.add_0_r (fold_right Z.add 0 (map (stepsOf song) (List.concat _)))) in IH.
    assert (Hacc : forall l a, fold_right Z.add a l = fold_right Z.add 0 l + a).
    { induction l as [|x l IHl]; intros a; simpl; [lia|]. rewrite IHl. lia. }
    rewrite Hacc. rewrite Z.add_0_r in IH. rewrite IH. lia.
Qed.


(* ================================================================== *)
(** ** The exporter: WAV layout *)

Lemma le16_value (v : Z) :
  0 <= v < 65536 ->
  AudioExporter.toUint8 v + 256 * AudioExporter.toUint8 (Z.shiftr v 8) = v.
Proof.
  intros H. unfold AudioExporter.toUint8.
  rewrite Z.shiftr_div_pow2 by lia. change (2 ^ 8) with 256.
  Z.div_mod_to_equations. lia.
Qed.

Lemma le32_value (v : Z) :
  0 <= v < 4294967296 ->
  AudioExporter.toUint8 v + 256 * AudioExporter.toUint8 (Z.shiftr v 8)
  + 65536 * AudioExporter.toUint8 (Z.shiftr v 16)
  + 16777216 * AudioExporter.toUint8 (Z.shiftr v 24) = v.
Proof.
  intros H. unfold AudioExporter.toUint8.
  rewrite !Z.shiftr_div_pow2 by lia.
  change (2 ^ 8) with 256. change (2 ^ 16) with 65536.
  change (2 ^ 24) with 16777216.
  Z.div_mod_to_equations. lia.
Qed.

(** The header stores, run on a buffer of at least 44 bytes, write the 44
    header bytes and leave the rest. *)
Lemma header_stores (d : AudioExporter.buffer)
      (riffSize channels rate byteRate blockAlign bitsPerSample dataSize : Z)
      (k : AudioExporter.buffer -> result AudioExporter.buffer) :
  (view <- AudioExporter.writeString (List.repeat 0 44 ++ d)%list 0 "RIFF" ;;
   view <- AudioExporter.setUint32 view 4 riffSize ;;
   view <- AudioExporter.writeString view 8 "WAVE" ;;
   view <- AudioExporter.writeString view 12 "fmt " ;;
   view <- AudioExporter.setUint32 view 16 16 ;;
   view <- AudioExporter.setUint16 view 20 1 ;;
   view <- AudioExporter.setUint16 view 22 channels ;;
   view <- AudioExporter.setUint32 view 24 rate ;;
   view <- AudioExporter.setUint32 view 28 byteRate ;;
   view <- AudioExporter.setUint16 view 32 blockAlign ;;
   view <- AudioExporter.setUint16 view 34 bitsPerSample ;;
   view <- AudioExporter.writeString view 36 "data" ;;
   view <- AudioExporter.setUint32 view 40 dataSize ;;
   k view)
  = k (wav_header riffSize channels rate byteRate blockAlign bitsPerSample
                  dataSize ++ d)%list.
Proof. reflexivity. Qed.

(** Reading the fields back from the header bytes. *)
Lemma header_reads (d : AudioExporter.buffer)
      (riffSize channels rate byteRate blockAlign bitsPerSample dataSize : Z) :
  let view := (wav_header riffSize channels rate byteRate blockAlign
                          bitsPerSample dataSize ++ d)%list in
  let u16 v := AudioExporter.toUint8 v
               + 256 * AudioExporter.toUint8 (Z.shiftr v 8) in
  let u32 v := AudioExporter.toUint8 v
               + 256 * AudioExporter.toUint8 (Z.shiftr v 8)
               + 65536 * AudioExporter.toUint8 (Z.shiftr v 16)
               + 16777216 * AudioExporter.toUint8 (Z.shiftr v 24) in
  firstn 4 view = [82; 73; 70; 70] /\
  AudioExporter.getUint32 view 4 = Some (u32 riffSize) /\
  firstn 4 (skipn 8 view) = [87; 65; 86; 69] /\
  firstn 4 (skipn 12 view) = [102; 109; 116; 32] /\
  AudioExporter.getUint32 view 16 = Some 16 /\
  AudioExporter.getUint16 view 20 = Some 1 /\
  AudioExporter.getUint16 view 22 = Some (u16 channels) /\
  AudioExporter.getUint32 view 24 = Some (u32 rate) /\
  AudioExporter.getUint32 view 28 = Some (u32 byteRate) /\
  AudioExporter.getUint16 view 32 = Some (u16 blockAlign) /\
  AudioExporter.getUint16 view 34 = Some (u16 bitsPerSample) /\
  firstn 4 (skipn 36 view) = [100; 97; 116; 97] /\
  AudioExporter.getUint32 view 40 = Some (u32 dataSize) /\
  skipn 44 view = d.
Proof. repeat split. Qed.

Lemma poke_middle (pre : AudioExporter.buffer) (z : Z)
      (rest : AudioExporter.buffer) (v : Z) :
  AudioExporter.poke (pre ++ z :: rest) (List.length pre) v
  = Some (pre ++ v :: rest)%list.
Proof.
  induction pre as [|a pre IH]; simpl; [reflexivity|]. now rewrite IH.
Qed.

Lemma setUint8_after (pre mid : AudioExporter.buffer) (z : Z)
      (rest : AudioExporter.buffer) (v : Z) :
  AudioExporter.setUint8 (pre ++ mid ++ z :: rest)
    (Z.of_nat (List.length pre) + Z.of_nat (List.length mid)) v
  = Ok (pre ++ mid ++ AudioExporter.toUint8 v :: rest)%list.
Proof.
  unfold AudioExporter.setUint8.
  destruct (_ <? 0) eqn:E; [apply Z.ltb_lt in E; lia|].
  rewrite <- Nat2Z.inj_add, Nat2Z.id, <- length_app.
  rewrite !app_assoc. now rewrite poke_middle.
Qed.

Lemma setUint8_0 (pre : AudioExporter.buffer) (z : Z)
      (rest : AudioExporter.buffer) (v : Z) :
  AudioExporter.setUint8 (pre ++ z :: rest) (Z.of_nat (List.length pre)) v
  = Ok (pre ++ AudioExporter.toUint8 v :: rest)%list.
Proof.
  pose proof (setUint8_after pre [] z rest v) as H.
  simpl in H. now rewrite Z.add_0_r in H.
Qed.

Lemma setUint8_1 (pre : AudioExporter.buffer) (a z : Z)
      (rest : AudioExporter.buffer) (v : Z) :
  AudioExporter.setUint8 (pre ++ a :: z :: rest)
    (Z.of_nat (List.length pre) + 1) v
  = Ok (pre ++ a :: AudioExporter.toUint8 v :: rest)%list.
Proof. exact (setUint8_after pre [a] z rest v). Qed.

Lemma setUint8_2 (pre : AudioExporter.buffer) (a b z : Z)
      (rest : AudioExporter.buffer) (v : Z) :
  AudioExporter.setUint8 (pre ++ a :: b :: z :: rest)
    (Z.of_nat (List.length pre) + 2) v
  = Ok (pre ++ a :: b :: AudioExporter.toUint8 v :: rest)%list.
Proof. exact (setUint8_after pre [a; b] z rest v). Qed.

Lemma setUint8_3 (pre : AudioExporter.buffer) (a b c z : Z)
      (rest : AudioExporter.buffer) (v : Z) :
  AudioExporter.setUint8 (pre ++ a :: b :: c :: z :: rest)
    (Z.of_nat (List.length pre) + 3) v
  = Ok (pre ++ a :: b :: c :: AudioExporter.toUint8 v :: rest)%list.
Proof. exact (setUint8_after pre [a; b; c] z rest v). Qed.

Lemma sampleBytes_length (bd : AudioExporter.BitDepth) (s : Q) :
  Z.of_nat (List.length (sampleBytes bd s)) = AudioExporter.bits bd / 8.
Proof. destruct bd; reflexivity. Qed.

(** One pass of the sample loop fills the next bytes of the buffer. *)
Lemma writeSample_fill (bd : AudioExporter.BitDepth)
      (pre rest : AudioExporter.buffer) (x : Q) :
  AudioExporter.writeSample bd
    (pre ++ List.repeat 0 (Z.to_nat (AudioExporter.bits bd / 8)) ++ rest)
    (Z.of_nat (List.length pre)) x
  = Ok (pre ++ sampleBytes bd (AudioExporter.clamp x) ++ rest)%list.
Proof.
  destruct bd;
    unfold AudioExporter.writeSample, sampleBytes, le16, le32,
      AudioExporter.setInt16, AudioExporter.setInt32,
      AudioExporter.setUint16, AudioExporter.setUint32.
  - change (Z.to_nat (AudioExporter.bits AudioExporter.Bits8 / 8)) with 1%nat.
    cbn [List.repeat app]. apply setUint8_0.
  - change (Z.to_nat (AudioExporter.bits AudioExporter.Bits16 / 8)) with 2%nat.
    cbn [List.repeat app].
    rewrite setUint8_0. cbn [bind]. apply setUint8_1.
  - change (Z.to_nat (AudioExporter.bits AudioExporter.Bits24 / 8)) with 3%nat.
    cbn [List.repeat app]. cbv zeta.
    rewrite setUint8_0. cbn [bind]. rewrite setUint8_1. cbn [bind].
    apply setUint8_2.
  - change (Z.to_nat (AudioExporter.bits AudioExporter.Bits32 / 8)) with 4%nat.
    cbn [List.repeat app].
    rewrite setUint8_0. cbn [bind]. rewrite setUint8_1. cbn [bind].
    rewrite setUint8_2. cbn [bind]. apply setUint8_3.
Qed.

Lemma writeSamples_fill (bd : AudioExporter.BitDepth) (samples : list Q) :
  forall pre : AudioExporter.buffer,
    AudioExporter.writeSamples bd (AudioExporter.bits bd / 8)
      (pre ++ List.repeat 0 (List.length samples
                             * Z.to_nat (AudioExporter.bits bd / 8)))
      (Z.of_nat (List.length pre)) samples
    = Ok (pre ++ flat_map (fun x => sampleBytes bd (AudioExporter.clamp x))
                          samples)%list.
Proof.
  induction samples as [|x samples IH]; intros pre.
  - reflexivity.
  - cbn [AudioExporter.writeSamples List.length Nat.mul flat_map].
    rewrite repeat_app, writeSample_fill. cbn [bind].
    assert (Hoff : Z.of_nat (List.length pre) + AudioExporter.bits bd / 8
                   = Z.of_nat (List.length
                                 (pre ++ sampleBytes bd (AudioExporter.clamp x)))).
    { now rewrite length_app, Nat2Z.inj_add, sampleBytes_length. }
    rewrite Hoff, app_assoc, IH, <- app_assoc. reflexivity.
Qed.

Lemma clamp_range (x : Q) :
  (- (1 # 1) <= AudioExporter.clamp x /\ AudioExporter.clamp x <= 1 # 1)%Q.
Proof.
  unfold AudioExporter.clamp, AudioExporter.Math_max, AudioExporter.Math_min.
  destruct (Qle_bool (1 # 1) x) eqn:E1.
  - simpl. split; lra.
  - destruct (Qle_bool (-1 # 1) x) eqn:E2.
    + apply Qle_bool_iff in E2.
      destruct (Qlt_le_dec x (1 # 1)) as [H | H].
      * split; lra.
      * apply Qle_bool_iff in H. congruence.
    + split; lra.
Qed.

Lemma samples_length (bd : AudioExporter.BitDepth) (samples : list Q) :
  Z.of_nat (List.length
              (flat_map (fun x => sampleBytes bd (AudioExporter.clamp x)) samples))
  = Z.of_nat (List.length samples) * (AudioExporter.bits bd / 8).
Proof.
  induction samples as [|x samples IH]; [reflexivity|].
  cbn [flat_map List.length].
  rewrite length_app, Nat2Z.inj_add, IH, sampleBytes_length. lia.
Qed.

(** The whole file: the header, then the samples in order. *)
Lemma createWavFile_bytes (samples : list Q)
      (options : AudioExporter.AudioExportOptions) :
  let bd := AudioExporter.bitDepth options in
  let bps := AudioExporter.bits bd / 8 in
  let dataSize := Z.of_nat (List.length samples) * bps in
  AudioExporter.createWavFile samples options
  = Ok (wav_header (44 + dataSize - 8)
                   (AudioExporter.audioChannels options)
                   (AudioExporter.sampleRate options)
                   (AudioExporter.sampleRate options
                    * AudioExporter.audioChannels options * bps)
                   (AudioExporter.audioChannels options * bps)
                   (AudioExporter.bits bd) dataSize
        ++ flat_map (fun x => sampleBytes bd (AudioExporter.clamp x)) samples).
Proof.
  intros bd bps dataSize.
  unfold AudioExporter.createWavFile. cbv zeta.
  fold bd. fold bps. fold dataSize.
  assert (Hbuf : AudioExporter.newArrayBuffer (44 + dataSize)
                 = List.repeat 0 44
                   ++ List.repeat 0 (List.length samples * Z.to_nat bps)).
  { unfold AudioExporter.newArrayBuffer. rewrite <- repeat_app. f_equal.
    assert (0 <= bps) by (subst bps bd; destruct (AudioExporter.bitDepth options);
                          vm_compute; discriminate).
    subst dataSize.
    rewrite Z2Nat.inj_add, Z2Nat.inj_mul, Nat2Z.id by lia. reflexivity. }
  rewrite Hbuf.
  etransitivity; [apply header_stores|].
  apply (writeSamples_fill bd samples
           (wav_header (44 + dataSize - 8)
                   (AudioExporter.audioChannels options)
                   (AudioExporter.sampleRate options)
                   (AudioExporter.sampleRate options
                    * AudioExporter.audioChannels options * bps)
                   (AudioExporter.audioChannels options * bps)
                   (AudioExporter.bits bd) dataSize)).
Qed.



(* ================================================================== *)
(** ** Steps: adding, removing and looking up notes *)

Lemma find_filter_other (ns : list Note) (ch ch' : Z) :
  ch' <> ch ->
  find (fun n => channel n =? ch')
       (filter (fun n => negb (channel n =? ch)) ns)
  = find (fun n => channel n =? ch') ns.
Proof.
  intros Hne. induction ns as [|a ns IH]; simpl; [reflexivity|].
  destruct (channel a =? ch) eqn:E; simpl.
  - apply Z.eqb_eq in E.
    destruct (channel a =? ch') eqn:E'; [apply Z.eqb_eq in E'; congruence|].
    exact IH.
  - destruct (channel a =? ch'); [reflexivity|exact IH].
Qed.

Lemma find_filter_same (ns : list Note) (ch : Z) :
  find (fun n => channel n =? ch)
       (filter (fun n => negb (channel n =? ch)) ns) = None.
Proof.
  induction ns as [|a ns IH]; simpl; [reflexivity|].
  destruct (channel a =? ch) eqn:E; simpl; [exact IH|]. now rewrite E.
Qed.

Lemma existsb_find (ns : list Note) (ch : Z) :
  existsb (fun n => channel n =? ch) ns
  = match find (fun n => channel n =? ch) ns with
    | Some _ => true
    | None => false
    end.
Proof.
  induction ns as [|a ns IH]; simpl; [reflexivity|].
  destruct (channel a =? ch); simpl; auto.
Qed.

(** X1.  After [removeNoteAtChannel(ch)] the step has no note for [ch];
    its position and what is found for every other channel are as
    before.  The call returns for every step at a position that is not
    negative. *)
Theorem step_removeNoteAtChannel_lookup (s : Step) (ch : Z)
        (Hpos : 0 <= position s) :
  exists s',
    Step_removeNoteAtChannel s ch = Ok s' /\
    position s' = position s /\
    Step_hasNoteForChannel s' ch = false /\
    Step_getNoteForChannel s' ch = None /\
    forall ch', ch' <> ch ->
      Step_getNoteForChannel s' ch' = Step_getNoteForChannel s ch' /\
      Step_hasNoteForChannel s' ch' = Step_hasNoteForChannel s ch'.
Proof.
  unfold Step_removeNoteAtChannel, newStep.
  destruct (position s <? 0) eqn:E; [apply Z.ltb_lt in E; lia|].
  eexists. split; [reflexivity|].
  unfold Step_hasNoteForChannel, Step_getNoteForChannel. simpl.
  split; [reflexivity|].
  split; [rewrite existsb_find; now rewrite find_filter_same|].
  split; [apply find_filter_same|].
  intros ch' Hne. rewrite !existsb_find.
  now rewrite (find_filter_other (notes s) ch ch' Hne).
Qed.

Lemma step_removeNoteAtChannel_lookup_witness :
  exists s',
    Step_removeNoteAtChannel (mkStep 0 [note_C4; note_E4]) 0 = Ok s' /\
    Step_getNoteForChannel s' 0 = None /\
    Step_getNoteForChannel s' 1 = Some note_E4.
Proof.
  destruct (step_removeNoteAtChannel_lookup (mkStep 0 [note_C4; note_E4]) 0)
    as (s' & H & _ & _ & Hnone & Hother); [simpl; lia|].
  exists s'. split; [exact H|]. split; [exact Hnone|].
  destruct (Hother 1) as [Hg _]; [lia|]. rewrite Hg. reflexivity.
Defined.

Lemma find_app_note (ns : list Note) (n : Note) (ch : Z) :
  find (fun m => channel m =? ch) (ns ++ [n])
  = match find (fun m => channel m =? ch) ns with
    | Some old => Some old
    | None => if channel n =? ch then Some n else None
    end.
Proof.
  induction ns as [|a ns IH]; simpl; [reflexivity|].
  destruct (channel a =? ch); [reflexivity|exact IH].
Qed.



Lemma Note_equals_refl (n : Note) : Note_equals n n = true.
Proof.
  unfold Note_equals. rewrite String.eqb_refl, Z.eqb_refl.
  assert (Qeq_bool (duration n) (duration n) = true)
    by (apply Qeq_bool_iff; reflexivity).
  now rewrite H.
Qed.

Lemma filter_all_kept {A : Type} (f : A -> bool) (l : list A) :
  (forall a, In a l -> f a = true) -> filter f l = l.
Proof.
  induction l as [|a l IH]; simpl; intros H; [reflexivity|].
  rewrite (H a) by auto. f_equal. apply IH. auto.
Qed.



(* ================================================================== *)
(** ** Patterns: round trip, emptiness and bounds *)

Lemma newPattern_inv id name n l p :
  newPattern id name n l = Ok p ->
  blank id = false /\ blank name = false /\ (n <=? 0) = false /\
  p = mkPattern id name n
        match l with Some s => s | None => emptySteps n end.
Proof.
  unfold newPattern.
  destruct (blank id); [discriminate|].
  destruct (blank name); [discriminate|].
  destruct (n <=? 0); [discriminate|].
  intros H; injection H as <-. auto.
Qed.

Lemma newPattern_again id name n l p l' :
  newPattern id name n l = Ok p ->
  newPattern id name n (Some l') = Ok (mkPattern id name n l').
Proof.
  intros H. apply newPattern_inv in H. destruct H as (Hi & Hn & Hc & _).
  unfold newPattern. now rewrite Hi, Hn, Hc.
Qed.

Lemma update_update {A : Type} (l : list A) (i : nat) (a b : A) :
  update (update l i a) i b = update l i b.
Proof.
  revert i; induction l as [|h t IH]; intros [|i]; simpl; auto.
  now rewrite IH.
Qed.

Lemma update_same {A : Type} (l : list A) (i : nat) (a : A) :
  nth_error l i = Some a -> update l i a = l.
Proof.
  revert i; induction l as [|h t IH]; intros [|i] H; simpl in *;
    try discriminate.
  - now injection H as ->.
  - f_equal. now apply IH.
Qed.

Lemma index_update_same {A : Type} (l : list A) (i : Z) (a b : A) :
  index l i = Some a -> index (update l (Z.to_nat i) b) i = Some b.
Proof.
  intros H. apply index_Some_range in H. destruct H as (H0 & Hlt & _).
  unfold index. destruct (i <? 0) eqn:E; [apply Z.ltb_lt in E; lia|].
  now apply nth_error_update_same.
Qed.

(** What a normal return of [addNoteAtStep] has done. *)
Lemma addNoteAtStep_inv p i note p' :
  addNoteAtStep p i note = Ok p' ->
  exists st,
    (i <? 0) || (i >=? stepCount p) = false /\
    index (steps p) i = Some st /\
    (position st <? 0) = false /\
    p' = mkPattern (id p) (name p) (stepCount p)
           (update (steps p) (Z.to_nat i)
                   (mkStep (position st) (notes st ++ [note]))).
Proof.
  unfold addNoteAtStep.
  destruct ((i <? 0) || (i >=? stepCount p)) eqn:Hb; [discriminate|].
  destruct (index (steps p) i) as [st|] eqn:Hi; [|discriminate].
  unfold Step_addNote, newStep.
  destruct (position st <? 0) eqn:E; [discriminate|]. simpl.
  intros H. apply newPattern_inv in H. destruct H as (_ & _ & _ & ->).
  exists st. auto.
Qed.



Lemma built_valid (p : Pattern) :
  built p ->
  blank (id p) = false /\ blank (name p) = false /\ (stepCount p <=? 0) = false.
Proof.
  induction 1 as [id name n p H | p i note p' _ IH H | p i ch p' _ IH H
                 | p newName p' _ IH H].
  - apply newPattern_inv in H. destruct H as (? & ? & ? & ->). auto.
  - apply addNoteAtStep_inv in H. destruct H as (st & _ & _ & _ & ->).
    exact IH.
  - unfold removeNoteAtStep in H.
    destruct ((i <? 0) || (i >=? stepCount p)); [discriminate|].
    destruct (index (steps p) i); [|discriminate].
    destruct (Step_removeNoteAtChannel s ch); [|discriminate].
    simpl in H. apply newPattern_inv in H. destruct H as (_ & _ & _ & ->).
    exact IH.
  - unfold withName in H. apply newPattern_inv in H.
    destruct H as (? & ? & ? & ->). simpl. tauto.
Qed.



Lemma forallb_emptySteps (n : Z) : forallb Step_isEmpty (emptySteps n) = true.
Proof.
  unfold emptySteps. apply forallb_forall. intros st Hin.
  apply in_map_iff in Hin. destruct Hin as (i & <- & _). reflexivity.
Qed.

Lemma forallb_update_false {A : Type} (f : A -> bool) (l : list A)
      (i : nat) (a : A) :
  (i < List.length l)%nat -> f a = false -> forallb f (update l i a) = false.
Proof.
  revert i; induction l as [|h t IH]; intros [|i] Hlt Hf; simpl in *;
    try lia.
  - now rewrite Hf.
  - rewrite IH by (auto; lia). apply andb_false_r.
Qed.

(** X6.  [isEmpty] holds of a pattern the constructor makes without a step
    array and of the pattern [PatternEditor.clear] leaves, which keeps the
    id, the name and the step count; it fails of every pattern
    [addNoteAtStep] returns. *)
Theorem pattern_isEmpty_cases (p : Pattern) (i : Z) (note : Note)
        (p' : Pattern) (Hadd : addNoteAtStep p i note = Ok p') :
  Pattern_isEmpty p' = false /\
  (forall id name n q, newPattern id name n None = Ok q ->
                       Pattern_isEmpty q = true) /\
  (forall ed ed', Editor.clear ed = Ok ed' ->
                  Editor.isEmpty ed' = true /\
                  Editor.getStepCount ed' = Editor.getStepCount ed /\
                  id (Editor.getPattern ed') = id (Editor.getPattern ed) /\
                  built (Editor.getPattern ed')).
Proof.
  split; [|split].
  - apply addNoteAtStep_inv in Hadd. destruct Hadd as (st & _ & Hi & _ & ->).
    unfold Pattern_isEmpty. simpl.
    apply index_Some_range in Hi. destruct Hi as (_ & Hlt & _).
    apply forallb_update_false; [exact Hlt|].
    unfold Step_isEmpty. simpl. rewrite length_app. simpl.
    apply Z.eqb_neq. lia.
  - intros id name n q Hq. apply newPattern_inv in Hq.
    destruct Hq as (_ & _ & _ & ->). apply forallb_emptySteps.
  - intros ed ed'. unfold Editor.clear.
    destruct (newPattern _ _ _ _) as [q|] eqn:Hq; [|discriminate].
    simpl. intros H. injection H as <-.
    pose proof Hq as Hq0. apply newPattern_inv in Hq.
    destruct Hq as (Hid & Hname & Hc & ->).
    unfold Editor.isEmpty, Editor.getStepCount, Editor.getPattern,
      Pattern_isEmpty. simpl.
    split; [apply forallb_emptySteps|]. split; [reflexivity|].
    split; [reflexivity|].
    apply (built_new (id (Editor.currentPattern ed))
                     (name (Editor.currentPattern ed))
                     (stepCount (Editor.currentPattern ed))).
    unfold newPattern. now rewrite Hid, Hname, Hc.
Qed.

Lemma pattern_isEmpty_cases_witness :
  exists p', addNoteAtStep empty16 0 note_C4 = Ok p' /\
             Pattern_isEmpty empty16 = true /\ Pattern_isEmpty p' = false.
Proof.
  eexists. split; [reflexivity|]. split; [reflexivity|].
  exact (proj1 (pattern_isEmpty_cases empty16 0 note_C4 _ eq_refl)).
Defined.

(* ================================================================== *)
(** ** Songs: the sequence operations *)

Lemma newSong_inv id name tempo rc seq s :
  newSong id name tempo rc seq = Ok s ->
  blank id = false /\ blank name = false /\ Qle_bool tempo 0 = false /\
  le_zero rc || negb (isFinite rc) = false /\
  s = mkSong id name tempo rc seq.
Proof.
  unfold newSong.
  destruct (blank id); [discriminate|].
  destruct (blank name); [discriminate|].
  destruct (Qle_bool tempo 0); [discriminate|].
  destruct (le_zero rc || negb (isFinite rc)); [discriminate|].
  intros H; injection H as <-. auto.
Qed.

Lemma newSong_again id name tempo rc seq s seq' :
  newSong id name tempo rc seq = Ok s ->
  newSong id name tempo rc seq' = Ok (mkSong id name tempo rc seq').
Proof.
  intros H. apply newSong_inv in H. destruct H as (Hi & Hn & Hb & Hr & _).
  unfold newSong. now rewrite Hi, Hn, Hb, Hr.
Qed.

Lemma newSong_sound id name tempo rc seq s :
  newSong id name tempo rc seq = Ok s -> sound s.
Proof.
  intros H. pose proof H as H0. apply newSong_inv in H.
  destruct H as (_ & _ & _ & _ & ->). exact H0.
Qed.

Lemma sound_again (s : Song) (seq' : list PatternEntry) :
  sound s ->
  newSong (song_id s) (song_name s) (Domain.bpm s) (repeatCount s) seq'
  = Ok (mkSong (song_id s) (song_name s) (Domain.bpm s) (repeatCount s) seq').
Proof. intros H. exact (newSong_again _ _ _ _ _ _ seq' H). Qed.

Lemma splice_start_in {A : Type} (l : list A) (i : Z) :
  0 <= i <= Z.of_nat (List.length l) -> splice_start l i = Z.to_nat i.
Proof.
  intros H. unfold splice_start.
  destruct (i <? 0) eqn:E; [apply Z.ltb_lt in E; lia|].
  f_equal. lia.
Qed.

Lemma splice_start_le {A : Type} (l : list A) (i : Z) :
  (splice_start l i <= List.length l)%nat.
Proof.
  unfold splice_start. cbv zeta.
  destruct (i <? 0) eqn:E; [apply Z.ltb_lt in E|apply Z.ltb_ge in E]; lia.
Qed.

Lemma splice_insert {A : Type} (l : list A) (i : Z) (x : A) :
  fst (splice l i 0 [x])
  = firstn (splice_start l i) l ++ x :: skipn (splice_start l i) l.
Proof. reflexivity. Qed.

Lemma firstn_prefix {A : Type} (a b : list A) :
  firstn (List.length a) (a ++ b) = a.
Proof. induction a as [|x a IH]; simpl; [reflexivity|]. now rewrite IH. Qed.

Lemma skipn_prefix {A : Type} (a b : list A) :
  skipn (List.length a) (a ++ b) = b.
Proof. induction a as [|x a IH]; simpl; auto. Qed.

Lemma splice_remove_inserted {A : Type} (l : list A) (s : nat) (x : A) :
  (s <= List.length l)%nat ->
  fst (splice (firstn s l ++ x :: skipn s l) (Z.of_nat s) 1 []) = l.
Proof.
  intros Hs. unfold splice.
  assert (Hlen : List.length (firstn s l) = s) by (rewrite length_firstn; lia).
  rewrite splice_start_in
    by (rewrite length_app, Hlen; cbn [List.length]; lia).
  rewrite Nat2Z.id. cbn [fst].
  remember (firstn s l) as a eqn:Ha.
  remember (skipn s l) as b eqn:Hb.
  rewrite <- Hlen. rewrite firstn_prefix, skipn_prefix.
  simpl. subst a b. apply firstn_skipn.
Qed.



Lemma newPatternEntry_inv pid r e :
  newPatternEntry pid r = Ok e -> e = mkPatternEntry pid r.
Proof.
  unfold newPatternEntry.
  destruct (blank pid); [discriminate|].
  destruct (r <=? 0); [discriminate|].
  intros H; now injection H as <-.
Qed.

(** X8.  [insertPatternAt(i, pattern)] with [i] between 0 and the length
    puts an entry for the pattern, repeated once, at index [i], and
    [removePatternAt(i)] then gives the song back. *)
Theorem song_insert_remove_roundtrip (s : Song) (i : Z) (pattern : Pattern)
        (s1 : Song)
        (Hi : 0 <= i <= totalPatterns s)
        (Hins : insertPatternAt s i pattern = Ok s1) :
  removePatternAt s1 i = Ok s /\
  totalPatterns s1 = totalPatterns s + 1 /\
  index (patternSequence s1) i = Some (mkPatternEntry (id pattern) 1) /\
  patternSequence s1
  = firstn (Z.to_nat i) (patternSequence s)
    ++ mkPatternEntry (id pattern) 1 :: skipn (Z.to_nat i) (patternSequence s).
Proof.
  unfold totalPatterns in *. unfold insertPatternAt in Hins.
  destruct (newPatternEntry (id pattern) 1) as [entry|] eqn:He;
    [|discriminate].
  apply newPatternEntry_inv in He. subst entry. simpl in Hins.
  pose proof Hins as Hins0. apply newSong_inv in Hins.
  destruct Hins as (_ & _ & _ & _ & ->).
  cbn [patternSequence].
  rewrite (splice_start_in _ _ Hi) in *.
  set (n := Z.to_nat i) in *.
  assert (Hn : (n <= List.length (patternSequence s))%nat) by lia.
  assert (Hlen : List.length (firstn n (patternSequence s)) = n)
    by (rewrite length_firstn; lia).
  split; [|split; [|split]].
  - unfold removePatternAt.
    cbn [patternSequence song_id song_name Domain.bpm repeatCount].
    rewrite length_app, Hlen. cbn [List.length]. rewrite length_skipn.
    destruct ((i <? 0) || _) eqn:Hb.
    { apply orb_true_iff in Hb. destruct Hb as [Hb | Hb].
      - apply Z.ltb_lt in Hb. lia.
      - apply Z.geb_le in Hb. lia. }
    replace i with (Z.of_nat n) at 1 by lia.
    rewrite (splice_remove_inserted _ n _ Hn).
    rewrite (newSong_again _ _ _ _ _ _ (patternSequence s) Hins0).
    now destruct s.
  - rewrite length_app, Hlen. simpl. rewrite length_skipn. lia.
  - unfold index. destruct (i <? 0) eqn:E; [apply Z.ltb_lt in E; lia|].
    fold n. rewrite nth_error_app2 by lia. rewrite Hlen, Nat.sub_diag.
    reflexivity.
  - reflexivity.
Qed.

Lemma song_insert_remove_roundtrip_witness :
  exists s1, insertPatternAt duet 1 pattern_a = Ok s1 /\
             removePatternAt s1 1 = Ok duet.
Proof.
  eexists. split; [reflexivity|].
  refine (proj1 (song_insert_remove_roundtrip duet 1 pattern_a _ _ eq_refl)).
  vm_compute. split; discriminate.
Defined.

(** X9.  [insertPatternAt] tests no bound: an index is served as [splice]
    clamps it, to the length when it is larger (the entry is appended, as
    by [addPattern]) and from the end when it is negative. *)
Theorem song_insert_clamps (s : Song) (i : Z) (pattern : Pattern) :
  insertPatternAt s i pattern
  = insertPatternAt s (clamped (patternSequence s) i) pattern /\
  0 <= clamped (patternSequence s) i <= totalPatterns s /\
  clamped (patternSequence s) i
  = (if i <? 0 then Z.max (totalPatterns s + i) 0
     else Z.min i (totalPatterns s)) /\
  insertPatternAt s (totalPatterns s + Z.abs i) pattern
  = Song_addPattern s pattern.
Proof.
  unfold clamped, totalPatterns.
  pose proof (splice_start_le (patternSequence s) i) as Hle.
  split; [|split; [lia|split]].
  - unfold insertPatternAt. destruct (newPatternEntry _ _); [|reflexivity].
    cbn [bind]. rewrite !splice_insert.
    rewrite (splice_start_in (patternSequence s)
               (Z.of_nat (splice_start (patternSequence s) i))) by lia.
    now rewrite Nat2Z.id.
  - unfold splice_start. cbv zeta.
    destruct (i <? 0) eqn:E; [apply Z.ltb_lt in E|apply Z.ltb_ge in E]; lia.
  - unfold insertPatternAt, Song_addPattern.
    destruct (newPatternEntry _ _); [|reflexivity]. cbn [bind].
    rewrite splice_insert.
    assert (Hst : splice_start (patternSequence s)
                    (Z.of_nat (List.length (patternSequence s)) + Z.abs i)
                  = List.length (patternSequence s)).
    { unfold splice_start. cbv zeta.
      destruct (_ <? 0) eqn:E; [apply Z.ltb_lt in E; lia|]. lia. }
    rewrite Hst, firstn_all, skipn_all. reflexivity.
Qed.

Lemma skipn_nth {A : Type} (l : list A) (n : nat) (a : A) :
  nth_error l n = Some a -> skipn n l = a :: skipn (S n) l.
Proof.
  revert n; induction l as [|h t IH]; intros [|n] H; simpl in *;
    try discriminate.
  - now injection H as ->.
  - now apply IH.
Qed.

(** What the two [splice] calls of a move make of a list. *)
Lemma move_entry {A : Type} (l : list A) (f t : Z) :
  0 <= f < Z.of_nat (List.length l) ->
  0 <= t < Z.of_nat (List.length l) ->
  exists m rest,
    splice l f 1 [] = (rest, [m]) /\
    index l f = Some m /\
    Permutation l (fst (splice rest t 0 [m])) /\
    index (fst (splice rest t 0 [m])) t = Some m.
Proof.
  intros Hf Ht.
  destruct (index_in_range l f Hf) as [m Hm].
  pose proof Hm as Hm0.
  apply index_Some_range in Hm. destruct Hm as (_ & Hlt & Hn).
  exists m, (firstn (Z.to_nat f) l ++ skipn (S (Z.to_nat f)) l).
  assert (Hsplit : l = firstn (Z.to_nat f) l ++ m :: skipn (S (Z.to_nat f)) l).
  { rewrite <- (skipn_nth _ _ _ Hn). symmetry. apply firstn_skipn. }
  split.
  { unfold splice. rewrite splice_start_in by lia.
    rewrite (skipn_nth _ _ _ Hn). reflexivity. }
  split; [exact Hm0|].
  set (rest := firstn (Z.to_nat f) l ++ skipn (S (Z.to_nat f)) l) in *.
  assert (Hrest : Z.of_nat (List.length rest) = Z.of_nat (List.length l) - 1).
  { apply (f_equal (@List.length A)) in Hsplit.
    rewrite length_app in Hsplit. cbn [List.length] in Hsplit.
    subst rest. rewrite length_app. lia. }
  rewrite splice_insert, splice_start_in by lia.
  split.
  - transitivity (m :: rest).
    + rewrite Hsplit at 1. subst rest. symmetry. apply Permutation_middle.
    + rewrite <- (firstn_skipn (Z.to_nat t) rest) at 1.
      apply Permutation_middle.
  - unfold index. destruct (t <? 0) eqn:E; [apply Z.ltb_lt in E; lia|].
    assert (Hl : List.length (firstn (Z.to_nat t) rest) = Z.to_nat t)
      by (rewrite length_firstn; lia).
    rewrite nth_error_app2 by lia. now rewrite Hl, Nat.sub_diag.
Qed.

(** X10.  [movePattern(from, to)] returns a song only for two indices
    inside the sequence; the sequence it returns is a rearrangement of the
    old one, of the same length, in which the entry that was at [from] is
    at [to]; the tempo and the repeat count are kept. *)
Theorem song_move_rearranges (s : Song) (f t : Z) (s' : Song)
        (H : movePattern s f t = Ok s') :
  0 <= f < totalPatterns s /\ 0 <= t < totalPatterns s /\
  Permutation (patternSequence s) (patternSequence s') /\
  totalPatterns s' = totalPatterns s /\
  index (patternSequence s') t = index (patternSequence s) f /\
  Domain.bpm s' = Domain.bpm s /\ repeatCount s' = repeatCount s.
Proof.
  unfold movePattern in H. unfold totalPatterns.
  destruct (_ || _) eqn:Hb; [discriminate|].
  repeat (apply orb_false_iff in Hb; destruct Hb as [Hb ?]).
  rewrite Z.geb_leb in *.
  repeat match goal with
         | H : (_ <? _) = false |- _ => apply Z.ltb_ge in H
         | H : (_ <=? _) = false |- _ => apply Z.leb_gt in H
         end.
  destruct (move_entry (patternSequence s) f t) as (m & rest & Hs & Hm & Hp & Hi);
    [lia|lia|].
  rewrite Hs in H. apply newSong_inv in H. destruct H as (_ & _ & _ & _ & ->).
  cbn [patternSequence Domain.bpm repeatCount].
  split; [lia|]. split; [lia|]. split; [exact Hp|].
  split; [now rewrite (Permutation_length Hp)|].
  split; [now rewrite Hi, Hm|]. auto.
Qed.

Lemma song_move_rearranges_witness :
  exists s', movePattern duet 0 1 = Ok s' /\
             index (patternSequence s') 1 = Some (mkPatternEntry "a" 1).
Proof.
  eexists. split; [reflexivity|].
  destruct (song_move_rearranges duet 0 1 _ eq_refl)
    as (_ & _ & _ & _ & Hi & _).
  rewrite Hi. reflexivity.
Defined.

(* ================================================================== *)
(** ** The song composer *)

Lemma sound_repeatCount (s : Song) :
  sound s -> isFinite (repeatCount s) = true /\ gt_zero (repeatCount s) = true.
Proof.
  unfold sound. intros Hs. apply newSong_inv in Hs.
  destruct Hs as (_ & _ & _ & Hr & _).
  apply orb_false_iff in Hr. destruct Hr as [Hle Hfin].
  destruct (repeatCount s) as [q| | |]; simpl in *; try discriminate.
  split; [reflexivity|]. now rewrite Hle.
Qed.

Lemma rebuilt_sound c seq :
  sound (Composer.currentSong c) ->
  Composer.rebuilt c (Domain.bpm (Composer.currentSong c))
                   (repeatCount (Composer.currentSong c)) seq
  = Ok (Composer.mkComposer
          (mkSong (song_id (Composer.currentSong c))
                  (song_name (Composer.currentSong c))
                  (Domain.bpm (Composer.currentSong c))
                  (repeatCount (Composer.currentSong c)) seq)).
Proof.
  intros Hs. unfold Composer.rebuilt. now rewrite (sound_again _ seq Hs).
Qed.

(** X11.  For a composer on a song of the constructor,
    [validateFiniteLoop] is true exactly when the sequence is not empty: it
    is false after [clear] and true after [addPattern]. *)
Theorem composer_finite_loop (c : Composer.SongComposer)
        (Hs : sound (Composer.currentSong c)) :
  Composer.validateFiniteLoop c = negb (Composer.isEmpty c) /\
  (exists c', Composer.clear c = Ok c' /\
              Composer.isEmpty c' = true /\
              Composer.validateFiniteLoop c' = false /\
              sound (Composer.currentSong c')) /\
  (forall entry,
      exists c', Composer.addPattern c entry = Ok c' /\
                 Composer.validateFiniteLoop c' = true /\
                 patternSequence (Composer.currentSong c')
                 = patternSequence (Composer.currentSong c) ++ [entry] /\
                 sound (Composer.currentSong c')).
Proof.
  destruct (sound_repeatCount _ Hs) as [Hfin Hgt].
  split; [|split].
  - unfold Composer.validateFiniteLoop, Composer.isEmpty.
    rewrite Hfin, Hgt, !andb_true_r.
    destruct (List.length _); reflexivity.
  - eexists. split; [unfold Composer.clear; now apply rebuilt_sound|].
    unfold Composer.validateFiniteLoop, Composer.isEmpty. simpl.
    repeat split. unfold sound. simpl. exact (sound_again _ [] Hs).
  - intros entry. eexists.
    split; [unfold Composer.addPattern; now apply rebuilt_sound|].
    unfold Composer.validateFiniteLoop. simpl. rewrite Hfin, Hgt.
    rewrite length_app. simpl.
    split; [|split; [reflexivity|]].
    + rewrite !andb_true_r. apply Z.gtb_lt. lia.
    + unfold sound. simpl. exact (sound_again _ _ Hs).
Qed.

Lemma composer_finite_loop_witness :
  sound (Composer.currentSong composer0) /\
  Composer.validateFiniteLoop composer0 = true /\
  exists c', Composer.clear composer0 = Ok c' /\
             Composer.validateFiniteLoop c' = false.
Proof.
  assert (Hs : sound (Composer.currentSong composer0)) by reflexivity.
  split; [exact Hs|].
  destruct (composer_finite_loop composer0 Hs)
    as (Hv & (c' & Hc & _ & Hf & _) & _).
  split; [rewrite Hv; reflexivity|]. exists c'. auto.
Defined.

(** X12.  On a composer holding a song of the constructor,
    [setRepeatCount] returns exactly for a positive finite count, which
    becomes the count of the song while the sequence and the tempo stay;
    zero and negative counts are refused by the composer, an infinite
    count and NaN by the constructor of [Song]. *)
Theorem composer_setRepeatCount (c : Composer.SongComposer) (rc : number)
        (Hs : sound (Composer.currentSong c)) :
  Composer.setRepeatCount c rc
  = match rc with
    | Fin q =>
        if Qle_bool q 0 then Throw (Error "Repeat count must be positive")
        else Ok (Composer.mkComposer
                   (mkSong (song_id (Composer.currentSong c))
                           (song_name (Composer.currentSong c))
                           (Domain.bpm (Composer.currentSong c)) (Fin q)
                           (patternSequence (Composer.currentSong c))))
    | NegInf => Throw (Error "Repeat count must be positive")
    | PosInf | NaN => Throw (Error "Repeat count must be positive and finite")
    end.
Proof.
  unfold sound in Hs. apply newSong_inv in Hs.
  destruct Hs as (Hi & Hn & Hb & _ & _).
  unfold Composer.setRepeatCount, Composer.rebuilt, newSong.
  rewrite Hi, Hn, Hb.
  destruct rc as [q| | |]; simpl; try reflexivity.
  destruct (Qle_bool q 0); reflexivity.
Qed.

Lemma composer_setRepeatCount_witness :
  sound (Composer.currentSong composer0) /\
  Composer.setRepeatCount composer0 PosInf
  = Throw (Error "Repeat count must be positive and finite").
Proof.
  split; [reflexivity|].
  exact (composer_setRepeatCount composer0 PosInf eq_refl).
Defined.

(** X13.  On a composer holding a song of the constructor,
    [insertPattern(position, entry)] returns exactly for a position
    between 0 and the length, where it puts the entry between the entries
    before and after, and [removePattern(position)] then gives the
    composer back; for any other position it throws and, unlike
    [Song.insertPatternAt], inserts nothing. *)
Theorem composer_insert_bounds (c : Composer.SongComposer) (position : Z)
        (entry : PatternEntry) (Hs : sound (Composer.currentSong c)) :
  let seq := patternSequence (Composer.currentSong c) in
  (0 <= position <= Z.of_nat (List.length seq) ->
   exists c1,
     Composer.insertPattern c position entry = Ok c1 /\
     patternSequence (Composer.currentSong c1)
     = firstn (Z.to_nat position) seq ++ entry :: skipn (Z.to_nat position) seq /\
     Composer.removePattern c1 position = Ok c) /\
  (~ 0 <= position <= Z.of_nat (List.length seq) ->
   Composer.insertPattern c position entry
   = Throw (Error "Position is out of bounds")).
Proof.
  intros seq. split.
  - intros Hpos.
    assert (Hb : (position <? 0) || (position >? Z.of_nat (List.length seq))
                 = false).
    { apply orb_false_iff. split; [apply Z.ltb_ge; lia|].
      rewrite Z.gtb_ltb. apply Z.ltb_ge. lia. }
    eexists. split; [|split].
    + unfold Composer.insertPattern. fold seq. rewrite Hb.
      now apply rebuilt_sound.
    + cbn [Composer.currentSong patternSequence]. fold seq.
      now rewrite splice_insert, (splice_start_in _ _ Hpos).
    + unfold Composer.removePattern.
      cbn [Composer.currentSong patternSequence]. fold seq.
      rewrite splice_insert, (splice_start_in _ _ Hpos).
      set (n := Z.to_nat position).
      assert (Hn : (n <= List.length seq)%nat) by lia.
      assert (Hlen : List.length (firstn n seq) = n)
        by (rewrite length_firstn; lia).
      rewrite length_app, Hlen. cbn [List.length]. rewrite length_skipn.
      clear Hb.
      destruct ((position <? 0) || (position >=? _)) eqn:Hb'.
      { apply orb_true_iff in Hb'. destruct Hb' as [Hb' | Hb'].
        - apply Z.ltb_lt in Hb'. lia.
        - apply Z.geb_le in Hb'. lia. }
      replace position with (Z.of_nat n) at 1 by lia.
      rewrite (splice_remove_inserted _ n _ Hn).
      unfold Composer.rebuilt.
      cbn [Composer.currentSong song_id song_name Domain.bpm repeatCount].
      rewrite (sound_again _ seq Hs). simpl.
      subst seq. destruct c as [[i nm b r sq]]. reflexivity.
  - intros Hpos.
    assert (Hb : (position <? 0) || (position >? Z.of_nat (List.length seq))
                 = true).
    { apply orb_true_iff.
      destruct (Z.lt_ge_cases position 0) as [H | H];
        [left; now apply Z.ltb_lt|right].
      apply Z.gtb_lt. lia. }
    unfold Composer.insertPattern. fold seq. now rewrite Hb.
Qed.

Lemma composer_insert_bounds_witness :
  sound (Composer.currentSong composer0) /\
  (exists c1, Composer.insertPattern composer0 2 (mkPatternEntry "c" 3) = Ok c1 /\
              Composer.removePattern c1 2 = Ok composer0) /\
  Composer.insertPattern composer0 3 (mkPatternEntry "c" 3)
  = Throw (Error "Position is out of bounds").
Proof.
  assert (Hs : sound (Composer.currentSong composer0)) by reflexivity.
  split; [exact Hs|]. split.
  - destruct (composer_insert_bounds composer0 2 (mkPatternEntry "c" 3) Hs)
      as [Hin _].
    destruct (Hin ltac:(simpl; lia)) as (c1 & H1 & _ & H2). exists c1. auto.
  - destruct (composer_insert_bounds composer0 3 (mkPatternEntry "c" 3) Hs)
      as [_ Hout].
    apply Hout. simpl. lia.
Defined.

(* ================================================================== *)
(** ** Channels and the mixer *)

Lemma blank_Channel (s : string) : blank ("Channel " ++ s) = false.
Proof.
  unfold blank, trim. simpl.
  destruct (trimEnd _); reflexivity.
Qed.

Lemma defaultChannelsFrom_spec (n : nat) (i : Z) (acc : list Channels.Channel) :
  0 <= i ->
  Channels.defaultChannelsFrom i n acc
  = Ok (acc ++ map (fun k => Channels.mkChannel
                               (i + Z.of_nat k)
                               ("Channel " ++ decimal (i + Z.of_nat k + 1))
                               (1 # 1)%Q)
                   (seq 0 n)).
Proof.
  revert i acc; induction n as [|n IH]; intros i acc Hi.
  - simpl. now rewrite app_nil_r.
  - cbn [Channels.defaultChannelsFrom]. unfold Channels.newChannel.
    destruct (i <? 0) eqn:E; [apply Z.ltb_lt in E; lia|].
    rewrite blank_Channel. cbn [bind negb orb Qle_bool].
    change (negb (Qle_bool 0 (1 # 1)) || negb (Qle_bool (1 # 1) 1)) with false.
    cbv beta iota. cbn [bind]. rewrite IH by lia. rewrite <- app_assoc. f_equal. f_equal.
    cbn [seq map app]. rewrite Z.add_0_r. f_equal.
    rewrite <- seq_shift, map_map. apply map_ext. intros k.
    now replace (i + 1 + Z.of_nat k) with (i + Z.of_nat (S k)) by lia.
Qed.

(** X14.  [createDefaultChannels] never throws: it returns one channel per
    index below [maxChannels], in order; the channel at index [k] has id
    [k], the name "Channel" followed by [k + 1] and volume 1, and its id is
    a valid channel of the configuration. *)
Theorem default_channels (cfg : Channels.ChannelConfig) :
  exists cs,
    Channels.createDefaultChannels cfg = Ok cs /\
    Z.of_nat (List.length cs) = Z.max 0 (Channels.maxChannels cfg) /\
    forall k, 0 <= k < Channels.maxChannels cfg ->
      index cs k = Some (Channels.mkChannel
                           k ("Channel " ++ decimal (k + 1)) (1 # 1)%Q) /\
      Channels.isValidChannel cfg k = true.
Proof.
  eexists. split; [|split].
  - unfold Channels.createDefaultChannels.
    rewrite defaultChannelsFrom_spec by lia. reflexivity.
  - cbn [app]. rewrite length_map, length_seq. lia.
  - intros k Hk. split.
    + unfold index. destruct (k <? 0) eqn:E; [apply Z.ltb_lt in E; lia|].
      cbn [app]. rewrite nth_error_map, nth_error_seq.
      destruct (Nat.ltb_spec (Z.to_nat k) (Z.to_nat (Channels.maxChannels cfg)));
        [|lia].
      cbn [option_map]. rewrite !Z.add_0_l, Nat.add_0_l, Z2Nat.id by lia.
      reflexivity.
    + unfold Channels.isValidChannel. apply andb_true_iff. split.
      * apply Z.geb_le. lia.
      * apply Z.ltb_lt. lia.
Qed.

(** The keys of the table of a mixer. *)
Lemma put_keys (m : list (Z * list nat)) (k : Z) (v : list nat) :
  map fst (Mixer.put m k v) = map fst m.
Proof.
  induction m as [|[k' v'] m IH]; simpl; [reflexivity|].
  destruct (k' =? k); simpl; [reflexivity|now rewrite IH].
Qed.

Lemma get_put_same (m : list (Z * list nat)) (k : Z) (v0 v : list nat) :
  Mixer.get m k = Some v0 -> Mixer.get (Mixer.put m k v) k = Some v.
Proof.
  induction m as [|[k' v'] m IH]; simpl; [discriminate|].
  destruct (k' =? k) eqn:E; simpl; rewrite E; auto.
Qed.

Lemma get_put_other (m : list (Z * list nat)) (k j : Z) (v : list nat) :
  k <> j -> Mixer.get (Mixer.put m k v) j = Mixer.get m j.
Proof.
  intros Hkj. induction m as [|[k' v'] m IH]; simpl; [reflexivity|].
  destruct (k' =? k) eqn:E; simpl.
  - apply Z.eqb_eq in E. subst k'.
    destruct (k =? j) eqn:E'; [apply Z.eqb_eq in E'; contradiction|reflexivity].
  - now rewrite IH.
Qed.

Lemma get_keys (m : list (Z * list nat)) (k : Z) :
  In k (map fst m) <-> exists v, Mixer.get m k = Some v.
Proof.
  induction m as [|[k' v'] m IH]; simpl.
  - split; [tauto|intros [v H]; discriminate].
  - destruct (k' =? k) eqn:E.
    + apply Z.eqb_eq in E. split; [eauto|auto].
    + apply Z.eqb_neq in E. rewrite <- IH. tauto.
Qed.

Lemma occupied_nil (k : Z) : occupied (k, []) = false.
Proof. reflexivity. Qed.

Lemma occupied_cons (k : Z) (x : nat) (l : list nat) :
  occupied (k, x :: l) = true.
Proof. reflexivity. Qed.

Lemma active_count_from (l : list (Z * list nat)) (a : Z) :
  fold_left
    (fun count entry =>
       if Z.of_nat (List.length (snd entry)) >? 0 then count + 1 else count)
    l a
  = a + Z.of_nat (List.length (filter occupied l)).
Proof.
  revert a; induction l as [|[k v] l IH]; intros a; [simpl; lia|].
  cbn [fold_left filter snd]. rewrite IH.
  destruct v as [|x v]; rewrite ?occupied_nil, ?occupied_cons.
  - reflexivity.
  - destruct (Z.of_nat (List.length (x :: v)) >? 0) eqn:E.
    + cbn [List.length]. lia.
    + rewrite Z.gtb_ltb in E. apply Z.ltb_ge in E. cbn [List.length] in E. lia.
Qed.

Lemma active_count (m : Mixer.ChannelMixer) :
  Mixer.getActiveChannelCount m
  = Z.of_nat (List.length (filter occupied (Mixer.channels m))).
Proof. unfold Mixer.getActiveChannelCount. now rewrite active_count_from. Qed.

Lemma occupied_put (m : list (Z * list nat)) (k : Z) (v0 v : list nat) :
  Mixer.get m k = Some v0 ->
  Z.of_nat (List.length (filter occupied (Mixer.put m k v)))
  = Z.of_nat (List.length (filter occupied m))
    - (if occupied (k, v0) then 1 else 0)
    + (if occupied (k, v) then 1 else 0).
Proof.
  induction m as [|[k' v'] m IH]; simpl; [discriminate|].
  destruct (k' =? k) eqn:E; simpl.
  - intros H; injection H as ->.
    destruct v0, v; rewrite ?occupied_nil, ?occupied_cons; cbn [List.length];
      rewrite ?Nat2Z.inj_succ; lia.
  - intros H. specialize (IH H).
    destruct v'; rewrite ?occupied_nil, ?occupied_cons in *; cbn [List.length];
      rewrite ?Nat2Z.inj_succ; lia.
Qed.

Lemma set_add_occupied (k : Z) (s : list nat) (x : nat) :
  occupied (k, Mixer.set_add s x) = true /\ In x (Mixer.set_add s x).
Proof.
  unfold Mixer.set_add, occupied. simpl.
  destruct (existsb (Nat.eqb x) s) eqn:E.
  - apply existsb_exists in E. destruct E as (y & Hy & Hxy).
    apply Nat.eqb_eq in Hxy. subst y. split; [|exact Hy].
    destruct s; [contradiction|reflexivity].
  - split; [|apply in_or_app; right; now left].
    rewrite length_app. simpl. now rewrite Nat.add_1_r.
Qed.

Lemma mixer_step_inv cfg m c : mixer_inv cfg m -> mixer_inv cfg (mixer_step m c).
Proof.
  intros [Hc Hk]. destruct c as [i node|i|v]; simpl.
  - unfold Mixer.connectChannel.
    destruct (negb _); [split; assumption|].
    destruct (Mixer.get _ _); [|split; assumption].
    split; simpl; [assumption|now rewrite put_keys].
  - unfold Mixer.disconnectChannel.
    destruct (Mixer.get _ _); [|split; assumption].
    split; simpl; [assumption|now rewrite put_keys].
  - split; assumption.
Qed.

Lemma mixer_run_inv cfg calls m :
  mixer_inv cfg m -> mixer_inv cfg (fold_left mixer_step calls m).
Proof.
  revert m; induction calls as [|c calls IH]; intros m H; simpl; [exact H|].
  apply IH. now apply mixer_step_inv.
Qed.

Lemma mixer_after_inv cfg calls : mixer_inv cfg (mixer_after cfg calls).
Proof.
  apply mixer_run_inv. split; [reflexivity|].
  unfold Mixer.newChannelMixer, Mixer.initializeChannels. simpl.
  rewrite map_map. reflexivity.
Qed.

Lemma mixer_inv_available cfg m i :
  mixer_inv cfg m ->
  Mixer.isChannelAvailable m i = true
  <-> exists nodes, Mixer.get (Mixer.channels m) i = Some nodes.
Proof.
  intros [Hc Hk]. rewrite <- get_keys, Hk, in_map_iff.
  unfold Mixer.isChannelAvailable. rewrite Hc, andb_true_iff, Z.geb_le, Z.ltb_lt.
  split.
  - intros [H0 H1]. exists (Z.to_nat i). split; [lia|].
    apply in_seq. lia.
  - intros (k & <- & Hin). apply in_seq in Hin. lia.
Qed.

(** X15.  Whatever calls have been made on a new mixer, its table holds a
    set of nodes for exactly the available channel indices, those from 0
    below [maxChannels], and the number of active channels lies between 0
    and [maxChannels]; a new mixer has none. *)
Theorem mixer_active_bounded (cfg : Mixer.MixerConfig) (calls : list mixer_call) :
  let m := mixer_after cfg calls in
  (forall i, Mixer.isChannelAvailable m i = true
             <-> exists nodes, Mixer.get (Mixer.channels m) i = Some nodes) /\
  (forall i, Mixer.isChannelAvailable m i = true
             <-> 0 <= i < Mixer.maxChannels cfg) /\
  0 <= Mixer.getActiveChannelCount m <= Z.max 0 (Mixer.maxChannels cfg) /\
  Mixer.getActiveChannelCount (Mixer.newChannelMixer cfg) = 0.
Proof.
  intros m. pose proof (mixer_after_inv cfg calls) as Hinv. fold m in Hinv.
  split; [intros i; now apply (mixer_inv_available cfg)|].
  destruct Hinv as [Hc Hk].
  split.
  { intros i. unfold Mixer.isChannelAvailable.
    rewrite Hc, andb_true_iff, Z.geb_le, Z.ltb_lt. tauto. }
  split.
  - rewrite active_count.
    pose proof (filter_length_le occupied (Mixer.channels m)) as Hle.
    apply (f_equal (@List.length Z)) in Hk.
    rewrite !length_map, length_seq in Hk. lia.
  - rewrite active_count. unfold Mixer.newChannelMixer, Mixer.initializeChannels.
    simpl. clear. induction (seq 0 _) as [|k l IH]; simpl; [reflexivity|exact IH].
Qed.


Lemma Math_clamp01 (v : Q) :
  (0 <= AudioExporter.Math_max 0 (AudioExporter.Math_min 1 v) <= 1)%Q /\
  ((0 <= v <= 1)%Q ->
   (AudioExporter.Math_max 0 (AudioExporter.Math_min 1 v) == v)%Q).
Proof.
  unfold AudioExporter.Math_max, AudioExporter.Math_min.
  destruct (Qle_bool 1 v) eqn:E1.
  - apply Qle_bool_iff in E1.
    change (Qle_bool 0 1) with true. cbv iota.
    split; [lra|]. intros H. lra.
  - assert (H1 : (v < 1)%Q).
    { destruct (Qlt_le_dec v 1) as [H | H]; auto.
      apply Qle_bool_iff in H. congruence. }
    destruct (Qle_bool 0 v) eqn:E0.
    + apply Qle_bool_iff in E0. split; [lra|reflexivity].
    + split; [lra|]. intros H.
      assert (Qle_bool 0 v = true) by (apply Qle_bool_iff; lra). congruence.
Qed.

Lemma mixer_step_gain (m : Mixer.ChannelMixer) (c : mixer_call) :
  (0 <= Mixer.masterGain m <= 1)%Q ->
  (0 <= Mixer.masterGain (mixer_step m c) <= 1)%Q.
Proof.
  intros H. destruct c as [i node|i|v]; simpl.
  - unfold Mixer.connectChannel.
    destruct (negb _); [exact H|]. destruct (Mixer.get _ _); exact H.
  - unfold Mixer.disconnectChannel. destruct (Mixer.get _ _); exact H.
  - apply Math_clamp01.
Qed.

Lemma mixer_run_gain (calls : list mixer_call) (m : Mixer.ChannelMixer) :
  (0 <= Mixer.masterGain m <= 1)%Q ->
  (0 <= Mixer.masterGain (fold_left mixer_step calls m) <= 1)%Q.
Proof.
  revert m; induction calls as [|c calls IH]; intros m H; simpl; [exact H|].
  apply IH. now apply mixer_step_gain.
Qed.



(* ================================================================== *)
(** ** The exporter: rendering *)

Lemma store_length (samples : list Q) (i : Z) (v : Q) :
  List.length (Renderer.store samples i v) = List.length samples.
Proof.
  unfold Renderer.store. destruct (_ || _); [reflexivity|apply update_length].
Qed.

Lemma store_Forall (P : Q -> Prop) (samples : list Q) (i : Z) (v : Q) :
  Forall P samples -> P v -> Forall P (Renderer.store samples i v).
Proof.
  intros Hs Hv. unfold Renderer.store.
  destruct (_ || _); [exact Hs|now apply Forall_update].
Qed.

Lemma writeFrames_Forall (P : Q -> Prop) (stepSamples : list Q) :
  Forall P stepSamples ->
  forall samples ac cur i,
    Forall P samples ->
    Forall P (Renderer.writeFrames samples ac cur i stepSamples) /\
    List.length (Renderer.writeFrames samples ac cur i stepSamples)
    = List.length samples.
Proof.
  induction 1 as [|v rest Hv Hrest IH]; intros samples ac cur i Hs;
    cbn [Renderer.writeFrames]; [auto|].
  cbv zeta. destruct (_ >=? _); [auto|].
  destruct (ac =? 1).
  - destruct (IH (Renderer.store samples ((cur + i) * ac) v) ac cur (i + 1))
      as [Ha Hb]; [now apply store_Forall|].
    split; [exact Ha|]. now rewrite Hb, store_length.
  - destruct (IH (Renderer.store (Renderer.store samples ((cur + i) * ac) v)
                                 ((cur + i) * ac + 1) v) ac cur (i + 1))
      as [Ha Hb]; [now repeat apply store_Forall|].
    split; [exact Ha|]. now rewrite Hb, !store_length.
Qed.

Lemma indices_length (n : Z) : List.length (Renderer.indices n) = Z.to_nat n.
Proof. unfold Renderer.indices. now rewrite length_map, length_seq. Qed.

Lemma indices_range (n i : Z) : In i (Renderer.indices n) -> 0 <= i < n.
Proof.
  unfold Renderer.indices. rewrite in_map_iff.
  intros (k & <- & Hk). apply in_seq in Hk. lia.
Qed.

Lemma newFloat32Array_ok (n : Z) :
  0 <= n -> Renderer.newFloat32Array n = Ok (List.repeat 0%Q (Z.to_nat n)).
Proof.
  intros H. unfold Renderer.newFloat32Array.
  destruct (n <? 0) eqn:E; [apply Z.ltb_lt in E; lia|reflexivity].
Qed.

Lemma repeat_Forall (P : Q -> Prop) (n : nat) :
  P 0%Q -> Forall P (List.repeat 0%Q n).
Proof. intros H. induction n; simpl; auto. Qed.

Section Rendering.

Variable pow2 : Q -> Q.
Variable sin_turn : Q -> Q.

(** [N] holds of the samples of a note, [B c] of the sum of [c] of them
    and [P] of the samples of a step. *)
Variable N : Q -> Prop.
Variable B : Z -> Q -> Prop.
Variable P : Q -> Prop.
Hypothesis B_start : B 0 0%Q.
Hypothesis B_add :
  forall c s x, 0 <= c -> B c s -> N x -> B (c + 1) (s + x)%Q.
Hypothesis B_end :
  forall c x, 0 <= c -> B c x ->
              P (if c >? 1 then (x / inject_Z c)%Q else x).
Hypothesis P_zero : P 0%Q.

Lemma addInto_Forall (c : Z) (acc : list Q) :
  0 <= c ->
  Forall (B c) acc ->
  forall cs,
    List.length cs = List.length acc ->
    Forall N cs ->
    Forall (B (c + 1)) (Renderer.addInto acc cs) /\
    List.length (Renderer.addInto acc cs) = List.length acc.
Proof.
  intros Hc. induction 1 as [|s acc Hs Hacc IH]; intros cs Hlen Hcs.
  - simpl. auto.
  - destruct cs as [|x cs]; [discriminate|].
    inversion Hcs as [|x' cs' Hx Hcs']; subst. simpl in Hlen.
    destruct (IH cs) as [Ha Hb]; [lia|assumption|].
    simpl. split; [|now rewrite Hb].
    constructor; [now apply B_add|exact Ha].
Qed.

Lemma mixChannels_Forall (stepIndex sampleRate numSamples : Z)
      (chans : list Renderer.Channel) :
  (forall channel nt,
      In channel chans ->
      index (Renderer.steps channel) stepIndex
      = Some (Renderer.mkStep (Some nt)) ->
      exists cs,
        Renderer.renderNote pow2 sin_turn nt (Renderer.waveform channel)
                            sampleRate numSamples = Ok cs /\
        List.length cs = Z.to_nat numSamples /\ Forall N cs) ->
  forall acc c,
    0 <= c ->
    List.length acc = Z.to_nat numSamples ->
    Forall (B c) acc ->
    exists acc' c',
      Renderer.mixChannels pow2 sin_turn chans stepIndex sampleRate numSamples
                           acc c = Ok (acc', c') /\
      0 <= c' /\ List.length acc' = Z.to_nat numSamples /\
      Forall (B c') acc'.
Proof.
  induction chans as [|channel rest IH]; intros Hnotes acc c Hc Hlen Hacc.
  - simpl. exists acc, c. auto.
  - cbn [Renderer.mixChannels].
    assert (Hrest : forall channel0 nt,
               In channel0 rest ->
               index (Renderer.steps channel0) stepIndex
               = Some (Renderer.mkStep (Some nt)) ->
               exists cs,
                 Renderer.renderNote pow2 sin_turn nt
                   (Renderer.waveform channel0) sampleRate numSamples = Ok cs /\
                 List.length cs = Z.to_nat numSamples /\ Forall N cs)
      by (intros ch nt Hin; apply Hnotes; now right).
    destruct (index (Renderer.steps channel) stepIndex) as [[[nt|]]|] eqn:Hi;
      try (now apply IH).
    destruct (Hnotes channel nt (or_introl eq_refl) Hi) as (cs & -> & Hl & Hn).
    cbn [bind].
    destruct (addInto_Forall c acc Hc Hacc cs) as [H1 H2];
      [congruence|assumption|].
    apply IH; [assumption|lia|congruence|assumption].
Qed.

Lemma renderStep_Forall (pattern : Renderer.Pattern) (stepIndex : Z)
      (options : AudioExporter.AudioExportOptions) (numSamples : Z) :
  0 <= numSamples ->
  (forall channel nt,
      In channel (Renderer.channels pattern) ->
      index (Renderer.steps channel) stepIndex
      = Some (Renderer.mkStep (Some nt)) ->
      exists cs,
        Renderer.renderNote pow2 sin_turn nt (Renderer.waveform channel)
          (AudioExporter.sampleRate options) numSamples = Ok cs /\
        List.length cs = Z.to_nat numSamples /\ Forall N cs) ->
  exists ss,
    Renderer.renderStep pow2 sin_turn pattern stepIndex options numSamples
    = Ok ss /\
    List.length ss = Z.to_nat numSamples /\ Forall P ss.
Proof.
  intros Hn Hnotes. unfold Renderer.renderStep.
  rewrite (newFloat32Array_ok _ Hn). cbn [bind].
  destruct (mixChannels_Forall stepIndex (AudioExporter.sampleRate options)
              numSamples (Renderer.channels pattern) Hnotes
              (List.repeat 0%Q (Z.to_nat numSamples)) 0)
    as (acc & c & -> & Hc & Hl & Hacc);
    [lia|apply repeat_length|now apply repeat_Forall|].
  cbn [bind].
  assert (HP : Forall P (map (fun x => if c >? 1 then (x / inject_Z c)%Q else x)
                             acc)).
  { apply Forall_map. revert Hacc. apply Forall_impl.
    intros x Hx. now apply B_end. }
  destruct (c >? 1).
  - eexists. split; [reflexivity|]. split; [now rewrite length_map|exact HP].
  - eexists. split; [reflexivity|]. split; [exact Hl|].
    now rewrite map_id in HP.
Qed.

Lemma renderSteps_Forall (pattern : Renderer.Pattern)
      (options : AudioExporter.AudioExportOptions) (samplesPerStep : Z)
      (stepList : list Z) :
  (forall step, In step stepList ->
     exists ss,
       Renderer.renderStep pow2 sin_turn pattern step options samplesPerStep
       = Ok ss /\ Forall P ss) ->
  forall samples cur,
    Forall P samples ->
    exists out,
      Renderer.renderSteps pow2 sin_turn pattern samples options
                           samplesPerStep cur stepList
      = Ok (out, cur + samplesPerStep * Z.of_nat (List.length stepList)) /\
      Forall P out /\ List.length out = List.length samples.
Proof.
  induction stepList as [|step rest IH]; intros Hsteps samples cur Hs.
  - simpl. rewrite Z.mul_0_r, Z.add_0_r. eauto.
  - cbn [Renderer.renderSteps].
    destruct (Hsteps step (or_introl eq_refl)) as (ss & -> & Hss).
    cbn [bind]. cbv zeta.
    destruct (writeFrames_Forall P ss Hss samples
                (AudioExporter.audioChannels options) cur 0 Hs) as [H1 H2].
    destruct (IH (fun st Hin => Hsteps st (or_intror Hin)) _
                 (cur + samplesPerStep) H1) as (out & Hout & HP & Hlen).
    exists out. split; [|split; [exact HP|congruence]].
    rewrite Hout. do 2 f_equal. cbn [List.length]. lia.
Qed.

Lemma renderOrder_Forall (song : Renderer.Song)
      (options : AudioExporter.AudioExportOptions) (stepDuration : Q)
      (order : list string) :
  (forall pattern step,
      In pattern (Renderer.patterns song) ->
      exists ss,
        Renderer.renderStep pow2 sin_turn pattern step options
          (Qfloor (stepDuration
                   * inject_Z (AudioExporter.sampleRate options))%Q)
        = Ok ss /\ Forall P ss) ->
  forall samples cur,
    Forall P samples ->
    exists out,
      Renderer.renderOrder pow2 sin_turn song samples options stepDuration
                           cur order = Ok out /\
      Forall P out /\ List.length out = List.length samples.
Proof.
  intros Hsteps. induction order as [|patternId rest IH]; intros samples cur Hs.
  - simpl. eauto.
  - cbn [Renderer.renderOrder].
    destruct (find _ (Renderer.patterns song)) as [pattern|] eqn:Hf;
      [|now apply IH].
    apply find_some in Hf. destruct Hf as [Hin _].
    unfold Renderer.renderPattern. cbv zeta.
    destruct (renderSteps_Forall pattern options _
                (Renderer.indices (Renderer.stepsCount pattern))
                (fun step _ => Hsteps pattern step Hin) samples cur Hs)
      as (out & -> & HP & Hlen).
    cbn [bind fst snd].
    match goal with
    | |- context [Renderer.renderOrder _ _ _ out _ _ ?c rest] =>
        destruct (IH out c HP) as (out' & Hout & HP' & Hlen')
    end.
    exists out'. split; [exact Hout|]. split; [exact HP'|congruence].
Qed.

End Rendering.

Lemma Qfloor_nonneg (x : Q) : (0 <= x)%Q -> 0 <= Qfloor x.
Proof. intros H. apply (Qfloor_resp_le 0 x) in H. exact H. Qed.

Lemma stepsOf_timing (song : Renderer.Song) (patternId : string) :
  Forall (fun p => 0 <= Renderer.stepsCount p) (Renderer.patterns song) ->
  0 <= stepsOf (Renderer.timing song) patternId.
Proof.
  intros Hp. unfold stepsOf, AudioExporter.findPattern.
  destruct (find _ _) as [pattern|] eqn:Hf; [|lia].
  apply find_some in Hf. destruct Hf as [Hin _].
  cbn [Renderer.timing AudioExporter.patterns] in Hin.
  apply in_map_iff in Hin. destruct Hin as (p0 & <- & Hin).
  rewrite Forall_forall in Hp. exact (Hp p0 Hin).
Qed.

Lemma totalSteps_timing (song : Renderer.Song) :
  Forall (fun p => 0 <= Renderer.stepsCount p) (Renderer.patterns song) ->
  0 <= AudioExporter.getTotalSteps (Renderer.timing song).
Proof.
  intros Hp. rewrite getTotalSteps_sum.
  induction (AudioExporter.patternOrder (Renderer.timing song)) as [|x l IH];
    simpl; [lia|].
  pose proof (stepsOf_timing song x Hp). lia.
Qed.

Lemma renderable_stepDuration song options :
  renderable song options -> (0 < Renderer.getStepDuration song)%Q.
Proof.
  intros (Hb & Hs & _). unfold Renderer.getStepDuration. cbv zeta.
  assert (Hib : (0 < / Renderer.bpm song)%Q) by now apply Qinv_lt_0_compat.
  assert (His : (0 < / Renderer.stepsPerBeat song)%Q)
    by now apply Qinv_lt_0_compat.
  unfold Qdiv.
  pose proof (Qmult_lt_0_compat _ _ His Hib) as Hm.
  set (a := / Renderer.stepsPerBeat song) in *.
  set (b := / Renderer.bpm song) in *.
  assert (E : (1 * a * b * (60 # 1) == (60 # 1) * (a * b))%Q) by ring.
  rewrite E. lra.
Qed.

Lemma renderable_duration song options :
  renderable song options ->
  (0 <= AudioExporter.calculateDuration (Renderer.timing song))%Q.
Proof.
  intros (Hb & Hs & _ & _ & Hp).
  unfold AudioExporter.calculateDuration. cbv zeta.
  cbn [Renderer.timing AudioExporter.bpm AudioExporter.stepsPerBeat].
  assert (Hib : (0 < / Renderer.bpm song)%Q) by now apply Qinv_lt_0_compat.
  assert (His : (0 < / Renderer.stepsPerBeat song)%Q)
    by now apply Qinv_lt_0_compat.
  pose proof (totalSteps_timing song Hp) as Ht.
  rewrite Zle_Qle in Ht. change (inject_Z 0) with 0%Q in Ht.
  pose proof (Qmult_lt_0_compat _ _ His Hib) as Hm.
  unfold Qdiv.
  set (n := inject_Z (AudioExporter.getTotalSteps _)) in *.
  set (a := / Renderer.stepsPerBeat song) in *.
  set (b := / Renderer.bpm song) in *.
  assert (E : (n * (1 * a) * b * (60 # 1) == (60 # 1) * (n * (a * b)))%Q)
    by ring.
  rewrite E.
  assert (0 <= n * (a * b))%Q by (apply Qmult_le_0_compat; lra).
  lra.
Qed.

Lemma renderable_frames song options :
  renderable song options ->
  0 <= Qfloor (AudioExporter.calculateDuration (Renderer.timing song)
               * inject_Z (AudioExporter.sampleRate options))%Q
       * AudioExporter.audioChannels options /\
  0 <= Qfloor (Renderer.getStepDuration song
               * inject_Z (AudioExporter.sampleRate options))%Q.
Proof.
  intros Hr. pose proof (renderable_duration _ _ Hr) as Hd.
  pose proof (renderable_stepDuration _ _ Hr) as Hs.
  destruct Hr as (_ & _ & Hrate & Hch & _).
  assert (Hq : (0 < inject_Z (AudioExporter.sampleRate options))%Q)
    by (now rewrite <- (Zlt_Qlt 0)).
  split.
  - apply Z.mul_nonneg_nonneg; [|exact Hch]. apply Qfloor_nonneg. nra.
  - apply Qfloor_nonneg. nra.
Qed.

Lemma renderNote_returns (pow2 sin_turn : Q -> Q) (nt : Renderer.Note)
      (wave : Renderer.Waveform) (sampleRate numSamples : Z) :
  0 <= numSamples ->
  exists cs,
    Renderer.renderNote pow2 sin_turn nt wave sampleRate numSamples = Ok cs /\
    List.length cs = Z.to_nat numSamples /\
    cs = match Renderer.pitch nt with
         | None => List.repeat 0%Q (Z.to_nat numSamples)
         | Some midi =>
             map (Renderer.noteSample sin_turn
                    (Renderer.midiToFrequency pow2 midi) (Renderer.volume nt)
                    wave sampleRate numSamples)
                 (Renderer.indices numSamples)
         end.
Proof.
  intros Hn. unfold Renderer.renderNote.
  rewrite (newFloat32Array_ok _ Hn). cbn [bind].
  destruct (Renderer.pitch nt); eexists; (split; [reflexivity|]);
    (split; [|reflexivity]).
  - now rewrite length_map, indices_length.
  - apply repeat_length.
Qed.

(** The samples of a song, whatever holds of the samples of its steps. *)
Lemma renderSamples_Forall (pow2 sin_turn : Q -> Q) (P : Q -> Prop)
      (song : Renderer.Song) (options : AudioExporter.AudioExportOptions) :
  renderable song options ->
  P 0%Q ->
  (forall pattern step,
      In pattern (Renderer.patterns song) ->
      exists ss,
        Renderer.renderStep pow2 sin_turn pattern step options
          (Qfloor (Renderer.getStepDuration song
                   * inject_Z (AudioExporter.sampleRate options))%Q)
        = Ok ss /\ Forall P ss) ->
  exists samples,
    Renderer.renderSamples pow2 sin_turn song options
      (AudioExporter.calculateDuration (Renderer.timing song)) = Ok samples /\
    Forall P samples /\
    Z.of_nat (List.length samples)
    = Qfloor (AudioExporter.calculateDuration (Renderer.timing song)
              * inject_Z (AudioExporter.sampleRate options))%Q
      * AudioExporter.audioChannels options.
Proof.
  intros Hr HP Hsteps. destruct (renderable_frames _ _ Hr) as [Hf _].
  unfold Renderer.renderSamples. cbv zeta.
  rewrite (newFloat32Array_ok _ Hf). cbn [bind].
  set (zeros := List.repeat 0%Q _).
  destruct (renderOrder_Forall pow2 sin_turn P song options
              (Renderer.getStepDuration song) (Renderer.patternOrder song)
              Hsteps zeros 0 (repeat_Forall P _ HP))
    as (out & Hout & HPout & Hlen).
  subst zeros.
  exists out. split; [exact Hout|]. split; [exact HPout|].
  rewrite Hlen, repeat_length. lia.
Qed.



(** *** The range of the samples *)

Lemma rem1_range (x : Q) : (0 <= x)%Q -> (0 <= Renderer.rem1 x < 1)%Q.
Proof.
  intros H. unfold Renderer.rem1.
  assert (E : Qle_bool 0 x = true) by now apply Qle_bool_iff.
  rewrite E.
  pose proof (Qfloor_le x) as Hl. pose proof (Qlt_floor x) as Hu.
  rewrite inject_Z_plus in Hu. change (inject_Z 1) with 1%Q in Hu.
  split; lra.
Qed.

Lemma position_range (i n : Z) :
  0 <= i < n -> (0 <= inject_Z i / inject_Z n < 1)%Q.
Proof.
  intros H.
  assert (Hn : (0 < inject_Z n)%Q) by (rewrite <- (Zlt_Qlt 0); lia).
  assert (Hi : (0 <= inject_Z i)%Q) by (rewrite <- (Zle_Qle 0); lia).
  assert (Hin : (inject_Z i < inject_Z n)%Q) by (rewrite <- Zlt_Qlt; lia).
  split.
  - apply Qle_shift_div_l; [exact Hn|]. lra.
  - apply Qlt_shift_div_r; [exact Hn|]. lra.
Qed.

Lemma applyEnvelope_range (i n : Z) :
  0 <= i < n -> (0 <= Renderer.applyEnvelope i n <= 1)%Q.
Proof.
  intros H. pose proof (position_range i n H) as Hp.
  unfold Renderer.applyEnvelope. cbv zeta.
  set (position := (inject_Z i / inject_Z n)%Q) in *.
  destruct (Qle_bool (1 # 100) position) eqn:E1; cbn [negb].
  - destruct (Qle_bool position (1 - (5 # 100))) eqn:E2; cbn [negb].
    + split; lra.
    + assert (H2 : (1 - (5 # 100) < position)%Q).
      { destruct (Qlt_le_dec (1 - (5 # 100)) position) as [Hlt | Hle]; auto.
        apply Qle_bool_iff in Hle. congruence. }
      unfold Qdiv. change (/ (5 # 100))%Q with (100 # 5)%Q. split; lra.
  - assert (H1 : (position < 1 # 100)%Q).
    { destruct (Qlt_le_dec position (1 # 100)) as [Hlt | Hle]; auto.
      apply Qle_bool_iff in Hle. congruence. }
    unfold Qdiv. change (/ (1 # 100))%Q with (100 # 1)%Q. split; lra.
Qed.

Lemma noteSample_range (sin_turn : Q -> Q) (frequency vol : Q)
      (wave : Renderer.Waveform) (sampleRate numSamples i : Z) :
  (forall x, (- (1 # 1) <= sin_turn x <= 1)%Q) ->
  (0 <= frequency)%Q -> 0 < sampleRate -> (0 <= vol <= 1)%Q ->
  0 <= i < numSamples ->
  full_scale (Renderer.noteSample sin_turn frequency vol wave sampleRate
                                  numSamples i).
Proof.
  intros Hsin Hf Hrate Hvol Hi.
  pose proof (applyEnvelope_range i numSamples Hi) as Henv.
  unfold Renderer.noteSample. cbv zeta.
  set (env := Renderer.applyEnvelope i numSamples) in *.
  assert (Ht : (0 <= inject_Z i / inject_Z sampleRate)%Q).
  { apply Qle_shift_div_l; [rewrite <- (Zlt_Qlt 0); lia|].
    assert (0 <= inject_Z i)%Q by (rewrite <- (Zle_Qle 0); lia). lra. }
  pose proof (rem1_range _ (Qmult_le_0_compat _ _ Hf Ht)) as Hphase.
  set (phase := Renderer.rem1 _) in *.
  assert (Hs : (- (1 # 1)
                <= match wave with
                   | Renderer.square =>
                       if negb (Qle_bool (1 # 2) phase) then 1
                       else - (1 # 1)
                   | Renderer.triangle =>
                       (4 # 1) * Renderer.Math_abs (phase - (1 # 2)) - 1
                   | Renderer.sawtooth => (2 # 1) * phase - 1
                   | Renderer.sine => sin_turn phase
                   end <= 1)%Q).
  { destruct wave.
    - destruct (negb _); split; lra.
    - unfold Renderer.Math_abs.
      destruct (Qle_bool 0 (phase - (1 # 2))) eqn:E.
      + apply Qle_bool_iff in E. split; lra.
      + assert (phase - (1 # 2) < 0)%Q.
        { destruct (Qlt_le_dec (phase - (1 # 2)) 0) as [Hlt | Hle]; auto.
          apply Qle_bool_iff in Hle. congruence. }
        split; lra.
    - split; lra.
    - apply Hsin. }
  set (sample := match wave with
                 | Renderer.square => _
                 | Renderer.triangle => _
                 | Renderer.sawtooth => _
                 | Renderer.sine => _
                 end) in *.
  unfold full_scale.
  assert (Hsv : (- (1 # 1) <= sample * vol <= 1)%Q) by (split; nra).
  split; nra.
Qed.

Lemma renderNote_full_scale (pow2 sin_turn : Q -> Q) (nt : Renderer.Note)
      (wave : Renderer.Waveform) (sampleRate numSamples : Z) :
  (forall x, (0 <= pow2 x)%Q) ->
  (forall x, (- (1 # 1) <= sin_turn x <= 1)%Q) ->
  0 < sampleRate -> 0 <= numSamples ->
  (0 <= Renderer.volume nt <= 1)%Q ->
  exists cs,
    Renderer.renderNote pow2 sin_turn nt wave sampleRate numSamples = Ok cs /\
    List.length cs = Z.to_nat numSamples /\ Forall full_scale cs.
Proof.
  intros Hpow Hsin Hrate Hn Hvol.
  destruct (renderNote_returns pow2 sin_turn nt wave sampleRate numSamples Hn)
    as (cs & Hcs & Hl & Heq).
  exists cs. split; [exact Hcs|]. split; [exact Hl|]. subst cs.
  destruct (Renderer.pitch nt) as [midi|].
  - apply Forall_map, Forall_forall. intros i Hi.
    apply indices_range in Hi.
    apply noteSample_range; auto.
    unfold Renderer.midiToFrequency.
    apply Qmult_le_0_compat; [discriminate|apply Hpow].
  - apply repeat_Forall. unfold full_scale. split; discriminate.
Qed.

Lemma index_In {A : Type} (l : list A) (i : Z) (a : A) :
  index l i = Some a -> In a l.
Proof.
  intros H. apply index_Some_range in H. destruct H as (_ & _ & H).
  eapply nth_error_In; eauto.
Qed.

(** The sum of [c] samples of full scale, and its mean. *)
Lemma full_scale_add (c : Z) (s x : Q) :
  0 <= c ->
  (- inject_Z c <= s <= inject_Z c)%Q -> full_scale x ->
  (- inject_Z (c + 1) <= s + x <= inject_Z (c + 1))%Q.
Proof.
  intros _ Hs Hx. unfold full_scale in Hx.
  rewrite inject_Z_plus. change (inject_Z 1) with 1%Q. split; lra.
Qed.

Lemma full_scale_mean (c : Z) (x : Q) :
  0 <= c ->
  (- inject_Z c <= x <= inject_Z c)%Q ->
  full_scale (if c >? 1 then (x / inject_Z c)%Q else x).
Proof.
  intros Hc Hx. unfold full_scale.
  destruct (c >? 1) eqn:E.
  - apply Z.gtb_lt in E.
    assert (Hq : (0 < inject_Z c)%Q) by (rewrite <- (Zlt_Qlt 0); lia).
    split.
    + apply Qle_shift_div_l; [exact Hq|]. lra.
    + apply Qle_shift_div_r; [exact Hq|]. lra.
  - rewrite Z.gtb_ltb in E. apply Z.ltb_ge in E.
    assert (Hq : (inject_Z c <= 1)%Q) by (rewrite (Zle_Qle c 1) in E; exact E).
    split; lra.
Qed.

Lemma clamp_full_scale (x : Q) :
  full_scale x -> (AudioExporter.clamp x == x)%Q.
Proof.
  unfold full_scale. intros [Hl Hu].
  unfold AudioExporter.clamp, AudioExporter.Math_max, AudioExporter.Math_min.
  destruct (Qle_bool (1 # 1) x) eqn:E1.
  - apply Qle_bool_iff in E1. simpl. lra.
  - assert (E2 : Qle_bool (-1 # 1) x = true) by (apply Qle_bool_iff; lra).
    rewrite E2. reflexivity.
Qed.

(** X19.  With a power of two that is not negative and a sine between -1
    and 1, the samples that [renderSamples] returns for a song whose note
    volumes lie between 0 and 1 all lie between -1 and 1, however many
    channels sound together: the mean of the channels is taken.  The clamp
    of [createWavFile] then changes none of them. *)
Theorem render_full_scale (pow2 sin_turn : Q -> Q) (song : Renderer.Song)
        (options : AudioExporter.AudioExportOptions)
        (Hpow : forall x, (0 <= pow2 x)%Q)
        (Hsin : forall x, (- (1 # 1) <= sin_turn x <= 1)%Q)
        (Hr : renderable song options)
        (Hv : volumes_in_range song) :
  exists samples,
    Renderer.renderSamples pow2 sin_turn song options
      (AudioExporter.calculateDuration (Renderer.timing song)) = Ok samples /\
    Forall full_scale samples /\
    Forall (fun x => (AudioExporter.clamp x == x)%Q) samples.
Proof.
  destruct (renderable_frames _ _ Hr) as [_ Hsps].
  assert (Hrate : 0 < AudioExporter.sampleRate options) by apply Hr.
  destruct (renderSamples_Forall pow2 sin_turn full_scale song options Hr)
    as (samples & Hs & Hfs & _).
  { unfold full_scale. split; discriminate. }
  { intros pattern step Hin.
    destruct (renderStep_Forall pow2 sin_turn full_scale
                (fun c x => (- inject_Z c <= x <= inject_Z c)%Q) full_scale
                ltac:(split; discriminate) full_scale_add full_scale_mean
                pattern step options _ Hsps) as (ss & Hss & _ & HP).
    - intros channel nt Hch Hi.
      apply renderNote_full_scale; auto.
      unfold volumes_in_range, every_note in Hv.
      rewrite Forall_forall in Hv. specialize (Hv pattern Hin).
      rewrite Forall_forall in Hv. specialize (Hv channel Hch).
      rewrite Forall_forall in Hv.
      exact (Hv _ (index_In _ _ _ Hi)).
    - exists ss. auto. }
  exists samples. split; [exact Hs|]. split; [exact Hfs|].
  revert Hfs. apply Forall_impl. exact clamp_full_scale.
Qed.

Lemma render_full_scale_witness :
  renderable riff_song lofi /\ volumes_in_range riff_song /\
  exists samples,
    Renderer.renderSamples (fun _ => 1%Q) (fun _ => 0%Q) riff_song lofi
      (AudioExporter.calculateDuration (Renderer.timing riff_song))
    = Ok samples /\
    Forall full_scale samples.
Proof.
  assert (Hr : renderable riff_song lofi).
  { unfold renderable. simpl. repeat split; try lia.
    repeat constructor. simpl. lia. }
  assert (Hv : volumes_in_range riff_song).
  { unfold volumes_in_range, every_note. simpl.
    repeat constructor; unfold Qle; simpl; lia. }
  split; [exact Hr|]. split; [exact Hv|].
  destruct (render_full_scale (fun _ => 1%Q) (fun _ => 0%Q) riff_song lofi)
    as (samples & Hs & Hfs & _); auto.
  - intros x. unfold Qle. simpl. lia.
  - intros x. unfold Qle. simpl. lia.
  - exists samples. auto.
Defined.

Lemma silent_bytes (bd : AudioExporter.BitDepth) (s : Q) :
  (s == 0)%Q ->
  sampleBytes bd s
  = match bd with
    | AudioExporter.Bits8 => [127]
    | AudioExporter.Bits16 => [0; 0]
    | AudioExporter.Bits24 => [0; 0; 0]
    | AudioExporter.Bits32 => [0; 0; 0; 0]
    end.
Proof.
  intros Hs. destruct bd; unfold sampleBytes; cbv zeta.
  - rewrite (Qfloor_comp _ ((0 + 1) * (1275 # 10))%Q) by (now rewrite Hs).
    reflexivity.
  - rewrite (Qfloor_comp _ (0 * (32767 # 1))%Q) by (now rewrite Hs).
    reflexivity.
  - rewrite (Qfloor_comp _ (0 * (8388607 # 1))%Q) by (now rewrite Hs).
    reflexivity.
  - rewrite (Qfloor_comp _ (0 * (2147483647 # 1))%Q) by (now rewrite Hs).
    reflexivity.
Qed.

(** X20.  A song whose steps hold no note, or only rests, is rendered as
    silence: every sample that [renderSamples] returns is zero, and in the
    file it is stored as the bytes of zero, or as 127 at 8 bits; an id of
    the play order without a pattern adds nothing. *)
Theorem render_silence (pow2 sin_turn : Q -> Q) (song : Renderer.Song)
        (options : AudioExporter.AudioExportOptions)
        (Hr : renderable song options)
        (Hrest : rests_only song) :
  exists samples,
    Renderer.renderSamples pow2 sin_turn song options
      (AudioExporter.calculateDuration (Renderer.timing song)) = Ok samples /\
    Forall silent samples /\
    forall x, In x samples ->
      sampleBytes (AudioExporter.bitDepth options) (AudioExporter.clamp x)
      = match AudioExporter.bitDepth options with
        | AudioExporter.Bits8 => [127]
        | AudioExporter.Bits16 => [0; 0]
        | AudioExporter.Bits24 => [0; 0; 0]
        | AudioExporter.Bits32 => [0; 0; 0; 0]
        end.
Proof.
  destruct (renderable_frames _ _ Hr) as [_ Hsps].
  destruct (renderSamples_Forall pow2 sin_turn silent song options Hr)
    as (samples & Hs & Hsil & _).
  { reflexivity. }
  { intros pattern step Hin.
    destruct (renderStep_Forall pow2 sin_turn silent (fun _ => silent) silent)
      with (pattern := pattern) (stepIndex := step) (options := options)
           (numSamples := Qfloor (Renderer.getStepDuration song
                                  * inject_Z (AudioExporter.sampleRate options)))
      as (ss & Hss & _ & HP).
    - reflexivity.
    - unfold silent. intros c s x _ Hs0 Hx. rewrite Hs0, Hx. reflexivity.
    - unfold silent. intros c x _ Hx.
      destruct (c >? 1); [|exact Hx]. rewrite Hx. reflexivity.
    - exact Hsps.
    - intros channel nt Hch Hi.
      destruct (renderNote_returns pow2 sin_turn nt
                  (Renderer.waveform channel)
                  (AudioExporter.sampleRate options) _ Hsps)
        as (cs & Hcs & Hl & Heq).
      exists cs. split; [exact Hcs|]. split; [exact Hl|].
      unfold rests_only, every_note in Hrest.
      rewrite Forall_forall in Hrest. specialize (Hrest pattern Hin).
      rewrite Forall_forall in Hrest. specialize (Hrest channel Hch).
      rewrite Forall_forall in Hrest.
      pose proof (Hrest _ (index_In _ _ _ Hi)) as Hp. simpl in Hp.
      rewrite Hp in Heq. subst cs. apply repeat_Forall. reflexivity.
    - exists ss. auto. }
  exists samples. split; [exact Hs|]. split; [exact Hsil|].
  intros x Hx. rewrite Forall_forall in Hsil. specialize (Hsil x Hx).
  unfold silent in Hsil.
  assert (Hc : (AudioExporter.clamp x == 0)%Q).
  { rewrite clamp_full_scale; [exact Hsil|].
    unfold full_scale. rewrite Hsil. split; discriminate. }
  now apply silent_bytes.
Qed.

Lemma render_silence_witness :
  renderable hush_song lofi /\ rests_only hush_song /\
  exists samples,
    Renderer.renderSamples (fun _ => 1%Q) (fun _ => 0%Q) hush_song lofi
      (AudioExporter.calculateDuration (Renderer.timing hush_song))
    = Ok samples /\
    Forall silent samples.
Proof.
  assert (Hr : renderable hush_song lofi).
  { unfold renderable. simpl. repeat split; try lia.
    repeat constructor. simpl. lia. }
  assert (Hv : rests_only hush_song).
  { unfold rests_only, every_note. simpl. repeat constructor. }
  split; [exact Hr|]. split; [exact Hv|].
  destruct (render_silence (fun _ => 1%Q) (fun _ => 0%Q) hush_song lofi Hr Hv)
    as (samples & Hs & Hsil & _).
  exists samples. auto.
Defined.

(* ================================================================== *)
(** ** The exporter: quantization *)

Lemma Qfloor_scaled (s : Q) (m : Z) :
  0 <= m -> (- (1 # 1) <= s <= 1)%Q -> - m <= Qfloor (s * inject_Z m)%Q <= m.
Proof.
  intros Hm Hs.
  assert (Hq : (0 <= inject_Z m)%Q) by (rewrite <- (Zle_Qle 0); lia).
  split.
  - rewrite <- (Qfloor_Z (- m)). apply Qfloor_resp_le.
    rewrite inject_Z_opp. nra.
  - rewrite <- (Qfloor_Z m) at 2. apply Qfloor_resp_le. nra.
Qed.

Lemma le16_signed (v : Z) :
  - 32768 <= v < 32768 -> signed 16 (le_value (le16 v)) = v.
Proof.
  intros H. unfold signed, le_value, le16, AudioExporter.toUint8.
  cbn [fold_right]. rewrite Z.shiftr_div_pow2 by lia.
  change (2 ^ 8) with 256. change (2 ^ (16 - 1)) with 32768.
  change (2 ^ 16) with 65536.
  destruct (_ <? _) eqn:E;
    [apply Z.ltb_lt in E|apply Z.ltb_ge in E];
    Z.div_mod_to_equations; lia.
Qed.

Lemma le32_signed (v : Z) :
  - 2147483648 <= v < 2147483648 -> signed 32 (le_value (le32 v)) = v.
Proof.
  intros H. unfold signed, le_value, le32, AudioExporter.toUint8.
  cbn [fold_right]. rewrite !Z.shiftr_div_pow2 by lia.
  change (2 ^ 8) with 256. change (2 ^ 16) with 65536.
  change (2 ^ 24) with 16777216.
  change (2 ^ (32 - 1)) with 2147483648. change (2 ^ 32) with 4294967296.
  destruct (_ <? _) eqn:E;
    [apply Z.ltb_lt in E|apply Z.ltb_ge in E];
    Z.div_mod_to_equations; lia.
Qed.

Lemma packed24_signed (v : Z) :
  - 8388608 <= v < 8388608 ->
  signed 24 (le_value [AudioExporter.toUint8 (Z.land v 255);
                       AudioExporter.toUint8 (Z.land (Z.shiftr v 8) 255);
                       AudioExporter.toUint8 (Z.land (Z.shiftr v 16) 255)])
  = v.
Proof.
  intros H. unfold signed, le_value, AudioExporter.toUint8.
  cbn [fold_right]. change 255 with (Z.ones 8).
  rewrite !Z.land_ones by lia. rewrite !Z.shiftr_div_pow2 by lia.
  change (2 ^ 8) with 256. change (2 ^ 16) with 65536.
  change (2 ^ (24 - 1)) with 8388608. change (2 ^ 24) with 16777216.
  destruct (_ <? _) eqn:E;
    [apply Z.ltb_lt in E|apply Z.ltb_ge in E];
    Z.div_mod_to_equations; lia.
Qed.

Lemma byte_range (v : Z) : 0 <= AudioExporter.toUint8 v < 256.
Proof. unfold AudioExporter.toUint8. apply Z.mod_pos_bound. lia. Qed.


(* ================================================================== *)
(** ** The engine: what is scheduled *)

Lemma Qltb_lt (a b : Q) : Qltb a b = true -> (a < b)%Q.
Proof.
  unfold Qltb. intros H.
  destruct (Qlt_le_dec a b) as [Hlt | Hle]; [exact Hlt|].
  apply Qle_bool_iff in Hle. rewrite Hle in H. discriminate.
Qed.

Lemma stop_audioContext (e : Engine) : audioContext (stop e) = audioContext e.
Proof. unfold stop. destruct (scheduleInterval e); reflexivity. Qed.

Lemma pause_audioContext (e : Engine) : audioContext (pause e) = audioContext e.
Proof.
  unfold pause. destruct (negb _); [reflexivity|].
  destruct (scheduleInterval e); reflexivity.
Qed.

Lemma updatePattern_audioContext (p : Pattern) (e : Engine) :
  audioContext (updatePattern p e) = audioContext e.
Proof.
  unfold updatePattern. cbv zeta. cbn [currentSong set_currentPattern].
  destruct (currentSong e); [|reflexivity].
  destruct (map_has _ _); reflexivity.
Qed.

Lemma handleSongAdvance_audioContext (e : Engine) :
  audioContext (handleSongAdvance e) = audioContext e.
Proof.
  unfold handleSongAdvance.
  destruct (currentSong e); [|reflexivity].
  set (e1 := set_currentLoop e (currentLoop e + 1)).
  transitivity (audioContext e1); [|reflexivity].
  clearbody e1. cbv zeta.
  destruct (int_ge _ _); [|reflexivity].
  set (e2 := stop e1). rewrite <- (stop_audioContext e1). fold e2.
  clearbody e2.
  destruct (onCompleteCallback e2); reflexivity.
Qed.

(** The notes of a step, triggered at [t]: one oscillator each, in order. *)
Lemma played_events (t : Q) (ns : list Note) (e : Engine) :
  exists added,
    audioContext (fold_left (fun e note => playNote note t e) ns e)
    = mkContext (currentTime (audioContext e))
                (scheduled (audioContext e) ++ added) /\
    Forall (fun ev => startAt ev = t /\ gain ev = (1 # 10)%Q) added.
Proof.
  revert e. induction ns as [|n ns IH]; intros e.
  - exists []. simpl. rewrite app_nil_r. split; [|constructor].
    now destruct (audioContext e).
  - cbn [fold_left]. destruct (IH (playNote n t e)) as (added & Ha & Hf).
    rewrite Ha. unfold playNote at 1 2. cbv zeta.
    cbn [audioContext set_audioContext currentTime scheduled].
    eexists. rewrite <- app_assoc. split; [reflexivity|].
    constructor; [split; reflexivity|exact Hf].
Qed.

Lemma scheduleStep_events (e : Engine) :
  exists added,
    audioContext (engineOf (scheduleStep e))
    = mkContext (currentTime (audioContext e))
                (scheduled (audioContext e) ++ added) /\
    Forall (fun ev => startAt ev = getNextNoteTime e /\ gain ev = (1 # 10)%Q)
           added.
Proof.
  assert (Hsame : exists added,
             audioContext e
             = mkContext (currentTime (audioContext e))
                         (scheduled (audioContext e) ++ added) /\
             Forall (fun ev => startAt ev = getNextNoteTime e
                               /\ gain ev = (1 # 10)%Q) added).
  { exists []. rewrite app_nil_r. split; [|constructor].
    now destruct (audioContext e). }
  unfold scheduleStep. cbv zeta.
  destruct (currentPattern e) as [p|]; [|exact Hsame].
  destruct (getStep p (currentStep e)) as [[st|]|x]; try exact Hsame.
  set (t := getNextNoteTime e) in *.
  assert (Hplayed : exists added,
             audioContext
               (if negb (Step_isEmpty st)
                then fold_left (fun e note => playNote note t e) (notes st) e
                else e)
             = mkContext (currentTime (audioContext e))
                         (scheduled (audioContext e) ++ added) /\
             Forall (fun ev => startAt ev = t /\ gain ev = (1 # 10)%Q) added)
    by (destruct (negb _); [apply played_events|exact Hsame]).
  destruct (played_notes (negb (Step_isEmpty st)) t (notes st) e) as [c Hc].
  rewrite Hc in *. cbn [audioContext set_audioContext] in Hplayed.
  cbn [currentStep set_currentStep set_audioContext currentSong].
  destruct (currentStep e + 1 >=? stepCount p); [|exact Hplayed].
  destruct (currentSong e); cbn [engineOf].
  - rewrite handleSongAdvance_audioContext. exact Hplayed.
  - exact Hplayed.
Qed.

Lemma scheduleLoop_events (fuel : nat) (u : Q) :
  forall e,
  exists added,
    audioContext (engineOf (scheduleLoop fuel u e))
    = mkContext (currentTime (audioContext e))
                (scheduled (audioContext e) ++ added) /\
    Forall (fun ev => (startAt ev < u)%Q /\ gain ev = (1 # 10)%Q) added.
Proof.
  assert (Hsame : forall e : Engine, exists added,
             audioContext e
             = mkContext (currentTime (audioContext e))
                         (scheduled (audioContext e) ++ added) /\
             Forall (fun ev => (startAt ev < u)%Q /\ gain ev = (1 # 10)%Q)
                    added).
  { intros e. exists []. rewrite app_nil_r. split; [|constructor].
    now destruct (audioContext e). }
  induction fuel as [|fuel IH]; intros e; cbn [scheduleLoop].
  - destruct (Qltb _ _); apply Hsame.
  - destruct (Qltb (getNextNoteTime e) u) eqn:Hc; [|apply Hsame].
    apply Qltb_lt in Hc.
    destruct (scheduleStep_events e) as (a1 & H1 & F1).
    assert (F1' : Forall (fun ev => (startAt ev < u)%Q
                                    /\ gain ev = (1 # 10)%Q) a1).
    { revert F1. apply Forall_impl. intros ev [Hs Hg].
      split; [now rewrite Hs|exact Hg]. }
    destruct (scheduleStep e) as [e' | x e' | e']; cbn [engineOf] in *;
      try (exists a1; split; assumption).
    destruct (IH e') as (a2 & H2 & F2).
    exists (a1 ++ a2). split.
    + rewrite H2, H1. cbn [currentTime scheduled]. now rewrite app_assoc.
    + apply Forall_app. split; assumption.
Qed.

Lemma scheduleNotes_events (fuel : nat) (e : Engine) :
  extends_schedule e (scheduleNotes fuel e).
Proof.
  unfold extends_schedule, in_window, scheduleNotes.
  destruct (currentPattern e).
  - cbv zeta.
    destruct (scheduleLoop_events
                fuel (currentTime (audioContext e) + SCHEDULE_AHEAD_TIME)%Q e)
      as (added & Ha & Hf).
    exists added. rewrite Ha. split; [reflexivity|exact Hf].
  - exists []. cbn [engineOf]. rewrite app_nil_r. split; [reflexivity|constructor].
Qed.

Lemma schedulePlayback_events (fuel : nat) (e : Engine) :
  extends_schedule e (schedulePlayback fuel e).
Proof.
  unfold schedulePlayback.
  destruct (scheduleInterval e).
  - exists []. cbn [engineOf]. rewrite app_nil_r. split; [reflexivity|constructor].
  - exact (scheduleNotes_events
             fuel (set_scheduleInterval e (Some (Interval SCHEDULE_INTERVAL)))).
Qed.

Lemma extends_nothing (e : Engine) : extends_schedule e (Returned e).
Proof.
  exists []. cbn [engineOf]. rewrite app_nil_r. split; [reflexivity|constructor].
Qed.

(** X22.  Whatever the engine holds, a call of [start], [startSong],
    [resume] or of the timer callback only adds oscillators to those
    already scheduled on the audio context, each of gain 0.1 and each
    starting before the clock plus the look-ahead of 0.1 s, for any number
    of iterations of the scheduling loop; [stop], [pause] and
    [updatePattern] leave the audio context as it is, so an oscillator once
    scheduled is never cancelled. *)
Theorem scheduler_lookahead (fuel : nat) (e : Engine) :
  extends_schedule e (tick fuel e) /\
  extends_schedule e (resume fuel e) /\
  (forall pattern tempo, extends_schedule e (start fuel pattern tempo e)) /\
  (forall song patterns, extends_schedule e (startSong fuel song patterns e)) /\
  audioContext (stop e) = audioContext e /\
  audioContext (pause e) = audioContext e /\
  (forall pattern, audioContext (updatePattern pattern e) = audioContext e).
Proof.
  split; [|split; [|split; [|split; [|split; [|split]]]]].
  - unfold tick. destruct (_ || _); [apply extends_nothing|].
    apply scheduleNotes_events.
  - unfold resume. destruct (negb _); [apply extends_nothing|]. cbv zeta.
    match goal with
    | |- extends_schedule e (schedulePlayback fuel ?x) =>
        exact (schedulePlayback_events fuel x)
    end.
  - intros pattern tempo. unfold start.
    destruct (state_eqb _ _); [apply extends_nothing|]. cbv zeta.
    match goal with
    | |- extends_schedule e (schedulePlayback fuel ?x) =>
        exact (schedulePlayback_events fuel x)
    end.
  - intros song patterns. unfold startSong.
    destruct (state_eqb _ _); [apply extends_nothing|]. cbv zeta.
    destruct (patternSequence song);
      match goal with
      | |- extends_schedule e (schedulePlayback fuel ?x) =>
          exact (schedulePlayback_events fuel x)
      end.
  - apply stop_audioContext.
  - apply pause_audioContext.
  - intros pattern. apply updatePattern_audioContext.
Qed.

(* ================================================================== *)
(** ** The synthesizer *)

Lemma synth_get_set_same {V : Type} (m : list (Z * V)) (k : Z) (v : V) :
  Synth.get (Synth.set m k v) k = Some v.
Proof.
  induction m as [|[k' v'] m IH]; simpl.
  - now rewrite Z.eqb_refl.
  - destruct (k' =? k) eqn:E; simpl; rewrite E; auto.
Qed.

Lemma synth_get_set_other {V : Type} (m : list (Z * V)) (k j : Z) (v : V) :
  k <> j -> Synth.get (Synth.set m k v) j = Synth.get m j.
Proof.
  intros Hkj. induction m as [|[k' v'] m IH]; simpl.
  - destruct (k =? j) eqn:E; [apply Z.eqb_eq in E; contradiction|reflexivity].
  - destruct (k' =? k) eqn:E; simpl.
    + apply Z.eqb_eq in E. subst k'.
      destruct (k =? j) eqn:E'; [apply Z.eqb_eq in E'; contradiction|reflexivity].
    + now rewrite IH.
Qed.

Lemma synth_get_In {V : Type} (m : list (Z * V)) (k : Z) (v : V) :
  Synth.get m k = Some v -> exists k', In (k', v) m.
Proof.
  induction m as [|[k' v'] m IH]; simpl; [discriminate|].
  destruct (k' =? k).
  - intros H; injection H as ->. eauto.
  - intros H. destruct (IH H) as [k0 Hin]. eauto.
Qed.

Lemma synth_set_Forall {V : Type} (P : Z * V -> Prop) (m : list (Z * V))
      (k : Z) (v : V) :
  Forall P m -> (forall k', P (k', v)) -> Forall P (Synth.set m k v).
Proof.
  intros Hm Hv. induction Hm as [|[k' v'] m Hh Ht IH]; simpl.
  - constructor; [apply Hv|constructor].
  - destruct (k' =? k); constructor; auto.
Qed.

Lemma known_voices (s : Synth.Synthesizer) (k : Z) :
  known_nodes s ->
  Forall (fun v => (Synth.oscillator v < Synth.nextNode s)%nat)
         (Synth.voicesOf s k).
Proof.
  intros Hk. unfold Synth.voicesOf.
  destruct (Synth.get (Synth.activeVoices s) k) as [voices|] eqn:Hg;
    [|constructor].
  apply synth_get_In in Hg. destruct Hg as [k' Hin].
  unfold known_nodes in Hk. rewrite Forall_forall in Hk.
  exact (Hk _ Hin).
Qed.

Lemma filter_fresh (voices : list Synth.Voice) (voice : Synth.Voice) :
  Forall (fun v => (Synth.oscillator v < Synth.oscillator voice)%nat) voices ->
  filter (fun v => negb (Nat.eqb (Synth.oscillator v) (Synth.oscillator voice)))
         (voices ++ [voice])
  = voices.
Proof.
  induction 1 as [|v voices Hv Hvs IH]; simpl.
  - now rewrite Nat.eqb_refl.
  - destruct (Nat.eqb_spec (Synth.oscillator v) (Synth.oscillator voice));
      [lia|]. simpl. now rewrite IH.
Qed.

Lemma trackVoice_same (s : Synth.Synthesizer) (k : Z) (v : Synth.Voice) :
  Synth.voicesOf (Synth.trackVoice s k v) k = Synth.voicesOf s k ++ [v].
Proof.
  unfold Synth.trackVoice, Synth.voicesOf at 1. cbn [Synth.activeVoices].
  now rewrite synth_get_set_same.
Qed.

Lemma trackVoice_other (s : Synth.Synthesizer) (k j : Z) (v : Synth.Voice) :
  j <> k -> Synth.voicesOf (Synth.trackVoice s k v) j = Synth.voicesOf s j.
Proof.
  intros Hj. unfold Synth.trackVoice, Synth.voicesOf. cbn [Synth.activeVoices].
  rewrite synth_get_set_other by congruence. reflexivity.
Qed.

(** X23.  When the mixer callback accepts the channel, [playNote] throws
    nothing, creates an oscillator and a gain node, starts the oscillator
    at the start time and stops it at the start time plus the duration of
    the note plus the release, and tracks one more voice on that channel
    with that stop time, the voices of the other channels being as before;
    when the oscillator has ended, [removeVoice] leaves the voices of the
    channel as they were before the note.  When the callback throws,
    [playNote] throws the same: no voice is tracked, and nothing is
    started. *)
Theorem synth_voice_lifecycle (pow2 : Q -> Q)
        (connectToMixer : Z -> nat -> option exn)
        (s : Synth.Synthesizer) (channel : Z) (n : Synth.Note) (startTime : Q)
        (Hk : known_nodes s) :
  let osc := Synth.nextNode s in
  let stopTime :=
    (startTime + Synth.duration n + Synth.release (Synth.config s))%Q in
  let played := Synth.playNote pow2 connectToMixer s channel n startTime in
  let s1 := fst played in
  match connectToMixer channel (S osc) with
  | None =>
      snd played = None /\
      Synth.voicesOf s1 channel
      = Synth.voicesOf s channel
        ++ [Synth.mkVoice channel osc (S osc) stopTime] /\
      (forall j, j <> channel -> Synth.voicesOf s1 j = Synth.voicesOf s j) /\
      In (Synth.Start osc startTime) (Synth.calls s1) /\
      In (Synth.Stop osc stopTime) (Synth.calls s1) /\
      known_nodes s1 /\
      Synth.voicesOf (Synth.removeVoice s1 channel osc) channel
      = Synth.voicesOf s channel
  | Some x =>
      snd played = Some x /\
      Synth.activeVoices s1 = Synth.activeVoices s /\
      (forall t, ~ In (Synth.Start osc t)
                      (skipn (List.length (Synth.calls s)) (Synth.calls s1))) /\
      known_nodes s1
  end.
Proof.
  intros osc stopTime played s1. subst played s1. unfold Synth.playNote.
  cbv zeta. fold osc.
  destruct (connectToMixer channel (S osc)) as [x|]; cbn [fst snd].
  - split; [reflexivity|]. split; [reflexivity|]. split.
    + intros t. cbn [Synth.calls].
      rewrite skipn_app, Nat.sub_diag, skipn_all. cbn [app skipn].
      intros [H | [H | [H | []]]]; discriminate.
    + unfold known_nodes in *. cbn [Synth.activeVoices Synth.nextNode].
      revert Hk. apply Forall_impl. intros entry.
      apply Forall_impl. intros v Hv. fold osc in Hv. lia.
  - pose proof (known_voices s channel Hk) as Hv. fold osc in Hv.
    set (voice := Synth.mkVoice channel osc (S osc) stopTime).
    set (s0 := Synth.mkSynth _ _ _ _ _ _).
    assert (H0 : forall k, Synth.voicesOf s0 k = Synth.voicesOf s k)
      by reflexivity.
    split; [reflexivity|].
    split; [now rewrite trackVoice_same, H0|].
    split; [intros k Hk'; now rewrite trackVoice_other, H0|].
    split.
    { unfold Synth.trackVoice, s0. cbn [Synth.calls].
      apply in_or_app. right. simpl. tauto. }
    split.
    { unfold Synth.trackVoice, s0. cbn [Synth.calls].
      apply in_or_app. right. simpl. tauto. }
    split.
    { unfold known_nodes, Synth.trackVoice.
      cbn [Synth.activeVoices Synth.nextNode]. rewrite H0.
      unfold s0. cbn [Synth.activeVoices Synth.nextNode].
      apply synth_set_Forall.
      - revert Hk. apply Forall_impl. intros entry.
        apply Forall_impl. intros v Hlt. fold osc in Hlt. lia.
      - intros k'. cbn [snd]. apply Forall_app. split.
        + revert Hv. apply Forall_impl. intros v Hlt. lia.
        + constructor; [cbn [voice Synth.oscillator]; lia|constructor]. }
    unfold Synth.removeVoice, Synth.voicesOf at 1.
    cbn [Synth.activeVoices]. rewrite synth_get_set_same.
    rewrite trackVoice_same, H0.
    exact (filter_fresh (Synth.voicesOf s channel) voice Hv).
Qed.

Lemma synth_voice_lifecycle_witness :
  known_nodes one_voice /\
  Synth.voicesOf
    (fst (Synth.playNote (fun _ => 1%Q) four_channels one_voice 0
                         (Synth.mkNote 60 (1 # 4) (8 # 10)) (1 # 2))) 0
  = [Synth.mkVoice 0 0 1 (1 # 1);
     Synth.mkVoice 0 2 3 ((1 # 2) + (1 # 4) + (5 # 100))%Q].
Proof.
  assert (Hk : known_nodes one_voice).
  { unfold known_nodes. simpl. repeat constructor. }
  split; [exact Hk|].
  exact (proj1 (proj2 (synth_voice_lifecycle
                         (fun _ => 1%Q) four_channels one_voice 0
                         (Synth.mkNote 60 (1 # 4) (8 # 10)) (1 # 2) Hk))).
Defined.

Lemma stopAll_get (m : list (Z * list Synth.Voice)) (j : Z) :
  match Synth.get (map (fun entry => (fst entry, [])) m) j with
  | Some voices => voices
  | None => @nil Synth.Voice
  end = [].
Proof.
  induction m as [|[k v] m IH]; simpl; [reflexivity|].
  destruct (k =? j); [reflexivity|exact IH].
Qed.

(** X24.  [stopAll] leaves no voice on any channel and asks every tracked
    oscillator to stop at the current time; [stopChannel] does so for the
    voices of its channel only and leaves the other channels as they were.
    Neither changes the waveforms or the configuration. *)
Theorem synth_stop (s : Synth.Synthesizer) (channel : Z) :
  (forall j, Synth.voicesOf (Synth.stopAll s) j = []) /\
  (forall k voices v,
      In (k, voices) (Synth.activeVoices s) -> In v voices ->
      In (Synth.Stop (Synth.oscillator v) (Synth.currentTime s))
         (Synth.calls (Synth.stopAll s))) /\
  Synth.voicesOf (Synth.stopChannel s channel) channel = [] /\
  (forall j, j <> channel ->
             Synth.voicesOf (Synth.stopChannel s channel) j
             = Synth.voicesOf s j) /\
  (forall v, In v (Synth.voicesOf s channel) ->
             In (Synth.Stop (Synth.oscillator v) (Synth.currentTime s))
                (Synth.calls (Synth.stopChannel s channel))) /\
  Synth.channelWaveforms (Synth.stopAll s) = Synth.channelWaveforms s /\
  Synth.channelWaveforms (Synth.stopChannel s channel)
  = Synth.channelWaveforms s.
Proof.
  split; [|split; [|split; [|split; [|split; [|split]]]]].
  - intros j. unfold Synth.voicesOf, Synth.stopAll.
    cbn [Synth.activeVoices]. apply stopAll_get.
  - intros k voices v Hin Hv. unfold Synth.stopAll. cbn [Synth.calls].
    apply in_or_app. right. apply in_flat_map.
    exists (k, voices). split; [exact Hin|].
    cbn [snd]. apply in_map_iff. exists v. auto.
  - unfold Synth.voicesOf, Synth.stopChannel. cbn [Synth.activeVoices].
    now rewrite synth_get_set_same.
  - intros j Hj. unfold Synth.voicesOf, Synth.stopChannel.
    cbn [Synth.activeVoices].
    rewrite synth_get_set_other by congruence. reflexivity.
  - intros v Hv. unfold Synth.stopChannel. cbn [Synth.calls].
    apply in_or_app. right. apply in_map_iff. exists v. auto.
  - reflexivity.
  - reflexivity.
Qed.

Lemma first_call_type (pow2 : Q -> Q) (connectToMixer : Z -> nat -> option exn)
      (s : Synth.Synthesizer) (k : Z) (n : Synth.Note) (startTime : Q) :
  first_call pow2 connectToMixer s k n startTime
  = Some (Synth.SetType
            (Synth.nextNode s)
            match Synth.get (Synth.channelWaveforms s) k with
            | Some w => w
            | None => Synth.waveform (Synth.config s)
            end).
Proof.
  unfold first_call, Synth.playNote. cbv zeta.
  destruct (connectToMixer k (S (Synth.nextNode s)));
    cbn [fst Synth.trackVoice Synth.calls];
    rewrite <- ?app_assoc, nth_error_app2, Nat.sub_diag by lia; reflexivity.
Qed.

(** X25.  The waveform that [playNote] gives the oscillator is the one
    last set for the channel with [setWaveform], and the waveform of the
    configuration for a channel that has none; [setWaveform] on one channel
    changes nothing for the notes of another. *)
Theorem synth_waveform (pow2 : Q -> Q)
        (connectToMixer : Z -> nat -> option exn)
        (s : Synth.Synthesizer) (channel j : Z) (w : Synth.WaveformType)
        (n : Synth.Note) (startTime : Q) :
  first_call pow2 connectToMixer (Synth.setWaveform s channel w) channel n
             startTime
  = Some (Synth.SetType (Synth.nextNode s) w) /\
  (j <> channel ->
   first_call pow2 connectToMixer (Synth.setWaveform s channel w) j n startTime
   = first_call pow2 connectToMixer s j n startTime) /\
  (Synth.get (Synth.channelWaveforms s) j = None ->
   first_call pow2 connectToMixer s j n startTime
   = Some (Synth.SetType (Synth.nextNode s)
                         (Synth.waveform (Synth.config s)))) /\
  first_call pow2 connectToMixer
             (Synth.newSynthesizer (Synth.currentTime s) (Synth.config s))
             j n startTime
  = Some (Synth.SetType 0%nat (Synth.waveform (Synth.config s))).
Proof.
  rewrite !first_call_type. cbn [Synth.setWaveform Synth.channelWaveforms
                                 Synth.nextNode Synth.config].
  split; [now rewrite synth_get_set_same|]. split; [|split].
  - intros Hj. rewrite synth_get_set_other by congruence. reflexivity.
  - intros ->. reflexivity.
  - reflexivity.
Qed.
